(** * ImageFilter: border padding, 1D correlation, Gaussian and Sobel pipelines

    A shallow embedding of [ImageFilter] (ImageFilter.h / ImageFilter.cpp):
    [isClose], [extractSlice], [getMirrorIndex], [getBorderValue], [pad2D],
    [pad3D], [correlate1d],
    [gaussian_kernel1d], [gaussian_filter1d], [gaussian_filter], [sobel].

    Modelling conventions.
    - [int] is [Z]; signed overflow is undefined in C++ and no function here
      is used near the limits of [int].
    - [std::vector<X>] is [list X]; [v[i]] outside [0, size) is undefined
      behaviour, which the embedding reports as the outcome [Undefined].
    - a [throw] is the outcome [Throw e].
    - loops are iterated over their index range and thread the mutated
      object ([result], [output], [sum], ...) as explicit state.
    - [double] is the kernel's binary64 [float]; the engine is written over
      the [Scalar] structure of the operations it performs on samples, whose
      instance is binary64. *)

From Stdlib Require Import String ZArith List Bool Lia.
From Stdlib Require Import Floats.
Import ListNotations.
Open Scope Z_scope.

(** * The model *)

(** ** Outcomes of a call *)

Inductive exn : Type :=
| invalid_argument (what : string)
| out_of_range (what : string)
| length_error (what : string).

Inductive outcome (A : Type) : Type :=
| Ok (a : A)
| Throw (e : exn)
| Undefined.

Arguments Ok {A} a.
Arguments Throw {A} e.
Arguments Undefined {A}.

Definition bind {A B : Type} (c : outcome A) (k : A -> outcome B) : outcome B :=
  match c with
  | Ok a => k a
  | Throw e => Throw e
  | Undefined => Undefined
  end.

Notation "x <- c ;; k" := (bind c (fun x => k))
  (at level 61, c at next level, right associativity).
Notation "' pat <- c ;; k" := (bind c (fun x => match x with pat => k end))
  (at level 61, pat pattern, c at next level, right associativity).

(** ** Vectors *)

Section Vectors.
Context {A : Type}.

(** [v[i]] as an rvalue. *)
Definition vget (v : list A) (i : Z) : outcome A :=
  if i <? 0 then Undefined
  else match nth_error v (Z.to_nat i) with
       | Some x => Ok x
       | None => Undefined
       end.

Fixpoint upd (v : list A) (n : nat) (x : A) : list A :=
  match v, n with
  | [], _ => []
  | _ :: t, O => x :: t
  | h :: t, S n' => h :: upd t n' x
  end.

(** [v[i] = x]. *)
Definition vset (v : list A) (i : Z) (x : A) : outcome (list A) :=
  if (0 <=? i) && (i <? Z.of_nat (length v)) then Ok (upd v (Z.to_nat i) x)
  else Undefined.

(** [std::vector<A>(n, x)]; a negative [int] converts to a [size_type]
    beyond [max_size()]. *)
Definition vnew (n : Z) (x : A) : outcome (list A) :=
  if n <? 0 then Throw (length_error "cannot create std::vector larger than max_size()")
  else Ok (repeat x (Z.to_nat n)).

(** [v.size()] converted to [int]. *)
Definition vsize (v : list A) : Z := Z.of_nat (length v).

(** [v.empty()]. *)
Definition vempty (v : list A) : bool :=
  match v with [] => true | _ => false end.
End Vectors.

(** ** Counted loops: [for (int i = lo; i < hi; ++i) body] *)

Fixpoint for_steps {S : Type} (n : nat) (i : Z) (body : Z -> S -> outcome S) (s : S)
  : outcome S :=
  match n with
  | O => Ok s
  | Datatypes.S n' => s' <- body i s ;; for_steps n' (i + 1) body s'
  end.

Definition for_range {S : Type} (lo hi : Z) (body : Z -> S -> outcome S) (s : S)
  : outcome S :=
  for_steps (Z.to_nat (hi - lo)) lo body s.

(** ** Sample arithmetic *)

(** The operations the engine performs on samples and weights. *)
Class Scalar (T : Type) : Type := {
  s_zero : T;
  s_add : T -> T -> T;
  s_sub : T -> T -> T;
  s_mul : T -> T -> T;
  s_opp : T -> T;
  s_abs : T -> T;
  s_ltb : T -> T -> bool;
  s_eps : T  (* the default [eps = 1e-6] of [isClose] *)
}.

(** The samples of the program: IEEE 754 binary64. *)
#[export] Instance double_scalar : Scalar float := {
  s_zero := 0%float;
  s_add := PrimFloat.add;
  s_sub := PrimFloat.sub;
  s_mul := PrimFloat.mul;
  s_opp := PrimFloat.opp;
  s_abs := PrimFloat.abs;
  s_ltb := PrimFloat.ltb;
  s_eps := 0x1.0c6f7a0b5ed8dp-20%float  (* the double nearest to 1e-6 *)
}.

(** ** The border-index resolver

    [borderType] is the integer code of the header: 0 CONSTANT,
    1 REPLICATE, 2 REFLECT, 3 REFLECT_101. *)

(** [std::clamp(v, lo, hi)]. *)
Definition clamp (v lo hi : Z) : Z :=
  if v <? lo then lo else if hi <? v then hi else v.

Definition getMirrorIndex (idx size borderType : Z) : Z :=
  if size <=? 0 then 0
  else if borderType =? 1 then clamp idx 0 (size - 1)
  else if borderType =? 2 then
    if idx <? 0 then - idx - 1
    else if idx >=? size then 2 * size - idx - 1
    else idx
  else if borderType =? 3 then
    if idx <? 0 then - idx
    else if idx >=? size then 2 * size - idx - 2
    else idx
  else 0.

Section Engine.
Context {T : Type} `{Scalar T}.

Definition Mat2D : Type := list (list T).
Definition Mat3D : Type := list Mat2D.

Definition isClose (a b : T) : bool := s_ltb (s_abs (s_sub a b)) s_eps.

Definition get2 (m : Mat2D) (i j : Z) : outcome T :=
  r <- vget m i ;; vget r j.

Definition set2 (m : Mat2D) (i j : Z) (x : T) : outcome Mat2D :=
  r <- vget m i ;; r' <- vset r j x ;; vset m i r'.

Definition get3 (m : Mat3D) (z i j : Z) : outcome T :=
  s <- vget m z ;; get2 s i j.

Definition set3 (m : Mat3D) (z i j : Z) (x : T) : outcome Mat3D :=
  s <- vget m z ;; s' <- set2 s i j x ;; vset m z s'.

(** [Mat2D(rows, std::vector<double>(cols, x))]. *)
Definition new2 (rows cols : Z) (x : T) : outcome Mat2D :=
  r <- vnew cols x ;; vnew rows r.

(** [Mat3D(depth, Mat2D(rows, std::vector<double>(cols, x)))]. *)
Definition new3 (depth rows cols : Z) (x : T) : outcome Mat3D :=
  s <- new2 rows cols x ;; vnew depth s.

Definition extractSlice (mat3d : Mat3D) (z : Z) : outcome Mat2D :=
  if vempty mat3d then Throw (invalid_argument "Input 3D matrix is empty")
  else if (z <? 0) || (z >=? vsize mat3d) then Throw (out_of_range "Z index out of range")
  else vget mat3d z.

Definition getBorderValue (input : Mat2D) (row col rows cols borderType : Z) (cval : T)
  : outcome T :=
  if (row >=? 0) && (row <? rows) && (col >=? 0) && (col <? cols) then get2 input row col
  else if borderType =? 0 then Ok cval
  else
    let r := getMirrorIndex row rows borderType in
    let c := getMirrorIndex col cols borderType in
    get2 input r c.

Definition pad2D (input : Mat2D) (pad_row pad_col borderType : Z) (cval : T)
  : outcome Mat2D :=
  if vempty input then Ok []
  else
    let rows := vsize input in
    row0 <- vget input 0 ;;
    let cols := vsize row0 in
    let new_rows := rows + 2 * pad_row in
    let new_cols := cols + 2 * pad_col in
    result <- new2 new_rows new_cols s_zero ;;
    (* the central block *)
    result <- for_range 0 rows (fun i result =>
                for_range 0 cols (fun j result =>
                  v <- get2 input i j ;;
                  set2 result (pad_row + i) (pad_col + j) v) result) result ;;
    (* top and bottom borders *)
    result <- for_range 0 pad_row (fun i result =>
                let row_idx := i in
                let mirror_row := pad_row - i - 1 in
                for_range 0 new_cols (fun j result =>
                  let col_idx := j - pad_col in
                  let original_col := getMirrorIndex col_idx cols borderType in
                  val <- (if (col_idx >=? 0) && (col_idx <? cols)
                          then getBorderValue input (mirror_row - pad_row) original_col
                                 rows cols borderType cval
                          else getBorderValue input (mirror_row - pad_row) original_col
                                 rows cols borderType cval) ;;
                  result <- set2 result row_idx j val ;;
                  set2 result (new_rows - 1 - i) j val) result) result ;;
    (* left and right borders, corners excluded *)
    result <- for_range pad_row (new_rows - pad_row) (fun i result =>
                for_range 0 pad_col (fun j result =>
                  let col_idx := j in
                  let mirror_col := pad_col - j - 1 in
                  let original_row := i - pad_row in
                  val <- getBorderValue input original_row (mirror_col - pad_col)
                           rows cols borderType cval ;;
                  result <- set2 result i col_idx val ;;
                  set2 result i (new_cols - 1 - j) val) result) result ;;
    Ok result.

(** The two depth-border loops of [pad3D] share this body: fill slice
    [dst_z] of [result] cell by cell. *)
Definition fill_depth_slice (sliced_padded : list Mat2D) (borderType : Z) (cval : T)
    (new_rows new_cols dst_z src_z : Z) (result : Mat3D) : outcome Mat3D :=
  for_range 0 new_rows (fun i result =>
    for_range 0 new_cols (fun j result =>
      if borderType =? 0 then set3 result dst_z i j cval
      else v <- get3 sliced_padded src_z i j ;; set3 result dst_z i j v) result) result.

Definition pad3D (input : Mat3D) (pads : list Z) (borderType : Z) (cval : T)
  : outcome Mat3D :=
  if vempty input then Ok []
  else if vsize pads <? 2 then Throw (invalid_argument "Pads must have at least 2 elements")
  else
    pad_row <- vget pads 0 ;;
    pad_col <- vget pads 1 ;;
    pad_depth <- (if vsize pads >? 2 then vget pads 2 else Ok 0) ;;
    let depth := vsize input in
    sliced_padded <- vnew depth ([] : Mat2D) ;;
    sliced_padded <- for_range 0 depth (fun z sliced_padded =>
                       slice <- vget input z ;;
                       p <- pad2D slice pad_row pad_col borderType cval ;;
                       vset sliced_padded z p) sliced_padded ;;
    let new_depth := depth + 2 * pad_depth in
    sp0 <- vget sliced_padded 0 ;;
    let new_rows := vsize sp0 in
    sp00 <- vget sp0 0 ;;
    let new_cols := vsize sp00 in
    result <- new3 new_depth new_rows new_cols s_zero ;;
    result <- for_range 0 depth (fun z result =>
                p <- vget sliced_padded z ;;
                vset result (pad_depth + z) p) result ;;
    result <- for_range 0 pad_depth (fun z result =>
                let src_z := getMirrorIndex (z - pad_depth) depth borderType in
                let src_z := clamp src_z 0 (depth - 1) in
                fill_depth_slice sliced_padded borderType cval new_rows new_cols z src_z result)
                result ;;
    result <- for_range 0 pad_depth (fun z result =>
                let dst_z := pad_depth + depth + z in
                let src_z := getMirrorIndex (depth + z) depth borderType in
                let src_z := clamp src_z 0 (depth - 1) in
                fill_depth_slice sliced_padded borderType cval new_rows new_cols dst_z src_z
                  result) result ;;
    Ok result.

(** The symmetry test of [correlate1d]: both flags start [true] and are
    cleared by any tap pair that is not close. *)
Definition kernel_symmetry (weights : list T) (k_half : Z) : outcome (bool * bool) :=
  for_range 1 (k_half + 1) (fun i '(symmetric, anti_symmetric) =>
    wp <- vget weights (k_half + i) ;;
    wm <- vget weights (k_half - i) ;;
    let symmetric := if negb (isClose wp wm) then false else symmetric in
    let anti_symmetric := if negb (isClose wp (s_opp wm)) then false else anti_symmetric in
    Ok (symmetric, anti_symmetric)) (true, true).

(** The value stored at one output coordinate. [line t] is the padded
    sample at offset [t] along the filtered axis (the other two
    coordinates are fixed by the enclosing loops). *)
Definition tap_sum (symmetric anti_symmetric : bool) (line : Z -> outcome T)
    (weights : list T) (k_half ksize center : Z) : outcome T :=
  if symmetric then
    c <- line center ;;
    w <- vget weights k_half ;;
    for_range 1 (k_half + 1) (fun i sum =>
      l <- line (center - i) ;;
      r <- line (center + i) ;;
      w <- vget weights (k_half + i) ;;
      Ok (s_add sum (s_mul (s_add l r) w))) (s_mul c w)
  else if anti_symmetric then
    c <- line center ;;
    w <- vget weights k_half ;;
    for_range 1 (k_half + 1) (fun i sum =>
      l <- line (center - i) ;;
      r <- line (center + i) ;;
      w <- vget weights (k_half + i) ;;
      Ok (s_add sum (s_mul (s_sub l r) w))) (s_mul c w)
  else
    for_range 0 ksize (fun i sum =>
      p <- line (center - k_half + i) ;;
      w <- vget weights i ;;
      Ok (s_add sum (s_mul p w))) s_zero.

(** The three axis sweeps of [correlate1d]. *)
Definition correlate_sweep (symmetric anti_symmetric : bool) (padded : Mat3D)
    (weights : list T) (axis k_half ksize pads0 pads1 pads2 depth rows cols : Z)
    (output : Mat3D) : outcome Mat3D :=
  if axis =? 0 then
    for_range 0 depth (fun z output =>
      for_range 0 cols (fun c output =>
        for_range 0 rows (fun r output =>
          let center_y := k_half + r in
          sum <- tap_sum symmetric anti_symmetric
                   (fun t => get3 padded (z + pads2) t (c + pads1))
                   weights k_half ksize center_y ;;
          set3 output z r c sum) output) output) output
  else if axis =? 1 then
    for_range 0 depth (fun z output =>
      for_range 0 rows (fun r output =>
        for_range 0 cols (fun c output =>
          let center_x := k_half + c in
          sum <- tap_sum symmetric anti_symmetric
                   (fun t => get3 padded (z + pads2) (r + pads0) t)
                   weights k_half ksize center_x ;;
          set3 output z r c sum) output) output) output
  else if axis =? 2 then
    for_range 0 rows (fun r output =>
      for_range 0 cols (fun c output =>
        for_range 0 depth (fun z output =>
          let center_z := k_half + z in
          sum <- tap_sum symmetric anti_symmetric
                   (fun t => get3 padded t (r + pads0) (c + pads1))
                   weights k_half ksize center_z ;;
          set3 output z r c sum) output) output) output
  else Ok output.

(** [correlate1d] with the choice of execution path left to [paths]:
    the function returns the new value of the reference parameter
    [output]. *)
Definition correlate1d_with (paths : list T -> Z -> outcome (bool * bool))
    (input : Mat3D) (weights : list T) (axis : Z) (output : Mat3D)
    (borderType : Z) (cval : T) : outcome Mat3D :=
  if vempty input || vempty weights then Ok output
  else if (axis <? 0) || (axis >? 2) then Throw (invalid_argument "Invalid axis (0-2)")
  else
    let ksize := vsize weights in
    let k_half := ksize / 2 in
    pads <- vset [0; 0; 0] axis k_half ;;
    padded <- pad3D input pads borderType cval ;;
    let depth := vsize input in
    s0 <- vget input 0 ;;
    let rows := vsize s0 in
    r0 <- vget s0 0 ;;
    let cols := vsize r0 in
    output <- new3 depth rows cols s_zero ;;
    '(symmetric, anti_symmetric) <- paths weights k_half ;;
    pads0 <- vget pads 0 ;;
    pads1 <- vget pads 1 ;;
    pads2 <- vget pads 2 ;;
    correlate_sweep symmetric anti_symmetric padded weights axis k_half ksize
      pads0 pads1 pads2 depth rows cols output.

(** [correlate1d] itself: the path is chosen once per call by the symmetry
    test. *)
Definition correlate1d : Mat3D -> list T -> Z -> Mat3D -> Z -> T -> outcome Mat3D :=
  correlate1d_with kernel_symmetry.

(** The general path alone: the full weighted sum at every coordinate. *)
Definition general_path (_ : list T) (_ : Z) : outcome (bool * bool) := Ok (false, false).

End Engine.

(** ** The pipelines on [double] *)

(** [static_cast<int>(x)]: truncation toward zero; undefined when the
    truncated value is not representable in [int] (NaN and infinities
    included). *)
Definition double_to_int (x : float) : outcome Z :=
  match Prim2SF x with
  | S754_zero _ => Ok 0
  | S754_finite s m e =>
      let mag := if e <? 0 then Z.shiftr (Zpos m) (- e) else Z.shiftl (Zpos m) e in
      let v := if s then - mag else mag in
      if (-2147483648 <=? v) && (v <=? 2147483647) then Ok v else Undefined
  | S754_infinity _ | S754_nan => Undefined
  end.

(** The implicit conversion from [int] to [double] (exact on 32 bits). *)
Definition int_to_double (z : Z) : float :=
  if z <? 0 then PrimFloat.opp (PrimFloat.of_uint63 (Uint63.of_Z (- z)))
  else PrimFloat.of_uint63 (Uint63.of_Z z).

Section Pipelines.
(** [std::exp] comes from the C library; the pipelines are written over
    whatever function implements it. *)
Variable exp : float -> float.

Local Open Scope float_scope.

Definition gaussian_kernel1d (sigma : float) (radius : Z) : outcome (list float) :=
  let sigma2 := sigma * sigma in
  kernel <- vnew (2 * radius + 1)%Z 0 ;;
  '(kernel, sum) <- for_range 0%Z (vsize kernel) (fun i '(kernel, sum) =>
                      let x := (i - radius)%Z in
                      kernel <- vset kernel i
                                  (exp (-0.5 / sigma2 * int_to_double x * int_to_double x)) ;;
                      k <- vget kernel i ;;
                      Ok (kernel, sum + k)) (kernel, 0) ;;
  Ok (map (fun val => val / sum) kernel).

Definition gaussian_filter1d (input : Mat3D) (sigma : float) (axis : Z) (output : Mat3D)
    (borderType : Z) (cval : float) : outcome Mat3D :=
  radius <- double_to_int (int_to_double 4 * sigma + 0.5) ;;
  kernel <- gaussian_kernel1d sigma radius ;;
  let kernel := rev kernel in
  correlate1d input kernel axis output borderType cval.

Definition gaussian_filter (input : Mat3D) (sigma : float) (borderType : Z) (cval : float)
  : outcome Mat3D :=
  if vempty input then Ok []
  else
    let dims := 3%Z in
    for_range 0%Z dims (fun axis result =>
      temp <- gaussian_filter1d result sigma axis [] borderType cval ;;
      Ok temp) input.

Definition sobel (input : Mat3D) (axis : Z) (borderType : Z) (cval : float)
  : outcome Mat3D :=
  if vempty input then Ok []
  else if ((axis <? 0) || (axis >? 2))%Z then Throw (invalid_argument "Invalid axis (0-2)")
  else
    let grad_kernel := [-1; 0; 1] in
    result <- correlate1d input grad_kernel axis [] borderType cval ;;
    let smooth_kernel := [1; 2; 1] in
    for_range 0%Z 3%Z (fun ax result =>
      if negb (ax =? axis)%Z then
        temp <- correlate1d result smooth_kernel ax [] borderType cval ;;
        Ok temp
      else Ok result) result.
End Pipelines.

(** * Specification vocabulary *)

(** The value of an outcome known to be [Ok]. *)
Definition force {T : Type} (d : T) (o : outcome T) : T :=
  match o with Ok v => v | _ => d end.

(** A pad amount [pad] on an axis of extent [size] stays within the
    single-bounce regime of the mode. *)
Definition bounce_ok (borderType pad size : Z) : Prop :=
  (borderType = 2 -> pad <= size) /\ (borderType = 3 -> pad < size).

(** The third entry of [pads], or 0 when there is none. *)
Definition pad_depth_of (pads : list Z) : Z :=
  match pads with
  | _ :: _ :: pad_depth :: _ => pad_depth
  | _ => 0
  end.

(** [len] consecutive elements of [v] starting at [off]. *)
Definition sub_vec {A : Type} (off len : Z) (v : list A) : list A :=
  firstn (Z.to_nat len) (skipn (Z.to_nat off) v).

Section Filled.
Context {S K V : Type}.
Variable wf : S -> Prop.
Variable read : S -> K -> outcome V.
Variable F : K -> V.

(** A store that a loop fills cell by cell: [filled W s] says the cells in
    [W] already hold their final values [F]. *)
Definition filled (W : K -> Prop) (s : S) : Prop :=
  wf s /\ forall k, W k -> read s k = Ok (F k).
End Filled.

Section Shapes.
Context {T : Type} `{Scalar T}.

(** No ragged rows: [nr] rows of [nc] samples each. *)
Definition rect (m : @Mat2D T) (nr nc : Z) : Prop :=
  vsize m = nr /\ Forall (fun r => vsize r = nc) m.

(** No ragged slices: [nd] slices of [nr] by [nc] samples each. *)
Definition rect3 (vol : @Mat3D T) (nd nr nc : Z) : Prop :=
  vsize vol = nd /\ Forall (fun s => rect s nr nc) vol.

(** The sample of [vol] at a coordinate triple. *)
Definition cell3 (vol : @Mat3D T) (k : Z * Z * Z) : outcome T :=
  get3 vol (fst (fst k)) (snd (fst k)) (snd k).

(** [f] applied to every sample. *)
Definition map3 (f : T -> T) (V : @Mat3D T) : @Mat3D T := map (map (map f)) V.

(** The block of [depth] by [rows] by [cols] samples of [P] that starts
    [pad_depth] slices, [pad_row] rows and [pad_col] columns in. *)
Definition central_block (P : @Mat3D T)
    (pad_depth pad_row pad_col depth rows cols : Z) : @Mat3D T :=
  map (fun s : @Mat2D T => map (sub_vec pad_col cols) (sub_vec pad_row rows s))
      (sub_vec pad_depth depth P).

(** The value the loops of [pad2D] leave at row [a], column [b] of the
    result: the top border row [a] holds the border value of source row
    [- a - 1], the bottom border repeats the top border upside down, the
    left border column [b] holds the border value of source column
    [- b - 1], the right border repeats the left border mirrored. *)
Definition pad2D_cell (input : @Mat2D T) (pad_row pad_col borderType : Z) (cval : T)
    (a b : Z) : T :=
  let rows := vsize input in
  let cols := match input with [] => 0 | r :: _ => vsize r end in
  let new_rows := rows + 2 * pad_row in
  let new_cols := cols + 2 * pad_col in
  let top i := force s_zero (getBorderValue input (- i - 1)
                               (getMirrorIndex (b - pad_col) cols borderType)
                               rows cols borderType cval) in
  let left j := force s_zero (getBorderValue input (a - pad_row) (- j - 1)
                                rows cols borderType cval) in
  if a <? pad_row then top a
  else if a >=? pad_row + rows then top (new_rows - 1 - a)
  else if b <? pad_col then left b
  else if b >=? pad_col + cols then left (new_cols - 1 - b)
  else force s_zero (get2 input (a - pad_row) (b - pad_col)).

(** The value [pad3D] leaves at slice [z], row [a], column [b]: inside
    the source depth range the padded source slice; outside it the fill
    value (Constant) or the padded slice chosen by the resolver on the
    depth axis. *)
Definition pad3D_cell (input : @Mat3D T) (pad_row pad_col pad_depth borderType : Z)
    (cval : T) (z a b : Z) : T :=
  let depth := vsize input in
  let cell src := pad2D_cell (nth (Z.to_nat src) input []) pad_row pad_col borderType cval a b in
  if (pad_depth <=? z) && (z <? pad_depth + depth) then cell (z - pad_depth)
  else if borderType =? 0 then cval
  else cell (clamp (getMirrorIndex (z - pad_depth) depth borderType) 0 (depth - 1)).

(** The sum [correlate1d] computes for output coordinate (z, r, c). *)
Definition tap_at (symmetric anti_symmetric : bool) (padded : @Mat3D T) (weights : list T)
    (axis k_half ksize pads0 pads1 pads2 z r c : Z) : outcome T :=
  if axis =? 0 then
    tap_sum symmetric anti_symmetric (fun t => get3 padded (z + pads2) t (c + pads1))
      weights k_half ksize (k_half + r)
  else if axis =? 1 then
    tap_sum symmetric anti_symmetric (fun t => get3 padded (z + pads2) (r + pads0) t)
      weights k_half ksize (k_half + c)
  else
    tap_sum symmetric anti_symmetric (fun t => get3 padded t (r + pads0) (c + pads1))
      weights k_half ksize (k_half + z).

(** [a + f i + f (i+1) + ...], [n] terms, summed left to right as the
    loops do. *)
Fixpoint acc_steps (n : nat) (i : Z) (f : Z -> T) (a : T) : T :=
  match n with
  | O => a
  | Datatypes.S n' => acc_steps n' (i + 1) f (s_add a (f i))
  end.
End Shapes.

(** [|a - b| <= tol * max(|a|, |b|)] on doubles. *)
Definition rel_close (tol a b : float) : bool :=
  let m := if PrimFloat.ltb (PrimFloat.abs a) (PrimFloat.abs b)
           then PrimFloat.abs b else PrimFloat.abs a in
  PrimFloat.leb (PrimFloat.abs (PrimFloat.sub a b)) (PrimFloat.mul tol m).

(** The double nearest to 1e-9. *)
Definition tol_1e9 : float := 0x1.12e0be826d695p-30%float.

(** A second-order truncation of the exponential series: a stand-in for
    [std::exp] where an example needs a concrete function. *)
Definition exp_series2 (x : float) : float :=
  (1 + x + x * x / 2)%float.

(** ** Flat data, lines and windows *)

(** A matrix of [rows] by [cols] copies of [v]. *)
Definition flat2 {T : Type} (rows cols : Z) (v : T) : @Mat2D T :=
  repeat (repeat v (Z.to_nat cols)) (Z.to_nat rows).

(** A volume of [depth] by [rows] by [cols] copies of [v]. *)
Definition flat3 {T : Type} (depth rows cols : Z) (v : T) : @Mat3D T :=
  repeat (flat2 rows cols v) (Z.to_nat depth).

(** The entry of the pad vector of [correlate1d] for axis [a] when the
    filtered axis is [axis]. *)
Definition axis_pad (axis a k : Z) : Z := if axis =? a then k else 0.

(** The samples of [input] along [axis] through the coordinate (z, r, c). *)
Definition input_line {T : Type} `{Scalar T} (input : @Mat3D T) (axis z r c : Z)
  : Z -> outcome T :=
  fun t => if axis =? 0 then get3 input z t c
           else if axis =? 1 then get3 input z r t
           else get3 input t r c.

(** The coordinate of (z, r, c) along [axis]. *)
Definition along (axis z r c : Z) : Z :=
  if axis =? 0 then r else if axis =? 1 then c else z.

(** The extent of a [depth] by [rows] by [cols] volume along [axis]. *)
Definition extent (axis depth rows cols : Z) : Z :=
  if axis =? 0 then rows else if axis =? 1 then cols else depth.

(** The unnormalised tap of the Gaussian at offset [x] from the centre, as
    [gaussian_kernel1d] computes it. *)
Definition gauss_tap (exp : float -> float) (sigma : float) (x : Z) : float :=
  exp (-0.5 / (sigma * sigma) * int_to_double x * int_to_double x)%float.

(** ** Fixed-point doubles *)

(** [f] is the binary64 value [n * 2^q], the sign of a zero left open. *)
Definition sf_dyadic (q n : Z) (f : spec_float) : Prop :=
  match f with
  | S754_zero _ => n = 0
  | S754_finite s m e => s = (n <? 0) /\ e <= q /\ Zpos m = Z.abs n * 2 ^ (q - e)
  | _ => False
  end.

(** The double [x] is the fixed-point number [n * 2^q]. *)
Definition dyadic (q n : Z) (x : float) : Prop := sf_dyadic q n (Prim2SF x).

(** The number of binary digits of [p]. *)
Definition dig (p : positive) : Z := Zpos (digits2_pos p).

(** The integer n for which the double [x] is n * 2^q, when there is one. *)
Definition numerator (q : Z) (x : float) : Z :=
  match Prim2SF x with
  | S754_finite s m e => cond_Zopp s (Zpos m / 2 ^ (q - e))
  | _ => 0
  end.

(** [x] is a fixed-point number n * 2^q with |n| <= B: a zero, or a finite
    double whose mantissa is a multiple of 2^(q - e) with quotient at most
    B. *)
Definition fixed_point (q B : Z) (x : float) : bool :=
  match Prim2SF x with
  | S754_zero _ => 0 <=? B
  | S754_finite s m e =>
      (e <=? q) && (Zpos m mod 2 ^ (q - e) =? 0) && (Zpos m / 2 ^ (q - e) <=? B)
  | _ => false
  end.

(** [A + F i + F (i+1) + ...], [n] terms: the integer counterpart of
    [acc_steps]. *)
Fixpoint int_steps (n : nat) (i : Z) (F : Z -> Z) (A : Z) : Z :=
  match n with
  | O => A
  | Datatypes.S n' => int_steps n' (i + 1) F (A + F i)
  end.

(** * Supporting lemmas *)

(** ** Vectors and loops *)

Section VectorFacts.
Context {A : Type}.
Implicit Types (v w : list A) (i j : Z) (x : A).

Lemma vget_nth_error v i x :
  vget v i = Ok x <-> 0 <= i /\ nth_error v (Z.to_nat i) = Some x.
Proof.
  unfold vget. destruct (Z.ltb_spec i 0).
  - split; [discriminate | lia].
  - destruct (nth_error v (Z.to_nat i)) eqn:E; split; intros; try discriminate.
    + inversion H0; subst. auto.
    + destruct H0 as [_ H0]. inversion H0; subst. reflexivity.
    + destruct H0 as [_ H0]. discriminate.
Qed.

Lemma vget_bounds v i x : vget v i = Ok x -> 0 <= i < vsize v.
Proof.
  intros Hg. apply vget_nth_error in Hg as [Hi Hn].
  assert (Z.to_nat i < length v)%nat by (apply nth_error_Some; congruence).
  unfold vsize. lia.
Qed.

Lemma vget_ok v i : 0 <= i < vsize v -> exists x, vget v i = Ok x.
Proof.
  intros Hi. unfold vsize in Hi.
  destruct (nth_error v (Z.to_nat i)) eqn:E.
  - exists a. apply vget_nth_error. split; [lia | assumption].
  - apply nth_error_None in E. lia.
Qed.

Lemma vget_not_throw v i e : vget v i <> Throw e.
Proof.
  unfold vget. destruct (i <? 0); [discriminate |].
  destruct (nth_error v (Z.to_nat i)); discriminate.
Qed.

Lemma upd_length v n x : length (upd v n x) = length v.
Proof.
  revert n. induction v as [| h t IH]; intros [| n]; simpl; auto.
Qed.

Lemma vsize_upd v n x : vsize (upd v n x) = vsize v.
Proof. unfold vsize. now rewrite upd_length. Qed.

Lemma nth_error_upd_eq v n x : (n < length v)%nat -> nth_error (upd v n x) n = Some x.
Proof.
  revert n. induction v as [| h t IH]; intros [| n] Hn; simpl in *; try lia; auto.
  apply IH. lia.
Qed.

Lemma nth_error_upd_ne v n m x : n <> m -> nth_error (upd v n x) m = nth_error v m.
Proof.
  revert n m. induction v as [| h t IH]; intros [| n] [| m] Hnm; simpl; auto;
    try congruence.
Qed.

Lemma vset_ok v i x : 0 <= i < vsize v -> vset v i x = Ok (upd v (Z.to_nat i) x).
Proof.
  unfold vset, vsize. intros Hi.
  destruct (Z.leb_spec 0 i); [| lia].
  destruct (Z.ltb_spec i (Z.of_nat (length v))); [reflexivity | lia].
Qed.

Lemma vget_upd_eq v i x : 0 <= i < vsize v -> vget (upd v (Z.to_nat i) x) i = Ok x.
Proof.
  intros Hi. apply vget_nth_error. split; [lia |].
  apply nth_error_upd_eq. unfold vsize in Hi. lia.
Qed.

Lemma vget_upd_ne v i j x : 0 <= i -> i <> j -> vget (upd v (Z.to_nat i) x) j = vget v j.
Proof.
  intros Hi Hij. unfold vget. destruct (Z.ltb_spec j 0); [reflexivity |].
  rewrite nth_error_upd_ne; [reflexivity | lia].
Qed.

Lemma vget_repeat n i x : 0 <= i < n -> vget (repeat x (Z.to_nat n)) i = Ok x.
Proof.
  intros Hi. apply vget_nth_error. split; [lia |].
  rewrite nth_error_repeat; [reflexivity | lia].
Qed.

Lemma vsize_repeat n x : 0 <= n -> vsize (repeat x (Z.to_nat n)) = n.
Proof. intros Hn. unfold vsize. rewrite repeat_length. lia. Qed.

Lemma vnew_ok n x : 0 <= n -> vnew n x = Ok (repeat x (Z.to_nat n)).
Proof. intros Hn. unfold vnew. destruct (Z.ltb_spec n 0); [lia | reflexivity]. Qed.

Lemma vget_ext v w :
  vsize v = vsize w ->
  (forall i, 0 <= i < vsize v -> vget v i = vget w i) ->
  v = w.
Proof.
  intros Hlen Hget. apply nth_error_ext. intros n.
  destruct (Nat.lt_ge_cases n (length v)) as [Hn | Hn].
  - assert (Hi : 0 <= Z.of_nat n < vsize v) by (unfold vsize; lia).
    specialize (Hget _ Hi).
    destruct (vget_ok v _ Hi) as [x Hx]. rewrite Hx in Hget. symmetry in Hget.
    apply vget_nth_error in Hx as [_ Hx]. apply vget_nth_error in Hget as [_ Hget].
    rewrite Nat2Z.id in Hx, Hget. congruence.
  - assert (Hn' : (length w <= n)%nat) by (unfold vsize in Hlen; lia).
    apply nth_error_None in Hn, Hn'. congruence.
Qed.

Lemma vget_Forall (P : A -> Prop) v i x : Forall P v -> vget v i = Ok x -> P x.
Proof.
  intros HP Hg. apply vget_nth_error in Hg as [_ Hg].
  rewrite Forall_forall in HP. apply HP. eapply nth_error_In; eauto.
Qed.

Lemma Forall_upd (P : A -> Prop) v n x : Forall P v -> P x -> Forall P (upd v n x).
Proof.
  intros HP Hx. revert n. induction HP; intros [| n]; simpl; constructor; auto.
Qed.

Lemma vempty_false v : 0 < vsize v -> vempty v = false.
Proof. destruct v; unfold vsize; simpl; [lia | reflexivity]. Qed.
End VectorFacts.

Section LoopFacts.
Context {S : Type}.
Implicit Types (body : Z -> S -> outcome S) (s : S).

Lemma for_range_nil lo hi body s : hi <= lo -> for_range lo hi body s = Ok s.
Proof.
  intros Hle. unfold for_range. replace (Z.to_nat (hi - lo)) with O by lia. reflexivity.
Qed.

Lemma for_range_step lo hi body s :
  lo < hi -> for_range lo hi body s = (s' <- body lo s ;; for_range (lo + 1) hi body s').
Proof.
  intros Hlt. unfold for_range.
  replace (Z.to_nat (hi - lo)) with (Datatypes.S (Z.to_nat (hi - (lo + 1)))) by lia.
  reflexivity.
Qed.

(** Total correctness of a counted loop from an invariant. *)
Lemma for_range_inv (P : Z -> S -> Prop) lo hi body s :
  lo <= hi ->
  P lo s ->
  (forall i t, lo <= i < hi -> P i t -> exists t', body i t = Ok t' /\ P (i + 1) t') ->
  exists s', for_range lo hi body s = Ok s' /\ P hi s'.
Proof.
  intros Hle HP Hstep. unfold for_range.
  remember (Z.to_nat (hi - lo)) as n eqn:En.
  revert lo s Hle HP Hstep En.
  induction n as [| n IH]; intros lo s Hle HP Hstep En.
  - assert (lo = hi) by lia. subst. exists s. split; [reflexivity | assumption].
  - destruct (Hstep lo s) as [t' [Hb HP']]; [lia | assumption |].
    simpl. rewrite Hb. simpl.
    apply IH; try lia; auto.
    intros i t Hi. apply Hstep. lia.
Qed.

(** Two loops whose bodies agree on the index range agree. *)
Lemma for_range_ext lo hi body body' s :
  (forall i t, lo <= i < hi -> body i t = body' i t) ->
  for_range lo hi body s = for_range lo hi body' s.
Proof.
  unfold for_range. remember (Z.to_nat (hi - lo)) as n eqn:En.
  revert lo s En. induction n as [| n IH]; intros lo s En Hext; [reflexivity |].
  simpl. rewrite Hext by lia.
  destruct (body' lo s); simpl; auto.
  apply IH; [lia |]. intros i t Hi. apply Hext. lia.
Qed.

(** A loop whose iterations keep [P] and return, returns and keeps [P]. *)
Lemma for_range_total (P : S -> Prop) lo hi body s :
  P s ->
  (forall i t, lo <= i < hi -> P t -> exists t', body i t = Ok t' /\ P t') ->
  exists s', for_range lo hi body s = Ok s' /\ P s'.
Proof.
  intros HP Hstep. destruct (Z.le_gt_cases lo hi) as [Hle | Hgt].
  - apply (for_range_inv (fun _ => P) lo hi body s Hle HP). exact Hstep.
  - exists s. split; [apply for_range_nil; lia | assumption].
Qed.

(** A loop none of whose iterations throws, and one of whose iterations is
    undefined whatever the state, is undefined. *)
Lemma for_range_undefined lo hi body i0 s :
  (forall i t e, lo <= i < hi -> body i t <> Throw e) ->
  lo <= i0 < hi ->
  (forall t, body i0 t = Undefined) ->
  for_range lo hi body s = Undefined.
Proof.
  unfold for_range. remember (Z.to_nat (hi - lo)) as n eqn:En.
  revert lo s En. induction n as [| n IH]; intros lo s En Hnt Hi0 Hbad; [lia |].
  simpl. destruct (Z.eq_dec lo i0) as [-> | Hne].
  - now rewrite Hbad.
  - destruct (body lo s) as [s' | e |] eqn:Hb; simpl; auto.
    + apply IH; try lia; auto. intros i t e Hi. apply Hnt. lia.
    + exfalso. apply (Hnt lo s e); [lia | assumption].
Qed.

(** A loop none of whose iterations throws does not throw. *)
Lemma for_range_not_throw lo hi body s e :
  (forall i t e', lo <= i < hi -> body i t <> Throw e') ->
  for_range lo hi body s <> Throw e.
Proof.
  unfold for_range. remember (Z.to_nat (hi - lo)) as n eqn:En.
  revert lo s En. induction n as [| n IH]; intros lo s En Hnt; [discriminate |].
  simpl. destruct (body lo s) as [s' | e' |] eqn:Hb; simpl.
  - apply IH; [lia |]. intros i t e' Hi. apply Hnt. lia.
  - exfalso. apply (Hnt lo s e'); [lia | assumption].
  - discriminate.
Qed.
End LoopFacts.

(** Loops that fill a store cell by cell. *)
Section Fill.
Context {S K V : Type}.
Variable wf : S -> Prop.
Variable read : S -> K -> outcome V.
Variable F : K -> V.

Lemma filled_weaken (W W' : K -> Prop) s :
  (forall k, W' k -> W k) -> filled wf read F W s -> filled wf read F W' s.
Proof. intros Hsub [Hwf Hr]. split; auto. Qed.

Lemma for_fill lo hi (body : Z -> S -> outcome S) (D : Z -> K -> Prop) :
  (forall i W s, lo <= i < hi -> filled wf read F W s ->
     exists s', body i s = Ok s' /\ filled wf read F (fun k => W k \/ D i k) s') ->
  forall W s, filled wf read F W s ->
    exists s', for_range lo hi body s = Ok s' /\
               filled wf read F (fun k => W k \/ exists i, lo <= i < hi /\ D i k) s'.
Proof.
  intros Hstep W s Hs.
  destruct (Z.le_gt_cases lo hi) as [Hle | Hgt].
  - destruct (for_range_inv
                (fun i t => filled wf read F (fun k => W k \/ exists i', lo <= i' < i /\ D i' k) t)
                lo hi body s Hle) as [s' [Hrun Hs']].
    + eapply filled_weaken; [| exact Hs]. intros k [Hk | [i' [Hi' _]]]; [assumption | lia].
    + intros i t Hi Ht. destruct (Hstep i _ t Hi Ht) as [t' [Hb Ht']].
      exists t'. split; [assumption |].
      eapply filled_weaken; [| exact Ht'].
      intros k [Hk | [i' [Hi' HD]]]; [left; left; assumption |].
      destruct (Z.eq_dec i' i) as [-> | Hne]; [right; assumption |].
      left. right. exists i'. split; [lia | assumption].
    + exists s'. split; assumption.
  - exists s. split; [apply for_range_nil; lia |].
    eapply filled_weaken; [| exact Hs]. intros k [Hk | [i' [Hi' _]]]; [assumption | lia].
Qed.
End Fill.

(** ** Rectangular matrices and volumes *)

Section MatrixFacts.
Context {T : Type}.
Implicit Types (m : @Mat2D T) (vol : @Mat3D T) (x : T).

Lemma get2_ok m nr nc i j :
  rect m nr nc -> 0 <= i < nr -> 0 <= j < nc -> exists x, get2 m i j = Ok x.
Proof.
  intros [Hr Hc] Hi Hj. unfold get2.
  destruct (vget_ok m i) as [r Hrow]; [lia |]. rewrite Hrow. simpl.
  apply vget_ok. rewrite (vget_Forall _ _ _ _ Hc Hrow). assumption.
Qed.

Lemma get2_not_throw m i j e : get2 m i j <> Throw e.
Proof.
  unfold get2. destruct (vget m i) eqn:E; simpl; try discriminate.
  - apply vget_not_throw.
  - exfalso. eapply vget_not_throw; eauto.
Qed.

Lemma set2_spec m nr nc i j x :
  rect m nr nc -> 0 <= i < nr -> 0 <= j < nc ->
  exists m', set2 m i j x = Ok m' /\ rect m' nr nc /\ get2 m' i j = Ok x /\
             forall i' j', i' <> i \/ j' <> j -> get2 m' i' j' = get2 m i' j'.
Proof.
  intros [Hr Hc] Hi Hj. unfold set2.
  destruct (vget_ok m i) as [r Hrow]; [lia |].
  assert (Hlen : vsize r = nc) by exact (vget_Forall _ _ _ _ Hc Hrow).
  rewrite Hrow. simpl. rewrite vset_ok by lia. simpl. rewrite vset_ok by lia.
  eexists. split; [reflexivity |]. split; [| split].
  - split; [now rewrite vsize_upd |].
    apply Forall_upd; [assumption | now rewrite vsize_upd].
  - unfold get2. rewrite vget_upd_eq by lia. simpl. apply vget_upd_eq. lia.
  - intros i' j' Hne. unfold get2.
    destruct (Z.eq_dec i' i) as [-> | Hi'].
    + rewrite vget_upd_eq by lia. rewrite Hrow. simpl.
      apply vget_upd_ne; [lia |]. destruct Hne; congruence.
    + rewrite vget_upd_ne by (try lia; congruence). reflexivity.
Qed.

Lemma row_ext (r r' : list T) nc :
  vsize r = nc -> vsize r' = nc ->
  (forall j, 0 <= j < nc -> vget r j = vget r' j) -> r = r'.
Proof.
  intros Hr Hr' Hget. apply vget_ext; [congruence |].
  intros j Hj. apply Hget. lia.
Qed.

Lemma get2_ext m m' nr nc :
  rect m nr nc -> rect m' nr nc ->
  (forall i j, 0 <= i < nr -> 0 <= j < nc -> get2 m i j = get2 m' i j) ->
  m = m'.
Proof.
  intros [Hr Hc] [Hr' Hc'] Hget. apply vget_ext; [congruence |].
  intros i Hi.
  destruct (vget_ok m i Hi) as [r Hrow].
  destruct (vget_ok m' i) as [r' Hrow']; [lia |].
  rewrite Hrow, Hrow'. f_equal.
  apply (row_ext r r' nc).
  - exact (vget_Forall _ _ _ _ Hc Hrow).
  - exact (vget_Forall _ _ _ _ Hc' Hrow').
  - intros j Hj. specialize (Hget i j ltac:(lia) Hj).
    unfold get2 in Hget. rewrite Hrow, Hrow' in Hget. exact Hget.
Qed.

Lemma new2_ok nr nc x :
  0 <= nr -> 0 <= nc ->
  exists m, new2 nr nc x = Ok m /\ rect m nr nc /\
            forall i j, 0 <= i < nr -> 0 <= j < nc -> get2 m i j = Ok x.
Proof.
  intros Hr Hc. unfold new2. rewrite (vnew_ok nc) by assumption. simpl.
  rewrite vnew_ok by assumption. eexists. split; [reflexivity |]. split.
  - split; [now apply vsize_repeat |].
    apply Forall_forall. intros r Hin. apply repeat_spec in Hin. subst.
    now apply vsize_repeat.
  - intros i j Hi Hj. unfold get2. rewrite vget_repeat by assumption. simpl.
    now apply vget_repeat.
Qed.

Lemma get3_ok vol nd nr nc z i j :
  rect3 vol nd nr nc -> 0 <= z < nd -> 0 <= i < nr -> 0 <= j < nc ->
  exists x, get3 vol z i j = Ok x.
Proof.
  intros [Hd Hs] Hz Hi Hj. unfold get3.
  destruct (vget_ok vol z) as [s Hsl]; [lia |]. rewrite Hsl. simpl.
  eapply get2_ok; eauto. exact (vget_Forall _ _ _ _ Hs Hsl).
Qed.

Lemma set3_spec vol nd nr nc z i j x :
  rect3 vol nd nr nc -> 0 <= z < nd -> 0 <= i < nr -> 0 <= j < nc ->
  exists vol', set3 vol z i j x = Ok vol' /\ rect3 vol' nd nr nc /\
               get3 vol' z i j = Ok x /\
               forall z' i' j', z' <> z \/ i' <> i \/ j' <> j ->
                                get3 vol' z' i' j' = get3 vol z' i' j'.
Proof.
  intros [Hd Hs] Hz Hi Hj. unfold set3.
  destruct (vget_ok vol z) as [s Hsl]; [lia |].
  assert (Hrect : rect s nr nc) by exact (vget_Forall _ _ _ _ Hs Hsl).
  destruct (set2_spec s nr nc i j x Hrect Hi Hj) as [s' [Hset [Hrect' [Hsame Hother]]]].
  rewrite Hsl. simpl. rewrite Hset. simpl. rewrite vset_ok by lia.
  eexists. split; [reflexivity |]. split; [| split].
  - split; [now rewrite vsize_upd |]. now apply Forall_upd.
  - unfold get3. rewrite vget_upd_eq by lia. simpl. assumption.
  - intros z' i' j' Hne. unfold get3.
    destruct (Z.eq_dec z' z) as [-> | Hz'].
    + rewrite vget_upd_eq by lia. rewrite Hsl. simpl.
      apply Hother. destruct Hne as [Hne | Hne]; [congruence | assumption].
    + rewrite vget_upd_ne by (try lia; congruence). reflexivity.
Qed.

Lemma get3_ext vol vol' nd nr nc :
  rect3 vol nd nr nc -> rect3 vol' nd nr nc ->
  (forall z i j, 0 <= z < nd -> 0 <= i < nr -> 0 <= j < nc ->
                 get3 vol z i j = get3 vol' z i j) ->
  vol = vol'.
Proof.
  intros [Hd Hs] [Hd' Hs'] Hget. apply vget_ext; [congruence |].
  intros z Hz.
  destruct (vget_ok vol z Hz) as [s Hsl].
  destruct (vget_ok vol' z) as [s' Hsl']; [lia |].
  rewrite Hsl, Hsl'. f_equal.
  apply (get2_ext s s' nr nc).
  - exact (vget_Forall _ _ _ _ Hs Hsl).
  - exact (vget_Forall _ _ _ _ Hs' Hsl').
  - intros i j Hi Hj. specialize (Hget z i j ltac:(lia) Hi Hj).
    unfold get3 in Hget. rewrite Hsl, Hsl' in Hget. exact Hget.
Qed.

Lemma new3_ok nd nr nc x :
  0 <= nd -> 0 <= nr -> 0 <= nc ->
  exists vol, new3 nd nr nc x = Ok vol /\ rect3 vol nd nr nc.
Proof.
  intros Hd Hr Hc. unfold new3.
  destruct (new2_ok nr nc x Hr Hc) as [m [Hm [Hrect _]]].
  rewrite Hm. simpl. rewrite vnew_ok by assumption.
  eexists. split; [reflexivity |]. split; [now apply vsize_repeat |].
  apply Forall_forall. intros s Hin. apply repeat_spec in Hin. now subst.
Qed.
Lemma vsize_first_row m nr nc :
  rect m nr nc -> 0 < nr -> match m with [] => 0 | r :: _ => vsize r end = nc.
Proof.
  intros [Hr Hc] Hpos. destruct m as [| r t].
  - unfold vsize in Hr. simpl in Hr. lia.
  - now inversion Hc.
Qed.

(** The slices of a rectangular volume. *)
Lemma slice_get vol nd nr nc z :
  rect3 vol nd nr nc -> 0 <= z < nd ->
  vget vol z = Ok (nth (Z.to_nat z) vol []) /\ rect (nth (Z.to_nat z) vol []) nr nc.
Proof.
  intros [Hlen Hall] Hz.
  destruct (vget_ok vol z) as [s Hs]; [lia |].
  pose proof (vget_Forall _ _ _ _ Hall Hs) as Hrs.
  apply vget_nth_error in Hs as [_ Hs].
  rewrite (nth_error_nth _ _ _ Hs).
  split; [| assumption]. apply vget_nth_error. split; [lia | assumption].
Qed.
End MatrixFacts.

(** ** The border-index resolver *)

Lemma clamp_max_min v lo hi : lo <= hi -> clamp v lo hi = Z.max lo (Z.min v hi).
Proof.
  intros Hle. unfold clamp.
  destruct (Z.ltb_spec v lo); destruct (Z.ltb_spec hi v); lia.
Qed.

Lemma clamp_in_range v lo hi : lo <= hi -> lo <= clamp v lo hi <= hi.
Proof. intros Hle. rewrite clamp_max_min by assumption. lia. Qed.

Ltac resolver_cases :=
  unfold getMirrorIndex, clamp;
  repeat match goal with
         | |- context [?a <=? ?b] => destruct (Z.leb_spec a b)
         | |- context [?a <? ?b] => destruct (Z.ltb_spec a b)
         | |- context [?a >=? ?b] => rewrite (Z.geb_leb a b)
         | |- context [?a =? ?b] => destruct (Z.eqb_spec a b)
         end;
  try lia.

(** The single-bounce regime of each mode: where the resolved index is a
    valid source index. *)
Lemma getMirrorIndex_in_range idx size borderType :
  0 < size ->
  (borderType = 2 -> - size <= idx <= 2 * size - 1) ->
  (borderType = 3 -> - (size - 1) <= idx <= 2 * size - 2) ->
  0 <= getMirrorIndex idx size borderType < size.
Proof. intros Hsize H2 H3. resolver_cases. Qed.

Lemma getMirrorIndex_fixed idx size borderType :
  0 <= idx < size -> 1 <= borderType <= 3 -> getMirrorIndex idx size borderType = idx.
Proof. intros Hidx Hbt. resolver_cases. Qed.

Section BorderValue.
Context {T : Type}.

Lemma getBorderValue_ok (input : @Mat2D T) rows cols row col borderType cval :
  rect input rows cols ->
  0 < rows -> 0 < cols ->
  (borderType = 2 -> - rows <= row <= 2 * rows - 1) ->
  (borderType = 3 -> - (rows - 1) <= row <= 2 * rows - 2) ->
  (borderType = 2 -> - cols <= col <= 2 * cols - 1) ->
  (borderType = 3 -> - (cols - 1) <= col <= 2 * cols - 2) ->
  exists v, getBorderValue input row col rows cols borderType cval = Ok v.
Proof.
  intros Hrect Hrows Hcols Hr2 Hr3 Hc2 Hc3. unfold getBorderValue.
  destruct ((row >=? 0) && (row <? rows) && (col >=? 0) && (col <? cols)) eqn:Hin.
  - apply (get2_ok input rows cols); auto;
      repeat (apply andb_prop in Hin as [Hin ?]); lia.
  - destruct (borderType =? 0); [eexists; reflexivity |].
    apply (get2_ok input rows cols); auto; apply getMirrorIndex_in_range; auto.
Qed.
End BorderValue.

(** ** What [pad2D] stores in each cell *)

Lemma if_same {A : Type} (c : bool) (x : A) : (if c then x else x) = x.
Proof. destruct c; reflexivity. Qed.

Section Pad2DCells.
Context {T : Type} `{Scalar T}.

Variables (input : @Mat2D T) (pad_row pad_col borderType : Z) (cval : T) (rows cols : Z).
Hypothesis Hrect : rect input rows cols.
Hypothesis Hrows : 0 < rows.
Hypothesis Hcols : 0 < cols.
Hypothesis Hpr : 0 <= pad_row.
Hypothesis Hpc : 0 <= pad_col.
Hypothesis Hbr : bounce_ok borderType pad_row rows.
Hypothesis Hbc : bounce_ok borderType pad_col cols.

Let new_rows := rows + 2 * pad_row.
Let new_cols := cols + 2 * pad_col.
Let F (k : Z * Z) : T := pad2D_cell input pad_row pad_col borderType cval (fst k) (snd k).
Let read2 (m : @Mat2D T) (k : Z * Z) : outcome T := get2 m (fst k) (snd k).
Let inv := filled (fun m => rect m new_rows new_cols) read2 F.

Lemma inv_write W m a b v :
  inv W m -> 0 <= a < new_rows -> 0 <= b < new_cols -> v = F (a, b) ->
  exists m', set2 m a b v = Ok m' /\ inv (fun k => W k \/ k = (a, b)) m'.
Proof.
  intros [Hwf Hr] Ha Hb ->.
  destruct (set2_spec m new_rows new_cols a b (F (a, b)) Hwf Ha Hb)
    as [m' [Hset [Hwf' [Hsame Hother]]]].
  exists m'. split; [assumption |]. split; [assumption |].
  intros [a' b'] [HW | Heq].
  - destruct (Z.eq_dec a' a) as [-> | Hna]; [destruct (Z.eq_dec b' b) as [-> | Hnb] |].
    + exact Hsame.
    + unfold read2; simpl. rewrite Hother by auto. exact (Hr _ HW).
    + unfold read2; simpl. rewrite Hother by auto. exact (Hr _ HW).
  - inversion Heq; subst. exact Hsame.
Qed.

(** The three regions of the result. *)
Lemma cell_center i j :
  0 <= i < rows -> 0 <= j < cols ->
  get2 input i j = Ok (F (pad_row + i, pad_col + j)).
Proof.
  intros Hi Hj. destruct (get2_ok input rows cols i j Hrect Hi Hj) as [v Hv].
  rewrite Hv. f_equal. unfold F, pad2D_cell. simpl fst; simpl snd.
  rewrite (vsize_first_row input rows cols Hrect Hrows). destruct Hrect as [-> _].
  destruct (Z.ltb_spec (pad_row + i) pad_row); [lia |].
  rewrite Z.geb_leb. destruct (Z.leb_spec (pad_row + rows) (pad_row + i)); [lia |].
  destruct (Z.ltb_spec (pad_col + j) pad_col); [lia |].
  rewrite Z.geb_leb. destruct (Z.leb_spec (pad_col + cols) (pad_col + j)); [lia |].
  replace (pad_row + i - pad_row) with i by lia.
  replace (pad_col + j - pad_col) with j by lia.
  rewrite Hv. reflexivity.
Qed.

Lemma cell_top_bottom i j :
  0 <= i < pad_row -> 0 <= j < new_cols ->
  exists v,
    getBorderValue input (pad_row - i - 1 - pad_row)
      (getMirrorIndex (j - pad_col) cols borderType) rows cols borderType cval = Ok v /\
    v = F (i, j) /\ v = F (new_rows - 1 - i, j).
Proof.
  intros Hi Hj. destruct Hbr as [Hr2 Hr3], Hbc as [Hc2 Hc3]. unfold new_cols in Hj.
  assert (Hcol : 0 <= getMirrorIndex (j - pad_col) cols borderType < cols)
    by (apply getMirrorIndex_in_range; auto; intros E; specialize (Hc2 E) || specialize (Hc3 E); lia).
  destruct (getBorderValue_ok input rows cols (pad_row - i - 1 - pad_row)
              (getMirrorIndex (j - pad_col) cols borderType) borderType cval)
    as [v Hv]; auto; try (intros E; try specialize (Hr2 E); try specialize (Hr3 E); lia).
  exists v. split; [assumption |].
  replace (pad_row - i - 1 - pad_row) with (- i - 1) in Hv by lia.
  unfold F, pad2D_cell. simpl fst; simpl snd.
  rewrite (vsize_first_row input rows cols Hrect Hrows). destruct Hrect as [Hlen _]. rewrite Hlen.
  split.
  - destruct (Z.ltb_spec i pad_row); [| lia]. now rewrite Hv.
  - fold new_rows.
    destruct (Z.ltb_spec (new_rows - 1 - i) pad_row); [unfold new_rows in *; lia |].
    rewrite Z.geb_leb.
    destruct (Z.leb_spec (pad_row + rows) (new_rows - 1 - i)); [| unfold new_rows in *; lia].
    replace (new_rows - 1 - (new_rows - 1 - i)) with i by lia.
    now rewrite Hv.
Qed.

Lemma cell_left_right i j :
  pad_row <= i < new_rows - pad_row -> 0 <= j < pad_col ->
  exists v,
    getBorderValue input (i - pad_row) (pad_col - j - 1 - pad_col)
      rows cols borderType cval = Ok v /\
    v = F (i, j) /\ v = F (i, new_cols - 1 - j).
Proof.
  intros Hi Hj. destruct Hbr as [Hr2 Hr3], Hbc as [Hc2 Hc3]. unfold new_rows in Hi.
  destruct (getBorderValue_ok input rows cols (i - pad_row) (pad_col - j - 1 - pad_col)
              borderType cval)
    as [v Hv]; auto; try (intros E; try specialize (Hc2 E); try specialize (Hc3 E); lia).
  exists v. split; [assumption |].
  replace (pad_col - j - 1 - pad_col) with (- j - 1) in Hv by lia.
  unfold F, pad2D_cell. simpl fst; simpl snd.
  rewrite (vsize_first_row input rows cols Hrect Hrows). destruct Hrect as [Hlen _]. rewrite Hlen.
  destruct (Z.ltb_spec i pad_row); [lia |].
  rewrite !Z.geb_leb. destruct (Z.leb_spec (pad_row + rows) i); [lia |].
  split.
  - destruct (Z.ltb_spec j pad_col); [| lia]. now rewrite Hv.
  - fold new_cols.
    destruct (Z.ltb_spec (new_cols - 1 - j) pad_col); [unfold new_cols in *; lia |].
    destruct (Z.leb_spec (pad_col + cols) (new_cols - 1 - j)); [| unfold new_cols in *; lia].
    replace (new_cols - 1 - (new_cols - 1 - j)) with j by lia.
    now rewrite Hv.
Qed.
Lemma inv_write2 W m a b a' b' v :
  inv W m -> 0 <= a < new_rows -> 0 <= b < new_cols ->
  0 <= a' < new_rows -> 0 <= b' < new_cols ->
  v = F (a, b) -> v = F (a', b') ->
  exists m', (result <- set2 m a b v ;; set2 result a' b' v) = Ok m' /\
             inv (fun k => W k \/ (k = (a, b) \/ k = (a', b'))) m'.
Proof.
  intros Hinv Ha Hb Ha' Hb' Hv Hv'.
  destruct (inv_write W m a b v Hinv Ha Hb Hv) as [m1 [Hset1 Hinv1]].
  destruct (inv_write _ m1 a' b' v Hinv1 Ha' Hb' Hv') as [m2 [Hset2 Hinv2]].
  exists m2. rewrite Hset1. simpl. split; [assumption |].
  eapply filled_weaken; [| exact Hinv2]. simpl. tauto.
Qed.

(** [pad2D] returns, and every cell of its result is [pad2D_cell]. *)
Lemma pad2D_spec :
  exists R, pad2D input pad_row pad_col borderType cval = Ok R /\
            rect R new_rows new_cols /\
            forall a b, 0 <= a < new_rows -> 0 <= b < new_cols ->
              get2 R a b = Ok (pad2D_cell input pad_row pad_col borderType cval a b).
Proof.
  assert (Hlen : vsize input = rows) by apply Hrect.
  unfold pad2D. rewrite vempty_false by lia.
  destruct (vget_ok input 0) as [row0 Hrow0]; [lia |].
  assert (Hlen0 : vsize row0 = cols).
  { destruct Hrect as [_ Hc]. exact (vget_Forall _ _ _ _ Hc Hrow0). }
  rewrite Hrow0. cbn [bind]. cbv zeta. rewrite Hlen, Hlen0.
  fold new_rows new_cols.
  destruct (new2_ok new_rows new_cols s_zero) as [R0 [HR0 [Hrect0 _]]];
    [unfold new_rows; lia | unfold new_cols; lia |].
  rewrite HR0. cbn [bind].
  assert (Hinv0 : inv (fun _ => False) R0) by (split; [assumption | tauto]).
  (* the central block *)
  match goal with
  | |- context [for_range 0 rows ?body R0] =>
      destruct (for_fill (fun m => rect m new_rows new_cols) read2 F 0 rows body
                  (fun i k => exists j, 0 <= j < cols /\ k = (pad_row + i, pad_col + j)))
        with (W := fun _ : Z * Z => False) (s := R0) as [R1 [Hrun1 Hinv1]]
  end; [| exact Hinv0 |].
  { intros i W m Hi Hm.
    apply (for_fill (fun m => rect m new_rows new_cols) read2 F 0 cols _
             (fun j k => k = (pad_row + i, pad_col + j))); [| exact Hm].
    intros j W' m' Hj Hm'. rewrite (cell_center i j Hi Hj). cbn [bind].
    apply inv_write; auto; unfold new_rows, new_cols; lia. }
  rewrite Hrun1. cbn [bind].
  (* top and bottom borders *)
  match goal with
  | |- context [for_range 0 pad_row ?body R1] =>
      destruct (for_fill (fun m => rect m new_rows new_cols) read2 F 0 pad_row body
                  (fun i k => exists j, 0 <= j < new_cols /\
                                        (k = (i, j) \/ k = (new_rows - 1 - i, j))))
        with (2 := Hinv1) as [R2 [Hrun2 Hinv2]]
  end.
  { intros i W m Hi Hm.
    apply (for_fill (fun m => rect m new_rows new_cols) read2 F 0 new_cols _
             (fun j k => k = (i, j) \/ k = (new_rows - 1 - i, j))); [| exact Hm].
    intros j W' m' Hj Hm'.
    destruct (cell_top_bottom i j Hi Hj) as [v [Hv [HF1 HF2]]].
    rewrite if_same. rewrite Hv. cbn [bind].
    apply inv_write2; auto; unfold new_rows, new_cols in *; lia. }
  rewrite Hrun2. cbn [bind].
  (* left and right borders *)
  match goal with
  | |- context [for_range pad_row (new_rows - pad_row) ?body R2] =>
      destruct (for_fill (fun m => rect m new_rows new_cols) read2 F
                  pad_row (new_rows - pad_row) body
                  (fun i k => exists j, 0 <= j < pad_col /\
                                        (k = (i, j) \/ k = (i, new_cols - 1 - j))))
        with (2 := Hinv2) as [R3 [Hrun3 Hinv3]]
  end.
  { intros i W m Hi Hm.
    apply (for_fill (fun m => rect m new_rows new_cols) read2 F 0 pad_col _
             (fun j k => k = (i, j) \/ k = (i, new_cols - 1 - j))); [| exact Hm].
    intros j W' m' Hj Hm'.
    destruct (cell_left_right i j Hi Hj) as [v [Hv [HF1 HF2]]].
    rewrite Hv. cbn [bind].
    apply inv_write2; auto; unfold new_rows, new_cols in *; lia. }
  rewrite Hrun3. cbn [bind].
  exists R3. split; [reflexivity |]. destruct Hinv3 as [Hrect3 Hcells].
  split; [assumption |].
  intros a b Ha Hb. apply (Hcells (a, b)).
  destruct (Z.lt_ge_cases a pad_row) as [Htop | Hntop].
  { left. right. exists a. split; [lia |]. exists b. split; [lia |]. now left. }
  destruct (Z.le_gt_cases (pad_row + rows) a) as [Hbot | Hnbot].
  { left. right. exists (new_rows - 1 - a). split; [unfold new_rows in *; lia |].
    exists b. split; [lia |]. right. f_equal. lia. }
  destruct (Z.lt_ge_cases b pad_col) as [Hleft | Hnleft].
  { right. exists a. split; [unfold new_rows; lia |]. exists b. split; [lia |]. now left. }
  destruct (Z.le_gt_cases (pad_col + cols) b) as [Hright | Hnright].
  { right. exists a. split; [unfold new_rows; lia |].
    exists (new_cols - 1 - b). split; [unfold new_cols in *; lia |]. right. f_equal. lia. }
  left. left. right. exists (a - pad_row). split; [lia |].
  exists (b - pad_col). split; [lia |]. f_equal; lia.
Qed.
End Pad2DCells.

(** ** Outside the single-bounce regime *)

Section OutOfRegime.
Context {T : Type} `{Scalar T}.

Lemma vset_not_throw {A : Type} (v : list A) i x e : vset v i x <> Throw e.
Proof. unfold vset. destruct ((0 <=? i) && (i <? Z.of_nat (length v))); discriminate. Qed.

Lemma set2_not_throw (m : @Mat2D T) i j x e : set2 m i j x <> Throw e.
Proof.
  unfold set2. destruct (vget m i) as [r | e' |] eqn:Hr; simpl; try discriminate.
  - destruct (vset r j x) as [r' | e' |] eqn:Hs; simpl; try discriminate.
    + apply vset_not_throw.
    + exfalso. eapply vset_not_throw; eauto.
  - exfalso. eapply vget_not_throw; eauto.
Qed.

Lemma getBorderValue_not_throw (input : @Mat2D T) row col rows cols borderType cval e :
  getBorderValue input row col rows cols borderType cval <> Throw e.
Proof.
  unfold getBorderValue.
  destruct ((row >=? 0) && (row <? rows) && (col >=? 0) && (col <? cols));
    [apply get2_not_throw |].
  destruct (borderType =? 0); [discriminate | apply get2_not_throw].
Qed.

(** The two writes of a border value never throw. *)
Lemma border_writes_not_throw (o : outcome T) (m : @Mat2D T) a b a' b' e :
  (forall e', o <> Throw e') ->
  (val <- o ;; result <- set2 m a b val ;; set2 result a' b' val) <> Throw e.
Proof.
  intros Ho. destruct o as [v | e' |]; simpl; try discriminate.
  - destruct (set2 m a b v) as [m' | e' |] eqn:Hs; simpl; try discriminate.
    + apply set2_not_throw.
    + exfalso. eapply set2_not_throw; eauto.
  - exfalso. eapply Ho; eauto.
Qed.

Lemma center_loop_total (input R0 : @Mat2D T) rows cols pad_row pad_col nr nc :
  rect input rows cols -> rect R0 nr nc ->
  0 <= pad_row -> 0 <= pad_col -> pad_row + rows <= nr -> pad_col + cols <= nc ->
  exists R1,
    for_range 0 rows (fun i result =>
      for_range 0 cols (fun j result =>
        v <- get2 input i j ;;
        set2 result (pad_row + i) (pad_col + j) v) result) R0 = Ok R1 /\
    rect R1 nr nc.
Proof.
  intros Hin HR0 Hpr Hpc Hfr Hfc.
  apply (for_range_total (fun m : @Mat2D T => rect m nr nc)); auto.
  intros i m Hi Hm.
  apply (for_range_total (fun m : @Mat2D T => rect m nr nc)); auto.
  intros j m' Hj Hm'.
  destruct (get2_ok input rows cols i j Hin Hi Hj) as [v ->]. cbn [bind].
  destruct (set2_spec m' nr nc (pad_row + i) (pad_col + j) v Hm') as [m'' [-> [Hm'' _]]];
    try lia.
  eauto.
Qed.

Variables (input : @Mat2D T) (pad_row pad_col borderType : Z) (cval : T) (rows cols : Z).
Hypothesis Hrect : rect input rows cols.
Hypothesis Hrows : 0 < rows.
Hypothesis Hcols : 0 < cols.
Hypothesis Hpr : 0 <= pad_row.
Hypothesis Hpc : 0 <= pad_col.

(** A row too far out resolves to a row index past the input. *)
Lemma getBorderValue_row_escapes row col :
  row < 0 ->
  (borderType = 2 /\ rows < - row) \/ (borderType = 3 /\ rows <= - row) ->
  getBorderValue input row col rows cols borderType cval = Undefined.
Proof.
  intros Hneg Hesc. unfold getBorderValue.
  destruct (Z.geb_spec row 0); [lia |]. cbn [andb].
  assert (Hr : rows <= getMirrorIndex row rows borderType)
    by (destruct Hesc as [[E He] | [E He]]; rewrite E; resolver_cases).
  assert (Hbt : (borderType =? 0) = false)
    by (destruct Hesc as [[E _] | [E _]]; rewrite E; reflexivity).
  rewrite Hbt. unfold get2, vget.
  destruct (Z.ltb_spec (getMirrorIndex row rows borderType) 0); [reflexivity |].
  match goal with
  | |- context [nth_error input ?n] =>
      assert (Hnone : nth_error input n = None)
        by (apply nth_error_None; destruct Hrect as [Hlen _]; unfold vsize in Hlen; lia);
      rewrite Hnone
  end. reflexivity.
Qed.

(** A column too far out resolves to a column index past the row. *)
Lemma getBorderValue_col_escapes row col :
  0 <= row < rows -> col < 0 ->
  (borderType = 2 /\ cols < - col) \/ (borderType = 3 /\ cols <= - col) ->
  getBorderValue input row col rows cols borderType cval = Undefined.
Proof.
  intros Hrow Hneg Hesc. unfold getBorderValue.
  destruct (Z.geb_spec row 0); [| lia]. destruct (Z.ltb_spec row rows); [| lia].
  destruct (Z.geb_spec col 0); [lia |]. cbn [andb].
  assert (Hc : cols <= getMirrorIndex col cols borderType)
    by (destruct Hesc as [[E He] | [E He]]; rewrite E; resolver_cases).
  assert (Hr : getMirrorIndex row rows borderType = row)
    by (apply getMirrorIndex_fixed; [lia | destruct Hesc as [[E _] | [E _]]; lia]).
  rewrite Hr.
  assert (Hbt : (borderType =? 0) = false)
    by (destruct Hesc as [[E _] | [E _]]; rewrite E; reflexivity).
  rewrite Hbt. unfold get2.
  destruct (vget_ok input row) as [r Hget]; [destruct Hrect as [-> _]; lia |].
  rewrite Hget. cbn [bind].
  assert (Hlen : vsize r = cols) by exact (vget_Forall _ _ _ _ (proj2 Hrect) Hget).
  unfold vget. destruct (Z.ltb_spec (getMirrorIndex col cols borderType) 0); [reflexivity |].
  match goal with
  | |- context [nth_error r ?n] =>
      assert (Hnone : nth_error r n = None)
        by (apply nth_error_None; unfold vsize in Hlen; lia);
      rewrite Hnone
  end. reflexivity.
Qed.

(** Outside the regime [pad2D] reads out of bounds. *)
Lemma pad2D_undefined :
  ~ (bounce_ok borderType pad_row rows /\ bounce_ok borderType pad_col cols) ->
  pad2D input pad_row pad_col borderType cval = Undefined.
Proof.
  intros Hout.
  assert (Hcases : ((borderType = 2 /\ rows < pad_row) \/ (borderType = 3 /\ rows <= pad_row)) \/
                   ((borderType = 2 /\ cols < pad_col) \/ (borderType = 3 /\ cols <= pad_col))).
  { unfold bounce_ok in Hout. lia. }
  assert (Hlen : vsize input = rows) by apply Hrect.
  unfold pad2D. rewrite vempty_false by lia.
  destruct (vget_ok input 0) as [row0 Hrow0]; [lia |].
  assert (Hlen0 : vsize row0 = cols) by exact (vget_Forall _ _ _ _ (proj2 Hrect) Hrow0).
  rewrite Hrow0. cbn [bind]. cbv zeta. rewrite Hlen, Hlen0.
  destruct (new2_ok (rows + 2 * pad_row) (cols + 2 * pad_col) s_zero)
    as [R0 [HR0 [Hrect0 _]]]; try lia.
  rewrite HR0. cbn [bind].
  destruct (center_loop_total input R0 rows cols pad_row pad_col
              (rows + 2 * pad_row) (cols + 2 * pad_col)) as [R1 [Hrun1 _]]; auto; try lia.
  rewrite Hrun1. cbn [bind].
  destruct Hcases as [Hrow | Hcol].
  - (* the top border *)
    rewrite (for_range_undefined 0 pad_row _ (pad_row - 1)); [reflexivity | | lia |].
    + intros i m e Hi. apply for_range_not_throw. intros j m' e' Hj.
      rewrite if_same. apply border_writes_not_throw.
      intros e''. apply getBorderValue_not_throw.
    + intros m. rewrite for_range_step by lia. rewrite if_same.
      rewrite getBorderValue_row_escapes; [reflexivity | lia |].
      destruct Hrow as [[E He] | [E He]]; [left | right]; split; auto; lia.
  - (* the left border *)
    match goal with
    | |- context [for_range 0 pad_row ?body R1] =>
        destruct (for_range 0 pad_row body R1) as [R2 | e |] eqn:Hrun2
    end; cbn [bind]; auto.
    2: { exfalso. revert Hrun2. apply for_range_not_throw. intros i m e' Hi.
         apply for_range_not_throw. intros j m' e'' Hj.
         rewrite if_same. apply border_writes_not_throw.
         intros e3. apply getBorderValue_not_throw. }
    rewrite (for_range_undefined pad_row (rows + 2 * pad_row - pad_row) _ pad_row);
      [reflexivity | | lia |].
    + intros i m e Hi. apply for_range_not_throw. intros j m' e' Hj.
      apply border_writes_not_throw. intros e''. apply getBorderValue_not_throw.
    + intros m. apply (for_range_undefined 0 pad_col _ (pad_col - 1)); [| lia |].
      * intros j m' e Hj. apply border_writes_not_throw.
        intros e'. apply getBorderValue_not_throw.
      * intros m'. rewrite getBorderValue_col_escapes; [reflexivity | lia | lia |].
        destruct Hcol as [[E He] | [E He]]; [left | right]; split; auto; lia.
Qed.
End OutOfRegime.

(** ** What [pad3D] stores in each cell *)

(** Reading the pad amounts off a pad vector of at least two entries. *)
Lemma pads_read (pad_row pad_col : Z) (more : list Z) :
  (vsize (pad_row :: pad_col :: more) <? 2) = false /\
  vget (pad_row :: pad_col :: more) 0 = Ok pad_row /\
  vget (pad_row :: pad_col :: more) 1 = Ok pad_col /\
  (if vsize (pad_row :: pad_col :: more) >? 2
   then vget (pad_row :: pad_col :: more) 2 else Ok 0)
  = Ok (pad_depth_of (pad_row :: pad_col :: more)).
Proof.
  destruct more as [| pd rest].
  - repeat split; reflexivity.
  - repeat split; try reflexivity.
    + unfold vsize. simpl length. apply Z.ltb_ge. lia.
    + unfold vsize. simpl length. rewrite Z.gtb_ltb.
      destruct (Z.ltb_spec 2 (Z.of_nat (Datatypes.S (Datatypes.S (Datatypes.S (length rest))))));
        [reflexivity | lia].
Qed.

Section Pad3DCells.
Context {T : Type} `{Scalar T}.

Variables (input : @Mat3D T) (pads : list Z) (borderType : Z) (cval : T).
Variables (depth rows cols pad_row pad_col : Z) (more : list Z).
Hypothesis Hrect : rect3 input depth rows cols.
Hypothesis Hdepth : 0 < depth.
Hypothesis Hrows : 0 < rows.
Hypothesis Hcols : 0 < cols.
Hypothesis Hpads : pads = pad_row :: pad_col :: more.
Hypothesis Hpr : 0 <= pad_row.
Hypothesis Hpc : 0 <= pad_col.
Hypothesis Hpd : 0 <= pad_depth_of pads.
Hypothesis Hbr : bounce_ok borderType pad_row rows.
Hypothesis Hbc : bounce_ok borderType pad_col cols.

Let pad_depth := pad_depth_of pads.
Let new_depth := depth + 2 * pad_depth.
Let new_rows := rows + 2 * pad_row.
Let new_cols := cols + 2 * pad_col.
Let slice (z : Z) : @Mat2D T := nth (Z.to_nat z) input [].
Let padded_slice (z : Z) : @Mat2D T :=
  force [] (pad2D (slice z) pad_row pad_col borderType cval).
Let F (k : Z * Z * Z) : T :=
  pad3D_cell input pad_row pad_col pad_depth borderType cval
    (fst (fst k)) (snd (fst k)) (snd k).
Let read3 (vol : @Mat3D T) (k : Z * Z * Z) : outcome T :=
  get3 vol (fst (fst k)) (snd (fst k)) (snd k).
Let inv := filled (fun vol => rect3 vol new_depth new_rows new_cols) read3 F.

Lemma padded_slice_spec z :
  0 <= z < depth ->
  pad2D (slice z) pad_row pad_col borderType cval = Ok (padded_slice z) /\
  rect (padded_slice z) new_rows new_cols /\
  forall a b, 0 <= a < new_rows -> 0 <= b < new_cols ->
    get2 (padded_slice z) a b =
    Ok (pad2D_cell (slice z) pad_row pad_col borderType cval a b).
Proof.
  intros Hz. destruct (slice_get input depth rows cols z Hrect Hz) as [_ Hrs].
  destruct (pad2D_spec (slice z) pad_row pad_col borderType cval rows cols)
    as [R [HR [HrectR Hcells]]]; auto.
  unfold padded_slice. rewrite HR. simpl. auto.
Qed.

Lemma inv_write3 W vol z a b v :
  inv W vol -> 0 <= z < new_depth -> 0 <= a < new_rows -> 0 <= b < new_cols ->
  v = F (z, a, b) ->
  exists vol', set3 vol z a b v = Ok vol' /\ inv (fun k => W k \/ k = (z, a, b)) vol'.
Proof.
  intros [Hwf Hr] Hz Ha Hb ->.
  destruct (set3_spec vol new_depth new_rows new_cols z a b (F (z, a, b)) Hwf Hz Ha Hb)
    as [vol' [Hset [Hwf' [Hsame Hother]]]].
  exists vol'. split; [assumption |]. split; [assumption |].
  intros [[z' a'] b'] [HW | Heq].
  - destruct (Z.eq_dec z' z) as [-> | Hnz];
      [destruct (Z.eq_dec a' a) as [-> | Hna];
       [destruct (Z.eq_dec b' b) as [-> | Hnb] |] |];
      try exact Hsame;
      unfold read3; simpl; rewrite Hother by auto; exact (Hr _ HW).
  - inversion Heq; subst. exact Hsame.
Qed.

(** Storing a whole slice whose cells are final. *)
Lemma inv_write_slice W vol z p :
  inv W vol -> 0 <= z < new_depth -> rect p new_rows new_cols ->
  (forall a b, 0 <= a < new_rows -> 0 <= b < new_cols -> get2 p a b = Ok (F (z, a, b))) ->
  exists vol', vset vol z p = Ok vol' /\
               inv (fun k => W k \/
                             (fst (fst k) = z /\ 0 <= snd (fst k) < new_rows /\
                              0 <= snd k < new_cols)) vol'.
Proof.
  intros [[Hlen Hall] Hr] Hz Hp Hcells.
  rewrite vset_ok by lia. eexists. split; [reflexivity |]. split.
  - split; [now rewrite vsize_upd | now apply Forall_upd].
  - assert (Hnew : forall a b, 0 <= a < new_rows -> 0 <= b < new_cols ->
                     read3 (upd vol (Z.to_nat z) p) (z, a, b) = Ok (F (z, a, b))).
    { intros a b Ha Hb. unfold read3, get3. simpl.
      rewrite vget_upd_eq by lia. simpl. now apply Hcells. }
    intros [[z' a'] b'] [HW | [Hz' [Ha' Hb']]]; simpl in *.
    + specialize (Hr _ HW). unfold read3, get3 in *. simpl in *.
      destruct (Z.eq_dec z' z) as [-> | Hnz].
      * destruct (vget_ok vol z) as [s Hs]; [lia |].
        pose proof (vget_Forall _ _ _ _ Hall Hs) as [Hsr Hsc].
        rewrite Hs in Hr. simpl in Hr. unfold get2 in Hr.
        destruct (vget s a') as [r | |] eqn:Hrow; simpl in Hr; try discriminate.
        pose proof (vget_bounds _ _ _ Hrow) as Ha'.
        pose proof (vget_bounds _ _ _ Hr) as Hb'.
        rewrite (vget_Forall _ _ _ _ Hsc Hrow) in Hb'.
        apply (Hnew a' b'); lia.
      * rewrite vget_upd_ne by (try lia; congruence). exact Hr.
    + subst z'. now apply Hnew.
Qed.
Lemma F_center z a b :
  0 <= z < depth ->
  F (pad_depth + z, a, b) = pad2D_cell (slice z) pad_row pad_col borderType cval a b.
Proof.
  intros Hz. unfold F, pad3D_cell. simpl fst; simpl snd.
  destruct Hrect as [-> _].
  destruct (Z.leb_spec pad_depth (pad_depth + z)); [| lia].
  destruct (Z.ltb_spec (pad_depth + z) (pad_depth + depth)); [| lia].
  simpl. unfold slice. now replace (pad_depth + z - pad_depth) with z by lia.
Qed.

Lemma F_border z a b :
  0 <= z < pad_depth \/ pad_depth + depth <= z ->
  F (z, a, b) =
  if borderType =? 0 then cval
  else pad2D_cell
         (slice (clamp (getMirrorIndex (z - pad_depth) depth borderType) 0 (depth - 1)))
         pad_row pad_col borderType cval a b.
Proof.
  intros Hz. unfold F, pad3D_cell. simpl fst; simpl snd.
  destruct Hrect as [-> _].
  destruct (Z.leb_spec pad_depth z); destruct (Z.ltb_spec z (pad_depth + depth));
    simpl; try reflexivity; lia.
Qed.

Lemma fill_depth_slice_spec (sliced_padded : list (@Mat2D T)) dst_z src_z W vol :
  (forall z, 0 <= z < depth -> vget sliced_padded z = Ok (padded_slice z)) ->
  inv W vol ->
  0 <= dst_z < pad_depth \/ pad_depth + depth <= dst_z < new_depth ->
  src_z = clamp (getMirrorIndex (dst_z - pad_depth) depth borderType) 0 (depth - 1) ->
  exists vol',
    fill_depth_slice sliced_padded borderType cval new_rows new_cols dst_z src_z vol = Ok vol' /\
    inv (fun k => W k \/ exists i, 0 <= i < new_rows /\
                                   exists j, 0 <= j < new_cols /\ k = (dst_z, i, j)) vol'.
Proof.
  intros Hsp Hvol Hdst Hsrc. unfold fill_depth_slice.
  assert (Hsrc_range : 0 <= src_z < depth).
  { subst src_z.
    pose proof (clamp_in_range (getMirrorIndex (dst_z - pad_depth) depth borderType)
                  0 (depth - 1)). lia. }
  apply (for_fill (fun vol => rect3 vol new_depth new_rows new_cols) read3 F 0 new_rows _
           (fun i k => exists j, 0 <= j < new_cols /\ k = (dst_z, i, j))); [| exact Hvol].
  intros i W1 vol1 Hi Hvol1.
  apply (for_fill (fun vol => rect3 vol new_depth new_rows new_cols) read3 F 0 new_cols _
           (fun j k => k = (dst_z, i, j))); [| exact Hvol1].
  intros j W2 vol2 Hj Hvol2.
  assert (HF : F (dst_z, i, j) =
               if borderType =? 0 then cval
               else pad2D_cell (slice src_z) pad_row pad_col borderType cval i j).
  { rewrite F_border by (unfold new_depth in *; lia). now rewrite <- Hsrc. }
  destruct (borderType =? 0).
  - apply inv_write3; auto. unfold new_depth in *; lia.
  - unfold get3. rewrite (Hsp src_z Hsrc_range). cbn [bind].
    destruct (padded_slice_spec src_z Hsrc_range) as [_ [_ Hcells]].
    rewrite Hcells by assumption. cbn [bind].
    apply inv_write3; auto. unfold new_depth in *; lia.
Qed.

(** [pad3D] returns, and every cell of its result is [pad3D_cell]. *)
Lemma pad3D_spec :
  exists P, pad3D input pads borderType cval = Ok P /\
            rect3 P new_depth new_rows new_cols /\
            forall z a b,
              0 <= z < new_depth -> 0 <= a < new_rows -> 0 <= b < new_cols ->
              get3 P z a b =
              Ok (pad3D_cell input pad_row pad_col pad_depth borderType cval z a b).
Proof.
  assert (Hlen : vsize input = depth) by apply Hrect.
  pose proof (pads_read pad_row pad_col more) as Hread. rewrite <- Hpads in Hread.
  fold pad_depth in Hread. destruct Hread as [Hp2 [Hp0 [Hp1 Hpdr]]].
  unfold pad3D. rewrite vempty_false by lia.
  rewrite Hp2, Hp0. cbn [bind]. rewrite Hp1. cbn [bind]. rewrite Hpdr. cbn [bind].
  cbv zeta. rewrite Hlen. rewrite vnew_ok by lia. cbn [bind].
  (* every slice padded on its own *)
  match goal with
  | |- context [for_range 0 depth ?body (repeat [] (Z.to_nat depth))] =>
      destruct (for_fill (fun sp : list (@Mat2D T) => vsize sp = depth)
                  (fun sp z => vget sp z) padded_slice 0 depth body (fun i k => k = i))
        with (W := fun _ : Z => False) (s := repeat ([] : @Mat2D T) (Z.to_nat depth))
        as [SP [HrunSP [HlenSP HSP]]]
  end.
  { intros z W sp Hz [Hwf Hr].
    destruct (slice_get input depth rows cols z Hrect Hz) as [Hs _]. fold (slice z) in Hs.
      rewrite Hs. cbn [bind].
    destruct (padded_slice_spec z Hz) as [Hp _]. rewrite Hp. cbn [bind].
    rewrite vset_ok by lia. eexists. split; [reflexivity |].
    split; [now rewrite vsize_upd |].
    intros k [HW | ->].
    - destruct (Z.eq_dec k z) as [-> | Hne].
      + apply vget_upd_eq. lia.
      + rewrite vget_upd_ne by (try lia; congruence). auto.
    - apply vget_upd_eq. lia. }
  { split; [apply vsize_repeat; lia | tauto]. }
  rewrite HrunSP. cbn [bind].
  assert (HSPz : forall z, 0 <= z < depth -> vget SP z = Ok (padded_slice z)).
  { intros z Hz. apply HSP. right. exists z. split; auto. }
  rewrite (HSPz 0) by lia. cbn [bind].
  destruct (padded_slice_spec 0) as [_ [[Hnr Hnc] _]]; [lia |].
  destruct (vget_ok (padded_slice 0) 0) as [sp00 Hsp00]; [rewrite Hnr; unfold new_rows; lia |].
  rewrite Hsp00. cbn [bind]. rewrite Hnr. rewrite (vget_Forall _ _ _ _ Hnc Hsp00).
  fold new_depth.
  destruct (new3_ok new_depth new_rows new_cols s_zero) as [R0 [HR0 Hrect0]];
    [unfold new_depth, pad_depth; lia | unfold new_rows; lia | unfold new_cols; lia |].
  rewrite HR0. cbn [bind].
  assert (Hinv0 : inv (fun _ => False) R0) by (split; [assumption | tauto]).
  (* the source depth range *)
  match goal with
  | |- context [for_range 0 depth ?body R0] =>
      destruct (@for_fill (list (@Mat2D T)) _ _
                  (fun vol => rect3 vol new_depth new_rows new_cols) read3 F
                  0 depth body
                  (fun i k => fst (fst k) = pad_depth + i /\
                              0 <= snd (fst k) < new_rows /\ 0 <= snd k < new_cols))
        with (2 := Hinv0) as [R1 [Hrun1 Hinv1]]
  end.
  { intros z W vol Hz Hvol. rewrite (HSPz z Hz). cbn [bind].
    destruct (padded_slice_spec z Hz) as [_ [Hrp Hcells]].
    apply inv_write_slice; auto; [unfold new_depth, pad_depth in *; lia |].
    intros a b Ha Hb. rewrite F_center by assumption. now apply Hcells. }
  rewrite Hrun1. cbn [bind].
  (* the front depth border *)
  match goal with
  | |- context [for_range 0 pad_depth ?body R1] =>
      destruct (for_fill (fun vol => rect3 vol new_depth new_rows new_cols) read3 F
                  0 pad_depth body
                  (fun z k => exists i, 0 <= i < new_rows /\
                                exists j, 0 <= j < new_cols /\ k = (z, i, j)))
        with (2 := Hinv1) as [R2 [Hrun2 Hinv2]]
  end.
  { intros z W vol Hz Hvol.
    apply fill_depth_slice_spec; auto. }
  rewrite Hrun2. cbn [bind].
  (* the back depth border *)
  match goal with
  | |- context [for_range 0 pad_depth ?body R2] =>
      destruct (for_fill (fun vol => rect3 vol new_depth new_rows new_cols) read3 F
                  0 pad_depth body
                  (fun z k => exists i, 0 <= i < new_rows /\
                                exists j, 0 <= j < new_cols /\
                                  k = (pad_depth + depth + z, i, j)))
        with (2 := Hinv2) as [R3 [Hrun3 Hinv3]]
  end.
  { intros z W vol Hz Hvol.
    apply fill_depth_slice_spec; auto; [unfold new_depth; lia |].
    now replace (pad_depth + depth + z - pad_depth) with (depth + z) by lia. }
  rewrite Hrun3. cbn [bind].
  exists R3. split; [reflexivity |]. destruct Hinv3 as [Hrect3 Hcells].
  split; [assumption |].
  intros z a b Hz Ha Hb. apply (Hcells (z, a, b)).
  destruct (Z.lt_ge_cases z pad_depth) as [Hfront | Hnfront].
  { left. right. exists z. split; [lia |]. exists a. split; [lia |]. exists b. auto. }
  destruct (Z.le_gt_cases (pad_depth + depth) z) as [Hback | Hnback].
  { right. exists (z - pad_depth - depth). split; [unfold new_depth in *; lia |].
    exists a. split; [lia |]. exists b. split; [lia |]. f_equal. f_equal. lia. }
  left. left. right. exists (z - pad_depth). split; [lia |]. simpl. lia.
Qed.
End Pad3DCells.

(** Outside the regime [pad3D] reads out of bounds while padding its first
    slice. *)
Lemma pad3D_undefined {T : Type} `{Scalar T} (input : @Mat3D T) (borderType : Z) (cval : T)
    (depth rows cols pad_row pad_col : Z) (more : list Z) :
  rect3 input depth rows cols -> 0 < depth -> 0 < rows -> 0 < cols ->
  0 <= pad_row -> 0 <= pad_col ->
  ~ (bounce_ok borderType pad_row rows /\ bounce_ok borderType pad_col cols) ->
  pad3D input (pad_row :: pad_col :: more) borderType cval = Undefined.
Proof.
  intros Hrect Hd Hr Hc Hpr Hpc Hout.
  assert (Hlen : vsize input = depth) by apply Hrect.
  destruct (pads_read pad_row pad_col more) as [Hp2 [Hp0 [Hp1 Hpdr]]].
  unfold pad3D. rewrite vempty_false by lia.
  rewrite Hp2, Hp0. cbn [bind]. rewrite Hp1. cbn [bind]. rewrite Hpdr. cbn [bind].
  cbv zeta. rewrite Hlen. rewrite vnew_ok by lia. cbn [bind].
  rewrite for_range_step by lia.
  destruct (slice_get input depth rows cols 0 Hrect ltac:(lia)) as [Hs0 Hrect0].
  rewrite Hs0. cbn [bind].
  rewrite (pad2D_undefined _ pad_row pad_col borderType cval rows cols Hrect0 Hr Hc Hpr Hpc Hout).
  reflexivity.
Qed.

(** ** Sub-blocks *)

Section SubBlocks.
Context {A : Type}.
Implicit Types (v : list A).

Lemma vsize_sub_vec off len v :
  0 <= off -> 0 <= len -> off + len <= vsize v -> vsize (sub_vec off len v) = len.
Proof.
  unfold vsize, sub_vec. intros Hoff Hlen Hfit.
  rewrite length_firstn, length_skipn. lia.
Qed.

Lemma vget_sub_vec off len v i :
  0 <= off -> 0 <= i < len -> vget (sub_vec off len v) i = vget v (off + i).
Proof.
  intros Hoff Hi. unfold vget, sub_vec.
  destruct (Z.ltb_spec i 0); [lia |]. destruct (Z.ltb_spec (off + i) 0); [lia |].
  rewrite nth_error_firstn, nth_error_skipn.
  destruct (Nat.ltb_spec (Z.to_nat i) (Z.to_nat len)); [| lia].
  now replace (Z.to_nat (off + i)) with (Z.to_nat off + Z.to_nat i)%nat by lia.
Qed.

Lemma vget_map {B : Type} (f : A -> B) v i :
  vget (map f v) i = (x <- vget v i ;; Ok (f x)).
Proof.
  unfold vget. destruct (i <? 0); [reflexivity |].
  rewrite nth_error_map. destruct (nth_error v (Z.to_nat i)); reflexivity.
Qed.

Lemma vsize_map {B : Type} (f : A -> B) v : vsize (map f v) = vsize v.
Proof. unfold vsize. now rewrite length_map. Qed.

Lemma Forall_vget (P : A -> Prop) v :
  (forall i x, vget v i = Ok x -> P x) -> Forall P v.
Proof.
  intros Hall. apply Forall_forall. intros x Hin.
  destruct (In_nth_error _ _ Hin) as [n Hn].
  apply (Hall (Z.of_nat n)). apply vget_nth_error. rewrite Nat2Z.id. split; [lia | assumption].
Qed.
End SubBlocks.

Section CentralBlock.
Context {T : Type}.
Variables (P : @Mat3D T) (pad_depth pad_row pad_col depth rows cols : Z).
Hypothesis Hrect : rect3 P (depth + 2 * pad_depth) (rows + 2 * pad_row) (cols + 2 * pad_col).
Hypothesis Hpd : 0 <= pad_depth.
Hypothesis Hpr : 0 <= pad_row.
Hypothesis Hpc : 0 <= pad_col.
Hypothesis Hdepth : 0 <= depth.
Hypothesis Hrows : 0 <= rows.
Hypothesis Hcols : 0 <= cols.

Lemma central_block_rect :
  rect3 (central_block P pad_depth pad_row pad_col depth rows cols) depth rows cols.
Proof.
  destruct Hrect as [Hlen Hall]. unfold central_block. split.
  - rewrite vsize_map. apply vsize_sub_vec; lia.
  - apply Forall_vget. intros z s' Hs'.
    rewrite vget_map in Hs'.
    destruct (vget (sub_vec pad_depth depth P) z) as [s | |] eqn:Hs; try discriminate.
    simpl in Hs'. inversion Hs'; subst s'; clear Hs'.
    pose proof (vget_bounds _ _ _ Hs) as Hz.
    rewrite vsize_sub_vec in Hz by lia.
    rewrite vget_sub_vec in Hs by lia.
    destruct (vget_Forall _ _ _ _ Hall Hs) as [Hsr Hsc].
    split.
    + rewrite vsize_map. apply vsize_sub_vec; lia.
    + apply Forall_vget. intros a r' Hr'.
      rewrite vget_map in Hr'.
      destruct (vget (sub_vec pad_row rows s) a) as [r | |] eqn:Hr; try discriminate.
      simpl in Hr'. inversion Hr'; subst r'; clear Hr'.
      pose proof (vget_bounds _ _ _ Hr) as Ha.
      rewrite vsize_sub_vec in Ha by lia.
      rewrite vget_sub_vec in Hr by lia.
      apply vsize_sub_vec; try lia.
      rewrite (vget_Forall _ _ _ _ Hsc Hr). lia.
Qed.

Lemma central_block_get z a b :
  0 <= z < depth -> 0 <= a < rows -> 0 <= b < cols ->
  get3 (central_block P pad_depth pad_row pad_col depth rows cols) z a b =
  get3 P (pad_depth + z) (pad_row + a) (pad_col + b).
Proof.
  intros Hz Ha Hb. unfold central_block, get3, get2.
  rewrite vget_map, vget_sub_vec by lia.
  destruct (vget P (pad_depth + z)) as [s | |]; simpl; try reflexivity.
  rewrite vget_map, vget_sub_vec by lia.
  destruct (vget s (pad_row + a)) as [r | |]; simpl; try reflexivity.
  apply vget_sub_vec; lia.
Qed.
End CentralBlock.

(** * The padding stage and the resolver *)

(** ** Padding *)

Lemma Forall_pads_nonneg (pad_row pad_col : Z) (more : list Z) :
  Forall (fun p => 0 <= p) (pad_row :: pad_col :: more) ->
  0 <= pad_row /\ 0 <= pad_col /\ 0 <= pad_depth_of (pad_row :: pad_col :: more).
Proof.
  intros Hnn. inversion Hnn as [| ? ? Hr Hnn1]; subst.
  inversion Hnn1 as [| ? ? Hc Hnn2]; subst.
  repeat split; auto. destruct more as [| pd rest]; simpl; [lia |].
  now inversion Hnn2.
Qed.

(** Inside the source range the padded cell is the source sample. *)
Lemma pad3D_cell_center {T : Type} `{Scalar T} (V : @Mat3D T) (borderType : Z) (c : T)
    (depth rows cols pad_row pad_col pad_depth z a b : Z) :
  rect3 V depth rows cols -> 0 < rows -> 0 < cols ->
  0 <= z < depth -> 0 <= a < rows -> 0 <= b < cols ->
  get3 V z a b =
  Ok (pad3D_cell V pad_row pad_col pad_depth borderType c
        (pad_depth + z) (pad_row + a) (pad_col + b)).
Proof.
  intros Hrect Hr Hc Hz Ha Hb.
  pose proof (F_center V [pad_row; pad_col; pad_depth] borderType c depth rows cols
                pad_row pad_col Hrect z (pad_row + a) (pad_col + b) Hz) as HF.
  cbn [fst snd pad_depth_of] in HF. rewrite HF.
  destruct (slice_get V depth rows cols z Hrect Hz) as [Hs Hrs].
  unfold get3. rewrite Hs. cbn [bind].
  pose proof (cell_center _ pad_row pad_col borderType c rows cols Hrs Hr a b Ha Hb) as HC.
  cbn [fst snd] in HC. exact HC.
Qed.

(** C3 (as amended). Padding round-trip: for every non-empty rectangular
    volume V, every pad vector [pad_row; pad_col; ...] of non-negative
    entries, every border mode and every fill value: when the row and column
    pads stay within the single-bounce regime of the mode (no restriction
    under Constant and Replicate, [pad <= size] under Reflect, [pad < size]
    under Reflect101; the depth pad is unrestricted), [pad3D] returns a
    volume of extents (depth + 2 pad_depth, rows + 2 pad_row,
    cols + 2 pad_col) whose central sub-block, offset by the pad amount on
    each axis, is exactly V; outside that regime [pad3D] reads the source
    out of bounds and returns nothing. *)
Theorem pad3D_round_trip {T : Type} `{Scalar T} (V : @Mat3D T) (pads : list Z)
    (borderType : Z) (c : T) (depth rows cols pad_row pad_col : Z) (more : list Z) :
  rect3 V depth rows cols -> 0 < depth -> 0 < rows -> 0 < cols ->
  pads = pad_row :: pad_col :: more ->
  Forall (fun p => 0 <= p) pads ->
  (bounce_ok borderType pad_row rows /\ bounce_ok borderType pad_col cols ->
   exists P,
     pad3D V pads borderType c = Ok P /\
     rect3 P (depth + 2 * pad_depth_of pads) (rows + 2 * pad_row) (cols + 2 * pad_col) /\
     central_block P (pad_depth_of pads) pad_row pad_col depth rows cols = V) /\
  (~ (bounce_ok borderType pad_row rows /\ bounce_ok borderType pad_col cols) ->
   pad3D V pads borderType c = Undefined).
Proof.
  intros Hrect Hd Hr Hc Hpads Hnn.
  assert (Hpos : 0 <= pad_row /\ 0 <= pad_col /\ 0 <= pad_depth_of pads)
    by (subst pads; now apply Forall_pads_nonneg).
  destruct Hpos as [Hpr [Hpc Hpd]]. split.
  - intros [Hbr Hbc].
    destruct (pad3D_spec V pads borderType c depth rows cols pad_row pad_col more)
      as [P [HP [HrectP Hcells]]]; auto.
    exists P. split; [assumption |]. split; [assumption |].
    apply (get3_ext _ _ depth rows cols).
    + apply central_block_rect; auto; lia.
    + exact Hrect.
    + intros z a b Hz Ha Hb.
      rewrite central_block_get by (auto; lia).
      rewrite Hcells by lia. symmetry.
      now apply (pad3D_cell_center V borderType c depth rows cols).
  - intros Hout. subst pads.
    now apply (pad3D_undefined V borderType c depth rows cols).
Qed.

(** C3, witness: a 1 x 2 x 2 volume of doubles padded by [1; 1; 1] under
    Reflect, and by [3; 1; 1], beyond the two rows, under the same mode. *)
Lemma pad3D_round_trip_witness :
  (exists P,
     pad3D [[[1; 2]; [3; 4]]]%float [1; 1; 1] 2 0%float = Ok P /\
     rect3 P (1 + 2 * 1) (2 + 2 * 1) (2 + 2 * 1) /\
     central_block P 1 1 1 1 2 2 = [[[1; 2]; [3; 4]]]%float) /\
  pad3D [[[1; 2]; [3; 4]]]%float [3; 1; 1] 2 0%float = Undefined.
Proof.
  split.
  - apply (pad3D_round_trip [[[1; 2]; [3; 4]]]%float [1; 1; 1] 2 0%float 1 2 2 1 1 [1]).
    + split; [reflexivity |]. repeat constructor.
    + lia.
    + lia.
    + lia.
    + reflexivity.
    + repeat constructor; lia.
    + split; split; intros; lia.
  - apply (pad3D_round_trip [[[1; 2]; [3; 4]]]%float [3; 1; 1] 2 0%float 1 2 2 3 1 [1]).
    + split; [reflexivity |]. repeat constructor.
    + lia.
    + lia.
    + lia.
    + reflexivity.
    + repeat constructor; lia.
    + intros [[Hrow _] _]. specialize (Hrow eq_refl). lia.
Defined.

(** C3, as stated, fails: on the 1 x 1 x 1 volume [[[5]]] with pads [1; 0]
    under Reflect101 the top border row resolves to source row 1, and
    [pad3D] reads [input[1][0]] outside the slice. *)
Lemma pad3D_round_trip_out_of_regime :
  rect3 [[[5]]]%float 1 1 1 /\
  Forall (fun p => 0 <= p) [1; 0] /\
  getMirrorIndex (-1) 1 3 = 1 /\
  pad3D [[[5]]]%float [1; 0] 3 0%float = Undefined.
Proof.
  split; [split; [reflexivity | repeat constructor] |].
  split; [repeat constructor; lia |].
  split; reflexivity.
Qed.

(** C10 (as amended). Mirror-write invariant of [pad2D]: for every non-empty
    rectangular 2D input, every border mode and all pad_row, pad_col >= 0:
    when the pads stay within the single-bounce regime of the mode (no
    restriction under Constant and Replicate, [pad <= size] under Reflect,
    [pad < size] under Reflect101), [pad2D] returns a result R of shape
    (rows + 2 pad_row) x (cols + 2 pad_col) with
    R[i][j] = R[rows + 2 pad_row - 1 - i][j] for every 0 <= i < pad_row and
    every column j, and R[i][j] = R[i][cols + 2 pad_col - 1 - j] for every
    pad_row <= i < rows + pad_row and every 0 <= j < pad_col; outside that
    regime [pad2D] reads the input out of bounds and returns nothing. *)
Theorem pad2D_mirror_write {T : Type} `{Scalar T} (input : @Mat2D T)
    (pad_row pad_col borderType : Z) (cval : T) (rows cols : Z) :
  rect input rows cols -> 0 < rows -> 0 < cols ->
  0 <= pad_row -> 0 <= pad_col ->
  (bounce_ok borderType pad_row rows /\ bounce_ok borderType pad_col cols ->
   exists R,
     pad2D input pad_row pad_col borderType cval = Ok R /\
     rect R (rows + 2 * pad_row) (cols + 2 * pad_col) /\
     (forall i j, 0 <= i < pad_row -> 0 <= j < cols + 2 * pad_col ->
        exists v, get2 R i j = Ok v /\ get2 R (rows + 2 * pad_row - 1 - i) j = Ok v) /\
     (forall i j, pad_row <= i < rows + pad_row -> 0 <= j < pad_col ->
        exists v, get2 R i j = Ok v /\ get2 R i (cols + 2 * pad_col - 1 - j) = Ok v)) /\
  (~ (bounce_ok borderType pad_row rows /\ bounce_ok borderType pad_col cols) ->
   pad2D input pad_row pad_col borderType cval = Undefined).
Proof.
  intros Hrect Hr Hc Hpr Hpc. split.
  - intros [Hbr Hbc].
    destruct (pad2D_spec input pad_row pad_col borderType cval rows cols)
      as [R [HR [HrectR Hcells]]]; auto.
    exists R. split; [assumption |]. split; [assumption |]. split.
    + intros i j Hi Hj.
      destruct (cell_top_bottom input pad_row pad_col borderType cval rows cols
                  Hrect Hr Hc Hbr Hbc i j Hi Hj) as [v [_ [Htop Hbottom]]].
      cbn [fst snd] in Htop, Hbottom.
      exists v. rewrite !Hcells by lia. split; f_equal; auto.
    + intros i j Hi Hj.
      destruct (cell_left_right input pad_row pad_col borderType cval rows cols
                  Hrect Hr Hc Hbr Hbc i j ltac:(lia) Hj) as [v [_ [Hleft Hright]]].
      cbn [fst snd] in Hleft, Hright.
      exists v. rewrite !Hcells by lia. split; f_equal; auto.
  - now apply pad2D_undefined.
Qed.

(** C10, witness: a 2 x 2 slice of doubles padded by one row and one column
    under Reflect, and by one row and two columns under Reflect101. *)
Lemma pad2D_mirror_write_witness :
  (exists R,
     pad2D [[1; 2]; [3; 4]]%float 1 1 2 0%float = Ok R /\
     rect R (2 + 2 * 1) (2 + 2 * 1) /\
     (forall i j, 0 <= i < 1 -> 0 <= j < 2 + 2 * 1 ->
        exists v, get2 R i j = Ok v /\ get2 R (2 + 2 * 1 - 1 - i) j = Ok v) /\
     (forall i j, 1 <= i < 2 + 1 -> 0 <= j < 1 ->
        exists v, get2 R i j = Ok v /\ get2 R i (2 + 2 * 1 - 1 - j) = Ok v)) /\
  pad2D [[1; 2]; [3; 4]]%float 1 2 3 0%float = Undefined.
Proof.
  split.
  - apply (pad2D_mirror_write [[1; 2]; [3; 4]]%float 1 1 2 0%float 2 2).
    + split; [reflexivity |]. repeat constructor.
    + lia.
    + lia.
    + lia.
    + lia.
    + split; split; intros; lia.
  - apply (pad2D_mirror_write [[1; 2]; [3; 4]]%float 1 2 3 0%float 2 2).
    + split; [reflexivity |]. repeat constructor.
    + lia.
    + lia.
    + lia.
    + lia.
    + intros [_ [_ Hcol]]. specialize (Hcol eq_refl). lia.
Defined.

(** C10, as stated (all pads, all modes), fails: on the 1 x 1 input [[5]]
    with pad_row = 1 under Reflect101 the border row resolves to source
    row 1 and [pad2D] reads [input[1][0]] outside the input, so there is no
    padded result. *)
Lemma pad2D_mirror_write_out_of_regime :
  rect [[5]]%float 1 1 /\
  getMirrorIndex (-1) 1 3 = 1 /\
  pad2D [[5]]%float 1 0 3 0%float = Undefined.
Proof.
  split; [split; [reflexivity | repeat constructor] |].
  split; reflexivity.
Qed.

(** C2 (the code departs from the claim). The bottom and right borders are
    written as copies of the top and left borders, not resolved on their
    own: under Replicate the bottom border of the column [1; 2] holds 1
    where the index rule reads source row 1, which holds 2; the right
    border of the row [1; 2; 3; 4] holds 1 where the rule reads source
    column 3, which holds 4; and under Reflect with two pad rows the top
    border itself is stored in reverse order. *)
Theorem pad2D_border_cells_diverge :
  pad2D [[1]; [2]]%float 1 0 1 0%float = Ok [[1]; [1]; [2]; [1]]%float /\
  get2 [[1]; [2]]%float (getMirrorIndex (3 - 1) 2 1) (getMirrorIndex (0 - 0) 1 1)
    = Ok 2%float /\
  pad2D [[1; 2; 3; 4]]%float 0 1 1 0%float = Ok [[1; 1; 2; 3; 4; 1]]%float /\
  get2 [[1; 2; 3; 4]]%float (getMirrorIndex (0 - 0) 1 1) (getMirrorIndex (5 - 1) 4 1)
    = Ok 4%float /\
  pad2D [[1]; [2]; [3]]%float 2 0 2 0%float
    = Ok [[1]; [2]; [1]; [2]; [3]; [2]; [1]]%float /\
  get2 [[1]; [2]; [3]]%float (getMirrorIndex (0 - 2) 3 2) (getMirrorIndex (0 - 0) 1 2)
    = Ok 2%float.
Proof. repeat split; reflexivity. Qed.

(** ** The resolver *)

(** C6. For every size > 0 and every integer idx the resolver maps idx
    under Replicate to max(0, min(idx, size-1)); under Reflect it maps
    idx < 0 to -idx-1 and idx >= size to 2*size-idx-1; under Reflect101 it
    maps idx < 0 to -idx and idx >= size to 2*size-idx-2; and for the row
    [1,2,3,4] padded by one column the left-border cell holds 1 under
    Reflect and 2 under Reflect101. *)
Theorem getMirrorIndex_rules (size idx : Z) (cval : float) :
  0 < size ->
  getMirrorIndex idx size 1 = Z.max 0 (Z.min idx (size - 1)) /\
  (idx < 0 -> getMirrorIndex idx size 2 = - idx - 1) /\
  (idx >= size -> getMirrorIndex idx size 2 = 2 * size - idx - 1) /\
  (idx < 0 -> getMirrorIndex idx size 3 = - idx) /\
  (idx >= size -> getMirrorIndex idx size 3 = 2 * size - idx - 2) /\
  (exists R, pad2D [[1; 2; 3; 4]]%float 0 1 2 cval = Ok R /\ get2 R 0 0 = Ok 1%float) /\
  (exists R, pad2D [[1; 2; 3; 4]]%float 0 1 3 cval = Ok R /\ get2 R 0 0 = Ok 2%float).
Proof.
  intros Hsize. repeat split.
  - resolver_cases.
  - intros Hidx. resolver_cases.
  - intros Hidx. resolver_cases.
  - intros Hidx. resolver_cases.
  - intros Hidx. resolver_cases.
  - eexists. split; reflexivity.
  - eexists. split; reflexivity.
Qed.

(** C6, witness: size 4, idx -1. *)
Lemma getMirrorIndex_rules_witness :
  getMirrorIndex (-1) 4 1 = Z.max 0 (Z.min (-1) (4 - 1)) /\
  (-1 < 0 -> getMirrorIndex (-1) 4 2 = - (-1) - 1) /\
  (-1 >= 4 -> getMirrorIndex (-1) 4 2 = 2 * 4 - (-1) - 1) /\
  (-1 < 0 -> getMirrorIndex (-1) 4 3 = - (-1)) /\
  (-1 >= 4 -> getMirrorIndex (-1) 4 3 = 2 * 4 - (-1) - 2) /\
  (exists R, pad2D [[1; 2; 3; 4]]%float 0 1 2 0%float = Ok R /\ get2 R 0 0 = Ok 1%float) /\
  (exists R, pad2D [[1; 2; 3; 4]]%float 0 1 3 0%float = Ok R /\ get2 R 0 0 = Ok 2%float).
Proof. apply (getMirrorIndex_rules 4 (-1) 0%float). lia. Defined.

(** C7 (as amended). Resolver range contract: for every size > 0 and every
    integer idx, the index returned by [getMirrorIndex] lies in
    [0, size-1] under Replicate for every idx, under Reflect whenever
    -size <= idx <= 2*size-1, and under Reflect101 whenever
    -(size-1) <= idx <= 2*size-2 (one less than under Reflect on either
    side); within those ranges the read of [getBorderValue] on a rectangular
    input is in bounds; and for every size <= 0 the resolver returns 0. *)
Theorem getMirrorIndex_range_contract (idx size borderType : Z) :
  (0 < size ->
   (borderType = 2 -> - size <= idx <= 2 * size - 1) ->
   (borderType = 3 -> - (size - 1) <= idx <= 2 * size - 2) ->
   0 <= getMirrorIndex idx size borderType <= size - 1 /\
   forall (T : Type) (input : @Mat2D T) (cval : T) (col cols : Z),
     rect input size cols -> 0 < cols ->
     (borderType = 2 -> - cols <= col <= 2 * cols - 1) ->
     (borderType = 3 -> - (cols - 1) <= col <= 2 * cols - 2) ->
     exists v, getBorderValue input idx col size cols borderType cval = Ok v) /\
  (size <= 0 -> getMirrorIndex idx size borderType = 0).
Proof.
  split.
  - intros Hsize H2 H3. split.
    + pose proof (getMirrorIndex_in_range idx size borderType Hsize H2 H3). lia.
    + intros T input cval col cols Hrect Hcols Hc2 Hc3.
      now apply (getBorderValue_ok input size cols).
  - intros Hsize. unfold getMirrorIndex. destruct (Z.leb_spec size 0); [reflexivity | lia].
Qed.

(** C7, witness: Reflect101 at the far end of its range on size 4, and a
    degenerate size. *)
Lemma getMirrorIndex_range_contract_witness :
  0 <= getMirrorIndex (-3) 4 3 <= 4 - 1 /\ getMirrorIndex (-3) 0 3 = 0.
Proof.
  split.
  - apply (proj1 (getMirrorIndex_range_contract (-3) 4 3)).
    + lia.
    + intros; lia.
    + intros; lia.
  - apply (proj2 (getMirrorIndex_range_contract (-3) 0 3)). lia.
Defined.

(** C7, as stated, fails for Reflect101: at out-of-range distance exactly
    [size] on the left the resolver returns [size], and from distance
    [size - 1] on the right it returns -1. *)
Lemma getMirrorIndex_reflect101_escapes :
  (- 4 <= -4 <= 2 * 4 - 1 /\ getMirrorIndex (-4) 4 3 = 4) /\
  (- 4 <= 7 <= 2 * 4 - 1 /\ getMirrorIndex 7 4 3 = -1) /\
  (- 1 <= -1 <= 2 * 1 - 1 /\ getMirrorIndex (-1) 1 3 = 1).
Proof. repeat split; lia || reflexivity. Qed.

(** * The correlation stage *)

(** ** Correlation on doubles: the concrete rows *)

(** C5 (the code departs from the claim). On the row [2,4,6,8] with the
    kernel [0.25,0.5,0.25] under Replicate, [correlate1d] along the column
    axis (and likewise along the row axis) returns [2.5, 4, 6, 6]: the right
    border cell of the padded row is a copy of the left one (2 instead of
    8), so the last output is 0.25*6 + 0.5*8 + 0.25*2 = 6, not 7.5. Only
    along the depth axis, which [pad3D] pads on its own, is the result
    [2.5, 4, 6, 7.5]. *)
Theorem correlate1d_smoothing_row (out : Mat3D) (cval : float) :
  pad2D [[2; 4; 6; 8]]%float 0 1 1 cval = Ok [[2; 2; 4; 6; 8; 2]]%float /\
  correlate1d [[[2; 4; 6; 8]]]%float [0.25; 0.5; 0.25]%float 1 out 1 cval
    = Ok [[[2.5; 4; 6; 6]]]%float /\
  correlate1d [[[2]; [4]; [6]; [8]]]%float [0.25; 0.5; 0.25]%float 0 out 1 cval
    = Ok [[[2.5]; [4]; [6]; [6]]]%float /\
  correlate1d [[[2]]; [[4]]; [[6]]; [[8]]]%float [0.25; 0.5; 0.25]%float 2 out 1 cval
    = Ok [[[2.5]]; [[4]]; [[6]]; [[7.5]]]%float.
Proof. repeat split; reflexivity. Qed.

(** C4 (the code departs from the claim). On the row [0,0,0,10,10,10] with
    the gradient kernel {-1,0,1} under Replicate, [correlate1d] takes the
    antisymmetric path and returns [0,0,-10,-10,0,10] along the column axis:
    the path multiplies (left - right) by the right-hand weight, which is
    the negation of the full weighted sum, and the right border cell of the
    padded row is a copy of the left one (0 instead of 10). The general path
    on the same padded row gives [0,0,10,10,0,-10], and the antisymmetric
    path along the depth axis gives [0,0,-10,-10,0,0]. *)
Theorem correlate1d_gradient_row (out : Mat3D) (cval : float) :
  kernel_symmetry [-1; 0; 1]%float 1 = Ok (false, true) /\
  correlate1d [[[0; 0; 0; 10; 10; 10]]]%float [-1; 0; 1]%float 1 out 1 cval
    = Ok [[[0; 0; -10; -10; 0; 10]]]%float /\
  correlate1d_with general_path [[[0; 0; 0; 10; 10; 10]]]%float [-1; 0; 1]%float 1 out 1 cval
    = Ok [[[0; 0; 10; 10; 0; -10]]]%float /\
  correlate1d [[[0]]; [[0]]; [[0]]; [[10]]; [[10]]; [[10]]]%float [-1; 0; 1]%float 2 out 1 cval
    = Ok [[[0]]; [[0]]; [[-10]]; [[-10]]; [[0]]; [[0]]]%float.
Proof. repeat split; reflexivity. Qed.

(** ** Argument checks *)

(** C9 (the code departs from the claim). An empty input or an empty kernel
    makes [correlate1d] return at once without an error, leaving [output]
    as it was, whatever the axis; an empty input makes [sobel] return the
    empty volume without an error, whatever the axis. *)
Theorem empty_arguments_return_silently (input out : Mat3D) (weights : list float)
    (axis borderType : Z) (cval : float) :
  correlate1d [] weights axis out borderType cval = Ok out /\
  correlate1d input [] axis out borderType cval = Ok out /\
  sobel [] axis borderType cval = Ok [].
Proof.
  repeat split; try reflexivity.
  unfold correlate1d, correlate1d_with. simpl. now rewrite orb_true_r.
Qed.

(** On a non-empty input (and kernel) an axis outside {0,1,2} is rejected. *)
Lemma invalid_axis_rejected (slice : Mat2D) (input out : Mat3D) (w : float)
    (weights : list float) (axis borderType : Z) (cval : float) :
  axis < 0 \/ 2 < axis ->
  correlate1d (slice :: input) (w :: weights) axis out borderType cval
    = Throw (invalid_argument "Invalid axis (0-2)") /\
  sobel (slice :: input) axis borderType cval = Throw (invalid_argument "Invalid axis (0-2)").
Proof.
  intros Haxis.
  assert (Hbad : (axis <? 0) || (axis >? 2) = true).
  { rewrite Z.gtb_ltb. destruct (Z.ltb_spec axis 0); destruct (Z.ltb_spec 2 axis);
      simpl; auto; lia. }
  unfold correlate1d, correlate1d_with, sobel. simpl. rewrite Hbad. split; reflexivity.
Qed.

(** ** The three sums of [correlate1d] on a readable window *)

Section TapSums.
Context {T : Type} `{Scalar T}.

Lemma for_range_acc lo hi (body : Z -> T -> outcome T) (f : Z -> T) a :
  (forall i sum, lo <= i < hi -> body i sum = Ok (s_add sum (f i))) ->
  for_range lo hi body a = Ok (acc_steps (Z.to_nat (hi - lo)) lo f a).
Proof.
  unfold for_range. remember (Z.to_nat (hi - lo)) as n eqn:En.
  revert lo a En. induction n as [| n IH]; intros lo a En Hbody; [reflexivity |].
  simpl. rewrite Hbody by lia. simpl. apply IH; [lia |].
  intros i sum Hi. apply Hbody. lia.
Qed.

Variables (line : Z -> outcome T) (weights : list T) (r center : Z).
Hypothesis Hr : 0 <= r.
Hypothesis Hsize : vsize weights = 2 * r + 1.

Let p (t : Z) : T := force s_zero (line t).
Let w (i : Z) : T := force s_zero (vget weights i).

Lemma weight_get i : 0 <= i <= 2 * r -> vget weights i = Ok (w i).
Proof.
  intros Hi. destruct (vget_ok weights i) as [x Hx]; [lia |].
  unfold w. now rewrite Hx.
Qed.

Lemma tap_sum_symmetric_ok anti :
  (forall t, center - r <= t < center - r + Z.of_nat (Z.to_nat (2 * r + 1)) -> line t = Ok (p t)) ->
  tap_sum true anti line weights r (2 * r + 1) center =
  Ok (acc_steps (Z.to_nat r) 1
        (fun i => s_mul (s_add (p (center - i)) (p (center + i))) (w (r + i)))
        (s_mul (p center) (w r))).
Proof.
  intros Hok. unfold tap_sum.
  rewrite Hok by lia. cbn [bind]. rewrite weight_get by lia. cbn [bind].
  rewrite (for_range_acc 1 (r + 1) _
             (fun i => s_mul (s_add (p (center - i)) (p (center + i))) (w (r + i)))).
  - now replace (r + 1 - 1) with r by lia.
  - intros i sum Hi. rewrite !Hok by lia. cbn [bind]. rewrite weight_get by lia. reflexivity.
Qed.

Lemma tap_sum_general_ok :
  (forall t, center - r <= t < center - r + Z.of_nat (Z.to_nat (2 * r + 1)) -> line t = Ok (p t)) ->
  tap_sum false false line weights r (2 * r + 1) center =
  Ok (acc_steps (Z.to_nat (2 * r + 1)) 0 (fun i => s_mul (p (center - r + i)) (w i)) s_zero).
Proof.
  intros Hok. unfold tap_sum.
  rewrite (for_range_acc 0 (2 * r + 1) _ (fun i => s_mul (p (center - r + i)) (w i))).
  - now rewrite Z.sub_0_r.
  - intros i sum Hi. rewrite Hok by lia. cbn [bind]. rewrite weight_get by lia. reflexivity.
Qed.

Hypothesis Hok : forall t, center - r <= t <= center + r -> exists v, line t = Ok v.

Lemma line_get t : center - r <= t <= center + r -> line t = Ok (p t).
Proof. intros Ht. destruct (Hok t Ht) as [v Hv]. unfold p. now rewrite Hv. Qed.

Lemma tap_sum_antisymmetric_ok :
  tap_sum false true line weights r (2 * r + 1) center =
  Ok (acc_steps (Z.to_nat r) 1
        (fun i => s_mul (s_sub (p (center - i)) (p (center + i))) (w (r + i)))
        (s_mul (p center) (w r))).
Proof.
  unfold tap_sum.
  rewrite line_get by lia. cbn [bind].
  rewrite weight_get by lia. cbn [bind].
  rewrite (for_range_acc 1 (r + 1) _
             (fun i => s_mul (s_sub (p (center - i)) (p (center + i))) (w (r + i)))).
  - now replace (r + 1 - 1) with r by lia.
  - intros i sum Hi. rewrite !line_get by lia. cbn [bind].
    rewrite weight_get by lia. reflexivity.
Qed.
End TapSums.

(** ** [correlate1d] returns a volume of the input's shape *)

Section CorrelateTotal.
Context {T : Type} `{Scalar T}.
Variables (weights : list T) (k : Z).
Hypothesis Hk : 0 <= k.
Hypothesis Hsize : vsize weights = 2 * k + 1.

Lemma tap_sum_total symmetric anti_symmetric (line : Z -> outcome T) center :
  (forall t, center - k <= t <= center + k -> exists v, line t = Ok v) ->
  exists v, tap_sum symmetric anti_symmetric line weights k (2 * k + 1) center = Ok v.
Proof.
  intros Hline.
  assert (Hw : forall i, 0 <= i <= 2 * k -> exists x, vget weights i = Ok x)
    by (intros i Hi; apply vget_ok; lia).
  assert (Hpair : forall (op : T -> T -> T) c0,
            exists v, for_range 1 (k + 1) (fun i sum =>
                        l <- line (center - i) ;;
                        r <- line (center + i) ;;
                        w <- vget weights (k + i) ;;
                        Ok (s_add sum (s_mul (op l r) w))) c0 = Ok v).
  { intros op c0.
    destruct (for_range_total (fun _ : T => True) 1 (k + 1)
                (fun i sum =>
                   l <- line (center - i) ;;
                   r <- line (center + i) ;;
                   w <- vget weights (k + i) ;;
                   Ok (s_add sum (s_mul (op l r) w))) c0 I) as [v [Hv _]].
    - intros i sum Hi _.
      destruct (Hline (center - i)) as [l ->]; [lia |].
      destruct (Hline (center + i)) as [r ->]; [lia |].
      destruct (Hw (k + i)) as [w ->]; [lia |].
      eexists. split; [reflexivity | exact I].
    - exists v. exact Hv. }
  unfold tap_sum.
  destruct (Hline center) as [c0 Hc0]; [lia |].
  destruct (Hw k) as [w0 Hw0]; [lia |].
  destruct symmetric; [| destruct anti_symmetric].
  - rewrite Hc0, Hw0. cbn [bind]. apply Hpair.
  - rewrite Hc0, Hw0. cbn [bind]. apply Hpair.
  - destruct (for_range_total (fun _ : T => True) 0 (2 * k + 1)
                (fun i sum =>
                   p <- line (center - k + i) ;;
                   w <- vget weights i ;;
                   Ok (s_add sum (s_mul p w))) s_zero I) as [v [Hv _]].
    + intros i sum Hi _.
      destruct (Hline (center - k + i)) as [p ->]; [lia |].
      destruct (Hw i) as [w ->]; [lia |].
      eexists. split; [reflexivity | exact I].
    + exists v. exact Hv.
Qed.

Lemma correlate_sweep_total symmetric anti_symmetric (padded output : @Mat3D T)
    axis pads0 pads1 pads2 depth rows cols :
  0 <= axis <= 2 ->
  0 <= pads0 -> 0 <= pads1 -> 0 <= pads2 ->
  (axis = 0 -> pads0 = k) -> (axis = 1 -> pads1 = k) -> (axis = 2 -> pads2 = k) ->
  rect3 padded (depth + 2 * pads2) (rows + 2 * pads0) (cols + 2 * pads1) ->
  rect3 output depth rows cols ->
  exists out,
    correlate_sweep symmetric anti_symmetric padded weights axis k (2 * k + 1)
      pads0 pads1 pads2 depth rows cols output = Ok out /\
    rect3 out depth rows cols.
Proof.
  intros Haxis Hp0 Hp1 Hp2 Ha0 Ha1 Ha2 Hpadded Hout. unfold correlate_sweep.
  destruct (Z.eqb_spec axis 0) as [E0 | N0];
    [| destruct (Z.eqb_spec axis 1) as [E1 | N1];
       [| destruct (Z.eqb_spec axis 2) as [E2 | N2]; [| lia]]];
    apply (for_range_total (fun out : @Mat3D T => rect3 out depth rows cols)); auto;
    intros a oa Hra Hoa;
    apply (for_range_total (fun out : @Mat3D T => rect3 out depth rows cols)); auto;
    intros b ob Hrb Hob;
    apply (for_range_total (fun out : @Mat3D T => rect3 out depth rows cols)); auto;
    intros c oc Hrc Hoc.
  - destruct (tap_sum_total symmetric anti_symmetric
                (fun t => get3 padded (a + pads2) t (b + pads1)) (k + c)) as [v ->].
    { intros t Ht. apply (get3_ok padded _ _ _ _ _ _ Hpadded); specialize (Ha0 E0); lia. }
    cbn [bind]. destruct (set3_spec oc depth rows cols a c b v Hoc) as [o' [-> [Ho' _]]];
      try lia. eauto.
  - destruct (tap_sum_total symmetric anti_symmetric
                (fun t => get3 padded (a + pads2) (b + pads0) t) (k + c)) as [v ->].
    { intros t Ht. apply (get3_ok padded _ _ _ _ _ _ Hpadded); specialize (Ha1 E1); lia. }
    cbn [bind]. destruct (set3_spec oc depth rows cols a b c v Hoc) as [o' [-> [Ho' _]]];
      try lia. eauto.
  - destruct (tap_sum_total symmetric anti_symmetric
                (fun t => get3 padded t (a + pads0) (b + pads1)) (k + c)) as [v ->].
    { intros t Ht. apply (get3_ok padded _ _ _ _ _ _ Hpadded); specialize (Ha2 E2); lia. }
    cbn [bind]. destruct (set3_spec oc depth rows cols c a b v Hoc) as [o' [-> [Ho' _]]];
      try lia. eauto.
Qed.

(** Whatever the path, on a non-empty rectangular volume with the pad along
    the filtered axis within the single-bounce regime, the call returns a
    volume of the input's shape. *)
Lemma correlate1d_with_total (paths : list T -> Z -> outcome (bool * bool))
    (input output : @Mat3D T) axis borderType cval depth rows cols :
  (exists flags, paths weights k = Ok flags) ->
  rect3 input depth rows cols -> 0 < depth -> 0 < rows -> 0 < cols ->
  0 <= axis <= 2 ->
  (axis = 0 -> bounce_ok borderType k rows) ->
  (axis = 1 -> bounce_ok borderType k cols) ->
  exists out,
    correlate1d_with paths input weights axis output borderType cval = Ok out /\
    rect3 out depth rows cols.
Proof.
  intros [[symmetric anti_symmetric] Hflags] Hrect Hd Hr Hc Haxis Hb0 Hb1.
  assert (Hlen : vsize input = depth) by apply Hrect.
  assert (Hhalf : vsize weights / 2 = k).
  { rewrite Hsize. symmetry. apply (Z.div_unique_pos (2 * k + 1) 2 k 1); lia. }
  unfold correlate1d_with.
  rewrite (vempty_false input) by lia. rewrite (vempty_false weights) by lia.
  cbn [orb]. rewrite Z.gtb_ltb.
  destruct (Z.ltb_spec axis 0); [lia |]. destruct (Z.ltb_spec 2 axis); [lia |].
  cbn [orb]. cbv zeta. rewrite Hhalf, Hsize, Hlen.
  destruct (slice_get input depth rows cols 0 Hrect ltac:(lia)) as [Hs0 [Hs0r Hs0c]].
  destruct (vget_ok (nth (Z.to_nat 0) input []) 0) as [r0 Hr0]; [lia |].
  assert (Hr0c : vsize r0 = cols) by exact (vget_Forall _ _ _ _ Hs0c Hr0).
  destruct (new3_ok depth rows cols s_zero) as [out0 [Hout0 Hrect0]]; try lia.
  assert (Hpads : exists p0 p1 p2,
             vset [0; 0; 0] axis k = Ok [p0; p1; p2] /\
             0 <= p0 /\ 0 <= p1 /\ 0 <= p2 /\
             (axis = 0 -> p0 = k) /\ (axis = 1 -> p1 = k) /\ (axis = 2 -> p2 = k) /\
             bounce_ok borderType p0 rows /\ bounce_ok borderType p1 cols).
  { assert (Hzero : forall size, 0 < size -> bounce_ok borderType 0 size)
      by (intros size Hpos; split; intros; lia).
    assert (Hcases : axis = 0 \/ axis = 1 \/ axis = 2) by lia.
    destruct Hcases as [-> | [-> | ->]].
    - exists k, 0, 0. split; [reflexivity |]. repeat (split; [lia |]). auto.
    - exists 0, k, 0. split; [reflexivity |]. repeat (split; [lia |]). auto.
    - exists 0, 0, k. split; [reflexivity |]. repeat (split; [lia |]). auto. }
  destruct Hpads as [p0 [p1 [p2 [Hvset [Hp0 [Hp1 [Hp2 [Ha0 [Ha1 [Ha2 [Hbr Hbc]]]]]]]]]]].
  rewrite Hvset. cbn [bind].
  destruct (pad3D_spec input [p0; p1; p2] borderType cval depth rows cols p0 p1 [p2])
    as [padded [Hpad [Hpadded _]]]; auto.
  rewrite Hpad. cbn [bind]. rewrite Hs0. cbn [bind]. rewrite Hr0. cbn [bind].
  rewrite Hs0r, Hr0c, Hout0. cbn [bind]. rewrite Hflags. cbn [bind].
  change (vget [p0; p1; p2] 0) with (Ok p0). cbn [bind].
  change (vget [p0; p1; p2] 1) with (Ok p1). cbn [bind].
  change (vget [p0; p1; p2] 2) with (Ok p2). cbn [bind].
  now apply correlate_sweep_total.
Qed.

(** The symmetry test reads in range on an odd-length kernel. *)
Lemma kernel_symmetry_total : exists flags, kernel_symmetry weights k = Ok flags.
Proof.
  unfold kernel_symmetry.
  destruct (for_range_total (fun _ : bool * bool => True) 1 (k + 1)
              (fun i '(symmetric, anti_symmetric) =>
                 wp <- vget weights (k + i) ;;
                 wm <- vget weights (k - i) ;;
                 let symmetric := if negb (isClose wp wm) then false else symmetric in
                 let anti_symmetric :=
                   if negb (isClose wp (s_opp wm)) then false else anti_symmetric in
                 Ok (symmetric, anti_symmetric)) (true, true) I) as [flags [Hrun _]].
  - intros i [s a] Hi _.
    destruct (vget_ok weights (k + i)) as [wp ->]; [lia |].
    destruct (vget_ok weights (k - i)) as [wm ->]; [lia |].
    eexists. split; [reflexivity | exact I].
  - exists flags. exact Hrun.
Qed.
End CorrelateTotal.

(** ** What [correlate1d] stores in each cell *)

Section SweepCells.
Context {T : Type} `{Scalar T}.

Variables (depth rows cols : Z) (F : Z * Z * Z -> T).

Lemma fill3_write W (vol : @Mat3D T) z a b v :
  filled (fun vol => rect3 vol depth rows cols) cell3 F W vol ->
  0 <= z < depth -> 0 <= a < rows -> 0 <= b < cols ->
  v = F (z, a, b) ->
  exists vol', set3 vol z a b v = Ok vol' /\
               filled (fun vol => rect3 vol depth rows cols) cell3 F
                 (fun k => W k \/ k = (z, a, b)) vol'.
Proof.
  intros [Hwf Hr] Hz Ha Hb ->.
  destruct (set3_spec vol depth rows cols z a b (F (z, a, b)) Hwf Hz Ha Hb)
    as [vol' [Hset [Hwf' [Hsame Hother]]]].
  exists vol'. split; [assumption |]. split; [assumption |].
  intros [[z' a'] b'] [HW | Heq].
  - destruct (Z.eq_dec z' z) as [-> | Hnz];
      [destruct (Z.eq_dec a' a) as [-> | Hna];
       [destruct (Z.eq_dec b' b) as [-> | Hnb] |] |];
      try exact Hsame;
      unfold cell3; simpl; rewrite Hother by auto; exact (Hr _ HW).
  - inversion Heq; subst. exact Hsame.
Qed.

Variables (symmetric anti_symmetric : bool) (padded : @Mat3D T) (weights : list T).
Variables (axis k_half ksize pads0 pads1 pads2 : Z).
Hypothesis Haxis : 0 <= axis <= 2.
Hypothesis Htaps : forall z r c,
  0 <= z < depth -> 0 <= r < rows -> 0 <= c < cols ->
  tap_at symmetric anti_symmetric padded weights axis k_half ksize pads0 pads1 pads2 z r c
  = Ok (F (z, r, c)).

(** The sweep returns, and every cell of the output is the sum computed for
    its coordinate. *)
Lemma correlate_sweep_cells (output : @Mat3D T) :
  rect3 output depth rows cols ->
  exists out,
    correlate_sweep symmetric anti_symmetric padded weights axis k_half ksize
      pads0 pads1 pads2 depth rows cols output = Ok out /\
    rect3 out depth rows cols /\
    forall z r c, 0 <= z < depth -> 0 <= r < rows -> 0 <= c < cols ->
      get3 out z r c = Ok (F (z, r, c)).
Proof.
  intros Hout.
  assert (Hinv0 : filled (fun vol => rect3 vol depth rows cols) cell3 F (fun _ => False) output)
    by (split; [assumption | tauto]).
  unfold correlate_sweep. unfold tap_at in Htaps.
  destruct (Z.eqb_spec axis 0) as [E0 | N0];
    [| destruct (Z.eqb_spec axis 1) as [E1 | N1];
       [| destruct (Z.eqb_spec axis 2) as [E2 | N2]; [| lia]]].
  - match goal with
    | |- context [for_range 0 depth ?body output] =>
        destruct (for_fill (fun vol => rect3 vol depth rows cols) cell3 F 0 depth body
                    (fun z k => exists c, 0 <= c < cols /\
                                  exists r, 0 <= r < rows /\ k = (z, r, c)))
          with (2 := Hinv0) as [out [Hrun [Hrect Hcells]]]
    end.
    { intros z W vol Hz Hvol.
      apply (for_fill (fun vol => rect3 vol depth rows cols) cell3 F 0 cols _
               (fun c k => exists r, 0 <= r < rows /\ k = (z, r, c))); [| exact Hvol].
      intros c W1 vol1 Hc Hvol1.
      apply (for_fill (fun vol => rect3 vol depth rows cols) cell3 F 0 rows _
               (fun r k => k = (z, r, c))); [| exact Hvol1].
      intros r W2 vol2 Hr Hvol2.
      rewrite (Htaps z r c Hz Hr Hc). cbn [bind]. now apply fill3_write. }
    exists out. split; [assumption |]. split; [assumption |].
    intros z r c Hz Hr Hc. apply (Hcells (z, r, c)).
    right. exists z. split; [lia |]. exists c. split; [lia |]. exists r. auto.
  - match goal with
    | |- context [for_range 0 depth ?body output] =>
        destruct (for_fill (fun vol => rect3 vol depth rows cols) cell3 F 0 depth body
                    (fun z k => exists r, 0 <= r < rows /\
                                  exists c, 0 <= c < cols /\ k = (z, r, c)))
          with (2 := Hinv0) as [out [Hrun [Hrect Hcells]]]
    end.
    { intros z W vol Hz Hvol.
      apply (for_fill (fun vol => rect3 vol depth rows cols) cell3 F 0 rows _
               (fun r k => exists c, 0 <= c < cols /\ k = (z, r, c))); [| exact Hvol].
      intros r W1 vol1 Hr Hvol1.
      apply (for_fill (fun vol => rect3 vol depth rows cols) cell3 F 0 cols _
               (fun c k => k = (z, r, c))); [| exact Hvol1].
      intros c W2 vol2 Hc Hvol2.
      rewrite (Htaps z r c Hz Hr Hc). cbn [bind]. now apply fill3_write. }
    exists out. split; [assumption |]. split; [assumption |].
    intros z r c Hz Hr Hc. apply (Hcells (z, r, c)).
    right. exists z. split; [lia |]. exists r. split; [lia |]. exists c. auto.
  - match goal with
    | |- context [for_range 0 rows ?body output] =>
        destruct (for_fill (fun vol => rect3 vol depth rows cols) cell3 F 0 rows body
                    (fun r k => exists c, 0 <= c < cols /\
                                  exists z, 0 <= z < depth /\ k = (z, r, c)))
          with (2 := Hinv0) as [out [Hrun [Hrect Hcells]]]
    end.
    { intros r W vol Hr Hvol.
      apply (for_fill (fun vol => rect3 vol depth rows cols) cell3 F 0 cols _
               (fun c k => exists z, 0 <= z < depth /\ k = (z, r, c))); [| exact Hvol].
      intros c W1 vol1 Hc Hvol1.
      apply (for_fill (fun vol => rect3 vol depth rows cols) cell3 F 0 depth _
               (fun z k => k = (z, r, c))); [| exact Hvol1].
      intros z W2 vol2 Hz Hvol2.
      rewrite (Htaps z r c Hz Hr Hc). cbn [bind]. now apply fill3_write. }
    exists out. split; [assumption |]. split; [assumption |].
    intros z r c Hz Hr Hc. apply (Hcells (z, r, c)).
    right. exists r. split; [lia |]. exists c. split; [lia |]. exists z. auto.
Qed.
End SweepCells.

(** * The Gaussian pipeline *)

(** ** Single-tap kernels *)

Section SingleTap.
Context {T : Type} `{Scalar T}.

Lemma rect3_map3 f (V : @Mat3D T) d r c : rect3 V d r c -> rect3 (map3 f V) d r c.
Proof.
  intros [Hd Hall]. unfold map3. split; [now rewrite vsize_map |].
  apply Forall_map. eapply Forall_impl; [| exact Hall].
  intros s [Hr Hrows]. split; [now rewrite vsize_map |].
  apply Forall_map. eapply Forall_impl; [| exact Hrows].
  intros row Hrow. now rewrite vsize_map.
Qed.

Lemma get3_map3 f (V : @Mat3D T) z a b :
  get3 (map3 f V) z a b = (v <- get3 V z a b ;; Ok (f v)).
Proof.
  unfold map3, get3, get2, Mat3D, Mat2D in *. rewrite (vget_map (map (map f)) V z).
  destruct (vget V z) as [s | |]; cbn [bind]; auto.
  rewrite (vget_map (map f) s a). destruct (vget s a) as [row | |]; cbn [bind]; auto.
  apply vget_map.
Qed.

Variables (V : @Mat3D T) (depth rows cols : Z).
Hypothesis Hrect : rect3 V depth rows cols.
Hypothesis Hdepth : 0 < depth.
Hypothesis Hrows : 0 < rows.
Hypothesis Hcols : 0 < cols.

(** Padding by nothing copies the volume. *)
Lemma pad3D_zero borderType cval : pad3D V [0; 0; 0] borderType cval = Ok V.
Proof.
  destruct (pad3D_spec V [0; 0; 0] borderType cval depth rows cols 0 0 [0])
    as [P [HP [HrectP Hcells]]]; auto; try (simpl; lia); try (split; intros; lia).
  rewrite HP. f_equal. cbn [pad_depth_of] in HrectP, Hcells.
  replace (depth + 2 * 0) with depth in * by lia.
  replace (rows + 2 * 0) with rows in * by lia.
  replace (cols + 2 * 0) with cols in * by lia.
  apply (get3_ext _ _ depth rows cols); auto.
  intros z a b Hz Ha Hb. rewrite Hcells by assumption. symmetry.
  exact (pad3D_cell_center V borderType cval depth rows cols 0 0 0 z a b
           Hrect Hrows Hcols Hz Ha Hb).
Qed.

(** A kernel of one tap [w] multiplies every sample by [w]. *)
Lemma correlate1d_single_tap (w : T) axis output borderType cval :
  0 <= axis <= 2 ->
  correlate1d V [w] axis output borderType cval = Ok (map3 (fun v => s_mul v w) V).
Proof.
  intros Haxis.
  assert (Hlen : vsize V = depth) by apply Hrect.
  unfold correlate1d, correlate1d_with.
  rewrite (vempty_false V) by lia. cbn [vempty orb]. rewrite Z.gtb_ltb.
  destruct (Z.ltb_spec axis 0); [lia |]. destruct (Z.ltb_spec 2 axis); [lia |].
  cbn [orb]. cbv zeta. change (vsize [w] / 2) with 0. change (vsize [w]) with 1.
  assert (Hvset : vset [0; 0; 0] axis 0 = Ok [0; 0; 0]).
  { assert (Hcases : axis = 0 \/ axis = 1 \/ axis = 2) by lia.
    destruct Hcases as [-> | [-> | ->]]; reflexivity. }
  rewrite Hvset. cbn [bind]. rewrite pad3D_zero. cbn [bind]. rewrite Hlen.
  destruct (slice_get V depth rows cols 0 Hrect ltac:(lia)) as [Hs0 [Hs0r Hs0c]].
  destruct (vget_ok (nth (Z.to_nat 0) V []) 0) as [r0 Hr0]; [lia |].
  assert (Hr0c : vsize r0 = cols) by exact (vget_Forall _ _ _ _ Hs0c Hr0).
  rewrite Hs0. cbn [bind]. rewrite Hr0. cbn [bind]. rewrite Hs0r, Hr0c.
  destruct (new3_ok depth rows cols s_zero) as [out0 [Hout0 Hrect0]]; try lia.
  rewrite Hout0. cbn [bind].
  change (kernel_symmetry [w] 0) with (@Ok (bool * bool) (true, true)). cbn [bind].
  change (vget [0; 0; 0] 0) with (Ok 0). cbn [bind].
  change (vget [0; 0; 0] 1) with (Ok 0). cbn [bind].
  change (vget [0; 0; 0] 2) with (Ok 0). cbn [bind].
  destruct (correlate_sweep_cells depth rows cols
              (fun k => s_mul (force s_zero (cell3 V k)) w)
              true true V [w] axis 0 1 0 0 0 Haxis) with (output := out0)
    as [out [Hrun [Hrect' Hcells]]]; auto.
  - intros z r c Hz Hr Hc.
    destruct (get3_ok V depth rows cols z r c Hrect Hz Hr Hc) as [v Hv].
    unfold cell3. cbn [fst snd]. rewrite Hv. cbn [force].
    unfold tap_at, tap_sum.
    destruct (axis =? 0); [| destruct (axis =? 1)];
      rewrite ?Z.add_0_r, ?Z.add_0_l, Hv; reflexivity.
  - rewrite Hrun. f_equal.
    apply (get3_ext _ _ depth rows cols); auto; [now apply rect3_map3 |].
    intros z r c Hz Hr Hc. rewrite Hcells, get3_map3 by assumption.
    destruct (get3_ok V depth rows cols z r c Hrect Hz Hr Hc) as [v Hv].
    unfold cell3. cbn [fst snd]. rewrite Hv. reflexivity.
Qed.
End SingleTap.

(** ** The Gaussian at sigma = 0 *)

Lemma mul_nan_r (x : float) : PrimFloat.mul x nan = nan.
Proof.
  apply Prim2SF_inj. rewrite mul_spec.
  change (Prim2SF nan) with S754_nan.
  unfold SF64mul, SFmul. destruct (Prim2SF x); reflexivity.
Qed.

Lemma map3_nan (V : @Mat3D float) :
  map3 (fun v => PrimFloat.mul v nan) V = map3 (fun _ => nan) V.
Proof.
  unfold map3. apply map_ext. intros s. apply map_ext. intros row. apply map_ext.
  exact mul_nan_r.
Qed.

Lemma map3_const_idem (x : float) (V : @Mat3D float) :
  map3 (fun _ => x) (map3 (fun _ => x) V) = map3 (fun _ => x) V.
Proof.
  unfold map3. rewrite map_map. apply map_ext. intros s.
  rewrite map_map. apply map_ext. intros row. now rewrite map_map.
Qed.

Section SigmaZero.
Variable exp : float -> float.
(** IEEE 754 and Annex F of the C standard: [exp(NaN)] is NaN. *)
Hypothesis exp_nan : exp nan = nan.

(** With sigma = 0 the exponent is -0.5 / 0 * 0 * 0 = -inf * 0 = NaN, and
    the single tap is NaN / NaN. *)
Lemma gaussian_kernel1d_sigma_zero : gaussian_kernel1d exp 0 0 = Ok [nan].
Proof.
  assert (Hrun : gaussian_kernel1d exp 0 0 =
                 Ok [PrimFloat.div (exp nan) (PrimFloat.add 0 (exp nan))])
    by (vm_compute; reflexivity).
  rewrite Hrun, exp_nan. reflexivity.
Qed.

Lemma gaussian_filter1d_sigma_zero (input output : Mat3D) axis borderType cval :
  gaussian_filter1d exp input 0 axis output borderType cval =
  correlate1d input [nan] axis output borderType cval.
Proof.
  unfold gaussian_filter1d.
  change (double_to_int (PrimFloat.add (PrimFloat.mul (int_to_double 4) 0) 0.5%float))
    with (@Ok Z 0).
  cbn [bind]. rewrite gaussian_kernel1d_sigma_zero. reflexivity.
Qed.

(** C8 (the code departs from the claim). For every non-empty rectangular
    volume V and every border mode, [gaussian_filter] with sigma = 0 has
    radius 0 and the single-tap kernel [NaN] (not [1]), and returns a
    volume of V's shape in which every sample is NaN, not V. *)
Theorem gaussian_filter_sigma_zero (V : Mat3D) borderType cval depth rows cols :
  rect3 V depth rows cols -> 0 < depth -> 0 < rows -> 0 < cols ->
  gaussian_filter exp V 0 borderType cval = Ok (map3 (fun _ => nan) V).
Proof.
  intros Hrect Hd Hr Hc.
  assert (Hnan : rect3 (map3 (fun _ => nan) V) depth rows cols) by now apply rect3_map3.
  unfold gaussian_filter. rewrite (vempty_false V) by (destruct Hrect; lia).
  cbv zeta. unfold for_range.
  change (Z.to_nat (3 - 0)) with 3%nat. cbn [for_steps].
  rewrite gaussian_filter1d_sigma_zero.
  rewrite (correlate1d_single_tap V depth rows cols Hrect Hd Hr Hc) by lia.
  cbn [bind]. rewrite map3_nan.
  rewrite gaussian_filter1d_sigma_zero.
  rewrite (correlate1d_single_tap _ depth rows cols Hnan Hd Hr Hc) by (simpl; lia).
  cbn [bind]. rewrite map3_nan, map3_const_idem.
  rewrite gaussian_filter1d_sigma_zero.
  rewrite (correlate1d_single_tap _ depth rows cols Hnan Hd Hr Hc) by (simpl; lia).
  cbn [bind]. now rewrite map3_nan, map3_const_idem.
Qed.
End SigmaZero.

(** C8, witness: a 1 x 2 x 2 volume under Replicate. *)
Lemma gaussian_filter_sigma_zero_witness :
  gaussian_filter exp_series2 [[[1; 2]; [3; 4]]]%float 0 1 0
  = Ok (map3 (fun _ => nan) [[[1; 2]; [3; 4]]]%float).
Proof.
  apply (gaussian_filter_sigma_zero exp_series2 eq_refl _ 1 0%float 1 2 2).
  - split; [reflexivity |]. repeat constructor.
  - lia.
  - lia.
  - lia.
Defined.

(** * Further properties of the padding and correlation stages *)

(** X1. [correlate1d] returns a volume of the same shape as its input: for
    every non-empty rectangular volume, every kernel of odd length 2k+1,
    every axis in {0,1,2} and every border mode with the pad k along the
    filtered axis within the single-bounce regime. *)
Theorem correlate1d_same_shape {T : Type} `{Scalar T} (input output : @Mat3D T)
    (weights : list T) (axis borderType : Z) (cval : T) (k depth rows cols : Z) :
  0 <= k -> vsize weights = 2 * k + 1 ->
  rect3 input depth rows cols -> 0 < depth -> 0 < rows -> 0 < cols ->
  0 <= axis <= 2 ->
  (axis = 0 -> bounce_ok borderType k rows) ->
  (axis = 1 -> bounce_ok borderType k cols) ->
  exists out,
    correlate1d input weights axis output borderType cval = Ok out /\
    rect3 out depth rows cols.
Proof.
  intros Hk Hsize Hrect Hd Hr Hc Haxis Hb0 Hb1.
  unfold correlate1d.
  apply (correlate1d_with_total weights k Hk Hsize); auto.
  now apply kernel_symmetry_total.
Qed.

(** X1, witness: the smoothing kernel {1,2,1} along the rows of a 1 x 2 x 2
    volume of doubles under Reflect. *)
Lemma correlate1d_same_shape_witness :
  exists out,
    correlate1d [[[1; 2]; [3; 4]]]%float [1; 2; 1]%float 0 [] 2 0%float = Ok out /\
    rect3 out 1 2 2.
Proof.
  apply (correlate1d_same_shape [[[1; 2]; [3; 4]]]%float [] [1; 2; 1]%float
           0 2 0%float 1 1 2 2).
  - lia.
  - reflexivity.
  - split; [reflexivity |]. repeat constructor.
  - lia.
  - lia.
  - lia.
  - lia.
  - intros. split; intros; lia.
  - intros. split; intros; lia.
Defined.

(** X2. [pad2D] returns a result of shape (rows + 2 pad_row) x
    (cols + 2 pad_col) whose central block is a direct copy of the input
    (pads within the single-bounce regime of the mode). *)
Theorem pad2D_central_copy {T : Type} `{Scalar T} (input : @Mat2D T)
    (pad_row pad_col borderType : Z) (cval : T) (rows cols : Z) :
  rect input rows cols -> 0 < rows -> 0 < cols ->
  0 <= pad_row -> 0 <= pad_col ->
  bounce_ok borderType pad_row rows ->
  bounce_ok borderType pad_col cols ->
  exists R,
    pad2D input pad_row pad_col borderType cval = Ok R /\
    rect R (rows + 2 * pad_row) (cols + 2 * pad_col) /\
    forall i j, 0 <= i < rows -> 0 <= j < cols ->
      get2 R (pad_row + i) (pad_col + j) = get2 input i j.
Proof.
  intros Hrect Hr Hc Hpr Hpc Hbr Hbc.
  destruct (pad2D_spec input pad_row pad_col borderType cval rows cols)
    as [R [HR [HrectR Hcells]]]; auto.
  exists R. split; [assumption |]. split; [assumption |].
  intros i j Hi Hj. rewrite Hcells by lia.
  pose proof (cell_center input pad_row pad_col borderType cval rows cols
                Hrect Hr i j Hi Hj) as Hcenter.
  cbn [fst snd] in Hcenter. now rewrite Hcenter.
Qed.

(** X2, witness: a 2 x 2 slice padded by one row and two columns under
    Replicate. *)
Lemma pad2D_central_copy_witness :
  exists R,
    pad2D [[1; 2]; [3; 4]]%float 1 2 1 0%float = Ok R /\
    rect R (2 + 2 * 1) (2 + 2 * 2) /\
    forall i j, 0 <= i < 2 -> 0 <= j < 2 ->
      get2 R (1 + i) (2 + j) = get2 [[1; 2]; [3; 4]]%float i j.
Proof.
  apply (pad2D_central_copy [[1; 2]; [3; 4]]%float 1 2 1 0%float 2 2).
  - split; [reflexivity |]. repeat constructor.
  - lia.
  - lia.
  - lia.
  - lia.
  - split; intros; lia.
  - split; intros; lia.
Defined.

(** X3. Replicate border, degenerate volume: the single-sample row [5]
    padded by 2 under Replicate is [5,5,5,5,5]. *)
Theorem pad2D_single_sample_replicate (cval : float) :
  pad2D [[5]]%float 0 2 1 cval = Ok [[5; 5; 5; 5; 5]]%float.
Proof. reflexivity. Qed.

(** X4. Under Constant every border cell of [pad2D] holds the fill
    value. *)
Theorem pad2D_constant_border {T : Type} `{Scalar T} (input : @Mat2D T)
    (pad_row pad_col : Z) (cval : T) (rows cols : Z) :
  rect input rows cols -> 0 < rows -> 0 < cols ->
  0 <= pad_row -> 0 <= pad_col ->
  exists R,
    pad2D input pad_row pad_col 0 cval = Ok R /\
    forall a b, 0 <= a < rows + 2 * pad_row -> 0 <= b < cols + 2 * pad_col ->
      a < pad_row \/ pad_row + rows <= a \/ b < pad_col \/ pad_col + cols <= b ->
      get2 R a b = Ok cval.
Proof.
  intros Hrect Hr Hc Hpr Hpc.
  destruct (pad2D_spec input pad_row pad_col 0 cval rows cols)
    as [R [HR [HrectR Hcells]]]; auto; try (split; intros; discriminate).
  exists R. split; [assumption |].
  intros a b Ha Hb Hborder. rewrite Hcells by assumption. f_equal.
  unfold pad2D_cell, getBorderValue. rewrite !Z.geb_leb.
  rewrite (vsize_first_row input rows cols Hrect Hr). rewrite (proj1 Hrect).
  destruct (Z.ltb_spec a pad_row).
  { destruct (Z.leb_spec 0 (- a - 1)); [lia | reflexivity]. }
  destruct (Z.leb_spec (pad_row + rows) a).
  { destruct (Z.leb_spec 0 (- (rows + 2 * pad_row - 1 - a) - 1)); [lia | reflexivity]. }
  destruct (Z.ltb_spec b pad_col).
  { destruct (Z.leb_spec 0 (- b - 1)); [lia |]. now rewrite !andb_false_r. }
  destruct (Z.leb_spec (pad_col + cols) b); [| lia].
  destruct (Z.leb_spec 0 (- (cols + 2 * pad_col - 1 - b) - 1)); [lia |].
  now rewrite !andb_false_r.
Qed.

(** X4, witness: a 2 x 2 slice padded by one row and one column with the
    fill value 9. *)
Lemma pad2D_constant_border_witness :
  exists R,
    pad2D [[1; 2]; [3; 4]]%float 1 1 0 9%float = Ok R /\
    forall a b, 0 <= a < 2 + 2 * 1 -> 0 <= b < 2 + 2 * 1 ->
      a < 1 \/ 1 + 2 <= a \/ b < 1 \/ 1 + 2 <= b ->
      get2 R a b = Ok 9%float.
Proof.
  apply (pad2D_constant_border [[1; 2]; [3; 4]]%float 1 1 9%float 2 2).
  - split; [reflexivity |]. repeat constructor.
  - lia.
  - lia.
  - lia.
  - lia.
Defined.

(** * Flat data and the sources of padded samples *)

Section FlatFacts.
Context {T : Type} `{Scalar T}.

Lemma Forall_repeat {A : Type} (P : A -> Prop) (x : A) n : P x -> Forall P (repeat x n).
Proof. intros Hx. induction n; simpl; constructor; auto. Qed.

Lemma rect_flat2 rows cols (v : T) : 0 <= rows -> 0 <= cols -> rect (flat2 rows cols v) rows cols.
Proof.
  intros Hr Hc. unfold flat2. split; [now apply vsize_repeat |].
  apply Forall_repeat. now apply vsize_repeat.
Qed.

Lemma get2_flat2 rows cols (v : T) i j :
  0 <= i < rows -> 0 <= j < cols -> get2 (flat2 rows cols v) i j = Ok v.
Proof.
  intros Hi Hj. unfold get2, flat2. rewrite vget_repeat by assumption. cbn [bind].
  now apply vget_repeat.
Qed.

Lemma rect3_flat3 depth rows cols (v : T) :
  0 <= depth -> 0 <= rows -> 0 <= cols -> rect3 (flat3 depth rows cols v) depth rows cols.
Proof.
  intros Hd Hr Hc. unfold flat3. split; [now apply vsize_repeat |].
  apply Forall_repeat. now apply rect_flat2.
Qed.

Lemma get3_flat3 depth rows cols (v : T) z i j :
  0 <= z < depth -> 0 <= i < rows -> 0 <= j < cols ->
  get3 (flat3 depth rows cols v) z i j = Ok v.
Proof.
  intros Hz Hi Hj. unfold get3, flat3. rewrite vget_repeat by assumption. cbn [bind].
  now apply get2_flat2.
Qed.

(** A readable cell lies inside the matrix. *)
Lemma get2_bounds (m : @Mat2D T) nr nc i j x :
  rect m nr nc -> get2 m i j = Ok x -> 0 <= i < nr /\ 0 <= j < nc.
Proof.
  intros [Hr Hc] Hg. unfold get2 in Hg.
  destruct (vget m i) as [row | |] eqn:Hrow; cbn [bind] in Hg; try discriminate.
  pose proof (vget_bounds _ _ _ Hrow) as Hi.
  pose proof (vget_bounds _ _ _ Hg) as Hj.
  pose proof (vget_Forall _ _ _ _ Hc Hrow) as Hlen. cbv beta in Hlen.
  split; congruence || lia.
Qed.

Lemma get3_bounds (vol : @Mat3D T) nd nr nc z i j x :
  rect3 vol nd nr nc -> get3 vol z i j = Ok x -> 0 <= z < nd /\ 0 <= i < nr /\ 0 <= j < nc.
Proof.
  intros [Hd Hs] Hg. unfold get3 in Hg.
  destruct (vget vol z) as [s | |] eqn:Hslice; cbn [bind] in Hg; try discriminate.
  pose proof (vget_bounds _ _ _ Hslice) as Hz.
  pose proof (vget_Forall _ _ _ _ Hs Hslice) as Hrect. cbv beta in Hrect.
  pose proof (get2_bounds s nr nc i j x Hrect Hg).
  split; [lia | assumption].
Qed.
End FlatFacts.

(** ** Where the padded samples come from *)

Section BorderSources.
Context {T : Type} `{Scalar T}.

(** A border value is the fill value (Constant only) or a sample of the
    input. *)
Lemma getBorderValue_source (input : @Mat2D T) row col rows cols borderType cval w :
  getBorderValue input row col rows cols borderType cval = Ok w ->
  (borderType = 0 /\ w = cval) \/ exists i j, get2 input i j = Ok w.
Proof.
  unfold getBorderValue.
  destruct ((row >=? 0) && (row <? rows) && (col >=? 0) && (col <? cols)).
  - intros Hg. right. eauto.
  - destruct (Z.eqb_spec borderType 0) as [E | N].
    + intros Hg. left. split; [assumption | congruence].
    + intros Hg. right. eauto.
Qed.

Variables (input : @Mat2D T) (pad_row pad_col borderType : Z) (cval : T) (rows cols : Z).
Hypothesis Hrect : rect input rows cols.
Hypothesis Hrows : 0 < rows.
Hypothesis Hcols : 0 < cols.
Hypothesis Hpr : 0 <= pad_row.
Hypothesis Hpc : 0 <= pad_col.
Hypothesis Hbr : bounce_ok borderType pad_row rows.
Hypothesis Hbc : bounce_ok borderType pad_col cols.

(** Every cell of the padded matrix is the fill value (Constant only) or
    a sample of the input. *)
Lemma pad2D_cell_source a b :
  0 <= a < rows + 2 * pad_row -> 0 <= b < cols + 2 * pad_col ->
  (borderType = 0 /\ pad2D_cell input pad_row pad_col borderType cval a b = cval) \/
  exists i j, get2 input i j = Ok (pad2D_cell input pad_row pad_col borderType cval a b).
Proof.
  intros Ha Hb.
  destruct (Z_lt_le_dec a pad_row) as [Htop | Hntop].
  { destruct (cell_top_bottom input pad_row pad_col borderType cval rows cols
                Hrect Hrows Hcols Hbr Hbc a b) as [v [Hv [Hcell _]]]; [lia | lia |].
    cbn [fst snd] in Hcell. rewrite <- Hcell.
    exact (getBorderValue_source _ _ _ _ _ _ _ _ Hv). }
  destruct (Z_le_gt_dec (pad_row + rows) a) as [Hbot | Hnbot].
  { destruct (cell_top_bottom input pad_row pad_col borderType cval rows cols
                Hrect Hrows Hcols Hbr Hbc (rows + 2 * pad_row - 1 - a) b)
      as [v [Hv [_ Hcell]]]; [lia | lia |].
    cbn [fst snd] in Hcell.
    replace (rows + 2 * pad_row - 1 - (rows + 2 * pad_row - 1 - a)) with a in Hcell by lia.
    rewrite <- Hcell. exact (getBorderValue_source _ _ _ _ _ _ _ _ Hv). }
  destruct (Z_lt_le_dec b pad_col) as [Hleft | Hnleft].
  { destruct (cell_left_right input pad_row pad_col borderType cval rows cols
                Hrect Hrows Hcols Hbr Hbc a b) as [v [Hv [Hcell _]]]; [lia | lia |].
    cbn [fst snd] in Hcell. rewrite <- Hcell.
    exact (getBorderValue_source _ _ _ _ _ _ _ _ Hv). }
  destruct (Z_le_gt_dec (pad_col + cols) b) as [Hright | Hnright].
  { destruct (cell_left_right input pad_row pad_col borderType cval rows cols
                Hrect Hrows Hcols Hbr Hbc a (cols + 2 * pad_col - 1 - b))
      as [v [Hv [_ Hcell]]]; [lia | lia |].
    cbn [fst snd] in Hcell.
    replace (cols + 2 * pad_col - 1 - (cols + 2 * pad_col - 1 - b)) with b in Hcell by lia.
    rewrite <- Hcell. exact (getBorderValue_source _ _ _ _ _ _ _ _ Hv). }
  right. exists (a - pad_row), (b - pad_col).
  pose proof (cell_center input pad_row pad_col borderType cval rows cols Hrect Hrows
                (a - pad_row) (b - pad_col)) as Hcenter.
  cbn [fst snd] in Hcenter.
  replace (pad_row + (a - pad_row)) with a in Hcenter by lia.
  replace (pad_col + (b - pad_col)) with b in Hcenter by lia.
  apply Hcenter; lia.
Qed.
End BorderSources.

Section VolumeSources.
Context {T : Type} `{Scalar T}.

Variables (input : @Mat3D T) (borderType : Z) (cval : T).
Variables (depth rows cols pad_row pad_col pad_depth : Z).
Hypothesis Hrect : rect3 input depth rows cols.
Hypothesis Hdepth : 0 < depth.
Hypothesis Hrows : 0 < rows.
Hypothesis Hcols : 0 < cols.
Hypothesis Hpr : 0 <= pad_row.
Hypothesis Hpc : 0 <= pad_col.
Hypothesis Hbr : bounce_ok borderType pad_row rows.
Hypothesis Hbc : bounce_ok borderType pad_col cols.

(** Every cell of the padded volume is the fill value (Constant only) or a
    sample of the input. *)
Lemma pad3D_cell_source z a b :
  0 <= a < rows + 2 * pad_row -> 0 <= b < cols + 2 * pad_col ->
  (borderType = 0 /\
   pad3D_cell input pad_row pad_col pad_depth borderType cval z a b = cval) \/
  exists z' i j,
    get3 input z' i j = Ok (pad3D_cell input pad_row pad_col pad_depth borderType cval z a b).
Proof.
  intros Ha Hb.
  assert (Hslice : forall src, 0 <= src < depth ->
            (borderType = 0 /\
             pad2D_cell (nth (Z.to_nat src) input []) pad_row pad_col borderType cval a b = cval) \/
            exists z' i j,
              get3 input z' i j =
              Ok (pad2D_cell (nth (Z.to_nat src) input []) pad_row pad_col borderType cval a b)).
  { intros src Hsrc.
    destruct (slice_get input depth rows cols src Hrect Hsrc) as [Hget Hrs].
    destruct (pad2D_cell_source (nth (Z.to_nat src) input []) pad_row pad_col borderType cval
                rows cols Hrs Hrows Hcols Hbr Hbc a b Ha Hb) as [Hc | [i [j Hij]]].
    - left. exact Hc.
    - right. exists src, i, j. unfold get3. rewrite Hget. exact Hij. }
  unfold pad3D_cell. rewrite (proj1 Hrect).
  destruct ((pad_depth <=? z) && (z <? pad_depth + depth)) eqn:Hin.
  - apply andb_prop in Hin as [Hlo Hhi].
    apply Z.leb_le in Hlo. apply Z.ltb_lt in Hhi. apply Hslice. lia.
  - destruct (Z.eqb_spec borderType 0) as [E | N].
    + left. split; [assumption | reflexivity].
    + apply Hslice. pose proof (clamp_in_range (getMirrorIndex (z - pad_depth) depth borderType)
                                  0 (depth - 1)). lia.
Qed.
End VolumeSources.

(** * What [correlate1d] computes at each coordinate *)

Section CorrelateCells.
Context {T : Type} `{Scalar T}.
Variables (weights : list T) (k : Z).
Hypothesis Hk : 0 <= k.
Hypothesis Hsize : vsize weights = 2 * k + 1.

(** Two lines that agree on the window give the same sum. *)
Lemma tap_sum_window symmetric anti_symmetric (line1 line2 : Z -> outcome T) c1 c2 :
  (forall d, - k <= d <= k -> line1 (c1 + d) = line2 (c2 + d)) ->
  tap_sum symmetric anti_symmetric line1 weights k (2 * k + 1) c1 =
  tap_sum symmetric anti_symmetric line2 weights k (2 * k + 1) c2.
Proof.
  intros Hwin.
  assert (Hc : line1 c1 = line2 c2).
  { specialize (Hwin 0 ltac:(lia)). now rewrite !Z.add_0_r in Hwin. }
  assert (Hm : forall i, 1 <= i < k + 1 -> line1 (c1 - i) = line2 (c2 - i)).
  { intros i Hi. specialize (Hwin (- i) ltac:(lia)). now rewrite !Z.add_opp_r in Hwin. }
  assert (Hp : forall i, 1 <= i < k + 1 -> line1 (c1 + i) = line2 (c2 + i))
    by (intros i Hi; apply Hwin; lia).
  unfold tap_sum. destruct symmetric; [| destruct anti_symmetric].
  - rewrite Hc. destruct (line2 c2); cbn [bind]; auto.
    destruct (vget weights k); cbn [bind]; auto.
    apply for_range_ext. intros i t Hi. now rewrite (Hm i Hi), (Hp i Hi).
  - rewrite Hc. destruct (line2 c2); cbn [bind]; auto.
    destruct (vget weights k); cbn [bind]; auto.
    apply for_range_ext. intros i t Hi. now rewrite (Hm i Hi), (Hp i Hi).
  - apply for_range_ext. intros i t Hi.
    replace (c1 - k + i) with (c1 + (i - k)) by lia.
    replace (c2 - k + i) with (c2 + (i - k)) by lia.
    rewrite (Hwin (i - k)) by lia. reflexivity.
Qed.

Lemma axis_pads_set axis :
  0 <= axis <= 2 ->
  vset [0; 0; 0] axis k = Ok [axis_pad axis 0 k; axis_pad axis 1 k; axis_pad axis 2 k].
Proof.
  intros Haxis. assert (Hcases : axis = 0 \/ axis = 1 \/ axis = 2) by lia.
  destruct Hcases as [-> | [-> | ->]]; reflexivity.
Qed.

Lemma axis_pad_bounce axis a borderType size :
  0 < size -> (axis = a -> bounce_ok borderType k size) ->
  bounce_ok borderType (axis_pad axis a k) size.
Proof.
  intros Hpos Hreg. unfold axis_pad. destruct (Z.eqb_spec axis a) as [E | N]; [auto |].
  split; intros; lia.
Qed.

Lemma axis_pad_nonneg axis a : 0 <= axis_pad axis a k.
Proof. unfold axis_pad. destruct (axis =? a); lia. Qed.

(** What [correlate1d] stores in each cell: the sum over the window of the
    padded volume. *)
Lemma correlate1d_with_cells (paths : list T -> Z -> outcome (bool * bool))
    (input output : @Mat3D T) axis borderType cval depth rows cols symmetric anti_symmetric :
  paths weights k = Ok (symmetric, anti_symmetric) ->
  rect3 input depth rows cols -> 0 < depth -> 0 < rows -> 0 < cols ->
  0 <= axis <= 2 ->
  (axis = 0 -> bounce_ok borderType k rows) ->
  (axis = 1 -> bounce_ok borderType k cols) ->
  exists padded out,
    pad3D input [axis_pad axis 0 k; axis_pad axis 1 k; axis_pad axis 2 k] borderType cval
      = Ok padded /\
    correlate1d_with paths input weights axis output borderType cval = Ok out /\
    rect3 out depth rows cols /\
    forall z r c, 0 <= z < depth -> 0 <= r < rows -> 0 <= c < cols ->
      exists v,
        tap_at symmetric anti_symmetric padded weights axis k (2 * k + 1)
          (axis_pad axis 0 k) (axis_pad axis 1 k) (axis_pad axis 2 k) z r c = Ok v /\
        get3 out z r c = Ok v.
Proof.
  intros Hflags Hrect Hd Hr Hc Haxis Hb0 Hb1.
  assert (Hlen : vsize input = depth) by apply Hrect.
  assert (Hhalf : vsize weights / 2 = k).
  { rewrite Hsize. symmetry. apply (Z.div_unique_pos (2 * k + 1) 2 k 1); lia. }
  set (p0 := axis_pad axis 0 k). set (p1 := axis_pad axis 1 k). set (p2 := axis_pad axis 2 k).
  assert (Hp0 : 0 <= p0) by apply axis_pad_nonneg.
  assert (Hp1 : 0 <= p1) by apply axis_pad_nonneg.
  assert (Hp2 : 0 <= p2) by apply axis_pad_nonneg.
  destruct (pad3D_spec input [p0; p1; p2] borderType cval depth rows cols p0 p1 [p2])
    as [padded [Hpad [Hpadded _]]]; auto; try (now apply axis_pad_bounce).
  cbn [pad_depth_of] in Hpadded.
  destruct (slice_get input depth rows cols 0 Hrect ltac:(lia)) as [Hs0 [Hs0r Hs0c]].
  destruct (vget_ok (nth (Z.to_nat 0) input []) 0) as [r0 Hr0]; [lia |].
  assert (Hr0c : vsize r0 = cols) by exact (vget_Forall _ _ _ _ Hs0c Hr0).
  destruct (new3_ok depth rows cols s_zero) as [out0 [Hout0 Hrect0]]; try lia.
  assert (Htaps : forall z r c, 0 <= z < depth -> 0 <= r < rows -> 0 <= c < cols ->
            tap_at symmetric anti_symmetric padded weights axis k (2 * k + 1) p0 p1 p2 z r c =
            Ok (force s_zero
                  (tap_at symmetric anti_symmetric padded weights axis k (2 * k + 1)
                     p0 p1 p2 (fst (fst (z, r, c))) (snd (fst (z, r, c))) (snd (z, r, c))))).
  { intros z r c Hz Hrr Hcc. cbn [fst snd].
    assert (Hex : exists v, tap_at symmetric anti_symmetric padded weights axis k (2 * k + 1)
                              p0 p1 p2 z r c = Ok v).
    { assert (Hpv : (axis = 0 -> p0 = k /\ p1 = 0 /\ p2 = 0) /\
                    (axis = 1 -> p0 = 0 /\ p1 = k /\ p2 = 0) /\
                    (axis = 2 -> p0 = 0 /\ p1 = 0 /\ p2 = k)).
      { split; [| split]; intros E; unfold p0, p1, p2; rewrite E; repeat split. }
      destruct Hpv as [Hv0 [Hv1 Hv2]].
      unfold tap_at.
      destruct (Z.eqb_spec axis 0) as [E0 | N0];
        [| destruct (Z.eqb_spec axis 1) as [E1 | N1]].
      - specialize (Hv0 E0).
        apply (tap_sum_total weights k Hk Hsize). intros t Ht.
        apply (get3_ok padded _ _ _ _ _ _ Hpadded); lia.
      - specialize (Hv1 E1).
        apply (tap_sum_total weights k Hk Hsize). intros t Ht.
        apply (get3_ok padded _ _ _ _ _ _ Hpadded); lia.
      - assert (E2 : axis = 2) by lia. specialize (Hv2 E2).
        apply (tap_sum_total weights k Hk Hsize). intros t Ht.
        apply (get3_ok padded _ _ _ _ _ _ Hpadded); lia. }
    destruct Hex as [v Hv]. rewrite Hv. reflexivity. }
  destruct (correlate_sweep_cells depth rows cols
              (fun q => force s_zero
                 (tap_at symmetric anti_symmetric padded weights axis k (2 * k + 1)
                    p0 p1 p2 (fst (fst q)) (snd (fst q)) (snd q)))
              symmetric anti_symmetric padded weights axis k (2 * k + 1) p0 p1 p2
              Haxis Htaps out0 Hrect0) as [out [Hrun [Hrect' Hcells]]].
  exists padded, out. split; [exact Hpad |]. split; [| split; [exact Hrect' |]].
  - unfold correlate1d_with.
    rewrite (vempty_false input) by lia. rewrite (vempty_false weights) by lia.
    cbn [orb]. rewrite Z.gtb_ltb.
    destruct (Z.ltb_spec axis 0); [lia |]. destruct (Z.ltb_spec 2 axis); [lia |].
    cbn [orb]. cbv zeta. rewrite Hhalf, Hsize, Hlen.
    rewrite (axis_pads_set axis Haxis). cbn [bind]. fold p0 p1 p2.
    rewrite Hpad. cbn [bind]. rewrite Hs0. cbn [bind]. rewrite Hr0. cbn [bind].
    rewrite Hs0r, Hr0c, Hout0. cbn [bind]. rewrite Hflags. cbn [bind].
    change (vget [p0; p1; p2] 0) with (Ok p0). cbn [bind].
    change (vget [p0; p1; p2] 1) with (Ok p1). cbn [bind].
    change (vget [p0; p1; p2] 2) with (Ok p2). cbn [bind].
    exact Hrun.
  - intros z r c Hz Hrr Hcc. eexists. split; [apply (Htaps z r c Hz Hrr Hcc) |].
    apply (Hcells z r c Hz Hrr Hcc).
Qed.
End CorrelateCells.

(** * Binary64 arithmetic on fixed-point data

    Sums and products of doubles that hold integers scaled by a power of
    two are computed without rounding as long as the result fits in the 53
    bits of the mantissa. *)

(** ** Binary digits *)

Lemma dig_pos p : 1 <= dig p.
Proof. unfold dig. lia. Qed.

Lemma dig_bounds p : 2 ^ (dig p - 1) <= Zpos p < 2 ^ dig p.
Proof.
  induction p as [p IH | p IH |].
  - unfold dig in *. cbn [digits2_pos]. rewrite Pos2Z.inj_succ.
    replace (Z.succ (Zpos (digits2_pos p)) - 1) with (Z.succ (Zpos (digits2_pos p) - 1)) by lia.
    rewrite !Z.pow_succ_r by lia. lia.
  - unfold dig in *. cbn [digits2_pos]. rewrite Pos2Z.inj_succ.
    replace (Z.succ (Zpos (digits2_pos p)) - 1) with (Z.succ (Zpos (digits2_pos p) - 1)) by lia.
    rewrite !Z.pow_succ_r by lia. lia.
  - cbn. lia.
Qed.

Lemma dig_unique p d : 2 ^ (d - 1) <= Zpos p < 2 ^ d -> dig p = d.
Proof.
  intros [Hlo Hhi]. pose proof (dig_bounds p) as [Hlo' Hhi']. pose proof (dig_pos p).
  assert (Hd : 1 <= d).
  { destruct (Z_lt_le_dec d 1) as [Hlt | Hge]; [| assumption].
    assert (2 ^ d <= 2 ^ 0).
    { destruct (Z_lt_le_dec d 0); [rewrite Z.pow_neg_r by assumption; simpl; lia |].
      apply Z.pow_le_mono_r; lia. }
    simpl in *. lia. }
  destruct (Z.lt_trichotomy (dig p) d) as [Hlt | [Heq | Hgt]]; [| assumption |].
  - assert (2 ^ dig p <= 2 ^ (d - 1)) by (apply Z.pow_le_mono_r; lia). lia.
  - assert (2 ^ d <= 2 ^ (dig p - 1)) by (apply Z.pow_le_mono_r; lia). lia.
Qed.

Lemma dig_shift p m k : 0 <= k -> Zpos m = Zpos p * 2 ^ k -> dig m = dig p + k.
Proof.
  intros Hk Hm. pose proof (dig_bounds p) as [Hlo Hhi]. pose proof (dig_pos p).
  apply dig_unique. rewrite Hm.
  replace (dig p + k - 1) with (dig p - 1 + k) by lia.
  rewrite !Z.pow_add_r by lia.
  assert (0 < 2 ^ k) by (apply Z.pow_pos_nonneg; lia).
  split; [apply Z.mul_le_mono_nonneg_r | apply Z.mul_lt_mono_pos_r]; lia.
Qed.

Lemma dig_le p b : 0 <= b -> Zpos p < 2 ^ b -> dig p <= b.
Proof.
  intros Hb Hp. pose proof (dig_bounds p) as [Hlo _]. pose proof (dig_pos p).
  destruct (Z_le_gt_dec (dig p) b) as [Hle | Hgt]; [assumption |].
  assert (2 ^ b <= 2 ^ (dig p - 1)) by (apply Z.pow_le_mono_r; lia). lia.
Qed.

Lemma dig_mul_lower p q : dig p + dig q - 1 <= dig (p * q).
Proof.
  pose proof (dig_bounds p) as [Hp _]. pose proof (dig_bounds q) as [Hq _].
  pose proof (dig_bounds (p * q)) as [_ Hpq].
  pose proof (dig_pos p). pose proof (dig_pos q). pose proof (dig_pos (p * q)).
  rewrite Pos2Z.inj_mul in Hpq.
  assert (Hprod : 2 ^ (dig p - 1) * 2 ^ (dig q - 1) <= Zpos p * Zpos q)
    by (apply Z.mul_le_mono_nonneg; try lia; apply Z.pow_nonneg; lia).
  rewrite <- Z.pow_add_r in Hprod by lia.
  destruct (Z_le_gt_dec (dig p + dig q - 1) (dig (p * q))) as [Hle | Hgt]; [assumption |].
  assert (2 ^ dig (p * q) <= 2 ^ (dig p - 1 + (dig q - 1))) by (apply Z.pow_le_mono_r; lia).
  lia.
Qed.

(** ** Shifting out zero bits *)

Lemma iter_pos_nat {A : Type} (f : A -> A) p x :
  iter_pos f p x = Nat.iter (Pos.to_nat p) f x.
Proof.
  revert x. induction p as [p IH | p IH |]; intros x; cbn [iter_pos].
  - rewrite !IH, Pos2Nat.inj_xI.
    replace (Datatypes.S (2 * Pos.to_nat p)) with (Pos.to_nat p + Pos.to_nat p + 1)%nat by lia.
    rewrite !Nat.iter_add. reflexivity.
  - rewrite !IH, Pos2Nat.inj_xO.
    replace (2 * Pos.to_nat p)%nat with (Pos.to_nat p + Pos.to_nat p)%nat by lia.
    now rewrite Nat.iter_add.
  - reflexivity.
Qed.

Lemma iter_shr_1_exact (k : nat) m0 m :
  Zpos m = Zpos m0 * 2 ^ Z.of_nat k ->
  Nat.iter k shr_1 (Build_shr_record (Zpos m) false false) =
  Build_shr_record (Zpos m0) false false.
Proof.
  revert m. induction k as [| k IH]; intros m Hm.
  - cbn in Hm. cbn. f_equal. lia.
  - rewrite Nat2Z.inj_succ, Z.pow_succ_r in Hm by lia.
    rewrite Nat.iter_succ_r.
    destruct m as [m' | m' |]; try lia.
    cbn [shr_1 orb]. apply IH. lia.
Qed.

Lemma shr_exact m0 m e n :
  0 <= n -> Zpos m = Zpos m0 * 2 ^ n ->
  shr (Build_shr_record (Zpos m) false false) e n =
  (Build_shr_record (Zpos m0) false false, e + n).
Proof.
  intros Hn Hm. unfold shr. destruct n as [| p | p]; try lia.
  - cbn in Hm. rewrite Z.add_0_r. do 2 f_equal. lia.
  - rewrite iter_pos_nat. f_equal. apply iter_shr_1_exact.
    now rewrite positive_nat_Z.
Qed.

(** ** Rounding a representable value *)

Lemma fexp_eq x : fexp prec emax x = Z.max (x - 53) (-1074).
Proof. reflexivity. Qed.

(** Rounding the canonical mantissa [m0] at exponent [e0], given with
    [e0 - e] further zero bits at exponent [e], returns it unchanged. *)
Lemma binary_round_aux_exact s m e m0 e0 :
  e <= e0 -> Zpos m = Zpos m0 * 2 ^ (e0 - e) ->
  fexp prec emax (dig m0 + e0) = e0 -> e0 <= 971 ->
  binary_round_aux prec emax s (Zpos m) e loc_Exact = S754_finite s m0 e0.
Proof.
  intros He Hm Hcanon Hmax.
  assert (Hdig : dig m + e = dig m0 + e0) by (rewrite (dig_shift m0 m (e0 - e)); lia).
  unfold binary_round_aux, shr_fexp.
  change (Zdigits2 (Zpos m)) with (dig m). rewrite Hdig, Hcanon.
  cbn [shr_record_of_loc]. rewrite (shr_exact m0 m e (e0 - e)) by (assumption || lia).
  cbn [shr_m loc_of_shr_record round_nearest_even].
  change (Zdigits2 (Zpos m0)) with (dig m0).
  replace (e + (e0 - e)) with e0 by lia. rewrite Hcanon, Z.sub_diag.
  cbn [shr shr_m].
  change (emax - prec) with 971.
  destruct (Z.leb_spec e0 971); [reflexivity | lia].
Qed.

Lemma pos_iter_xO m d : Zpos (Pos.iter xO m d) = Zpos m * 2 ^ Zpos d.
Proof.
  change (Pos.iter xO m d) with (shift_pos d m).
  rewrite shift_pos_correct, Z.pow_pos_fold. lia.
Qed.

Section Representable.
Variables (s : bool) (p : positive) (e : Z) (N : positive) (q : Z).
Hypothesis Hvalue : Zpos p = Zpos N * 2 ^ (q - e).
Hypothesis Heq : e <= q.
Hypothesis HN : Zpos N < 2 ^ 53.
Hypothesis Hq : -1074 <= q <= 971.

Let e0 := fexp prec emax (dig N + q).

Lemma canonical_exponent : e0 <= q /\ e0 <= 971 /\ dig p + e = dig N + q.
Proof.
  pose proof (dig_le N 53 ltac:(lia) HN). pose proof (dig_pos N).
  unfold e0. rewrite fexp_eq. rewrite (dig_shift N p (q - e)) by (assumption || lia).
  lia.
Qed.

Lemma canonical_mantissa_of :
  Zpos (Z.to_pos (Zpos N * 2 ^ (q - e0))) = Zpos N * 2 ^ (q - e0) /\
  fexp prec emax (dig (Z.to_pos (Zpos N * 2 ^ (q - e0))) + e0) = e0.
Proof.
  destruct canonical_exponent as [He0 [_ _]].
  assert (Hpos : 0 < Zpos N * 2 ^ (q - e0))
    by (apply Z.mul_pos_pos; [lia | apply Z.pow_pos_nonneg; lia]).
  assert (Hto : Zpos (Z.to_pos (Zpos N * 2 ^ (q - e0))) = Zpos N * 2 ^ (q - e0))
    by (apply Z2Pos.id; assumption).
  split; [assumption |].
  rewrite (dig_shift N _ (q - e0)) by (assumption || lia).
  replace (dig N + (q - e0) + e0) with (dig N + q) by lia. reflexivity.
Qed.

(** Rounding with enough digits at hand: the result is the value itself. *)
Lemma round_aux_dyadic :
  e <= fexp prec emax (dig p + e) ->
  sf_dyadic q (cond_Zopp s (Zpos N)) (binary_round_aux prec emax s (Zpos p) e loc_Exact).
Proof.
  intros Hdigits.
  destruct canonical_exponent as [He0 [Hmax Hdig]].
  destruct canonical_mantissa_of as [Hto Hcanon].
  rewrite Hdig in Hdigits. fold e0 in Hdigits.
  rewrite (binary_round_aux_exact s p e (Z.to_pos (Zpos N * 2 ^ (q - e0))) e0);
    try assumption.
  - cbn [sf_dyadic]. split; [destruct s; reflexivity |]. split; [assumption |].
    rewrite Hto. destruct s; cbn [cond_Zopp]; rewrite ?Z.abs_opp; reflexivity.
  - rewrite Hto, Hvalue. rewrite <- Z.mul_assoc, <- Z.pow_add_r by lia.
    do 2 f_equal. lia.
Qed.

(** Normalising: the mantissa is first shifted left when it is short. *)
Lemma round_dyadic :
  sf_dyadic q (cond_Zopp s (Zpos N)) (binary_round prec emax s p e).
Proof.
  destruct canonical_exponent as [He0 [Hmax Hdig]].
  destruct canonical_mantissa_of as [Hto Hcanon].
  unfold binary_round. change (Zpos (digits2_pos p)) with (dig p).
  rewrite Hdig. fold e0. unfold shl_align.
  destruct (e0 - e) as [| d | d] eqn:Hshift.
  - apply round_aux_dyadic. rewrite Hdig. fold e0. lia.
  - apply round_aux_dyadic. rewrite Hdig. fold e0. lia.
  - rewrite (binary_round_aux_exact s (Pos.iter xO p d) e0
               (Z.to_pos (Zpos N * 2 ^ (q - e0))) e0); try assumption; try lia.
    + cbn [sf_dyadic]. split; [destruct s; reflexivity |]. split; [assumption |].
      rewrite Hto. destruct s; cbn [cond_Zopp]; rewrite ?Z.abs_opp; reflexivity.
    + rewrite Z.sub_diag, Z.mul_1_r, Hto, pos_iter_xO, Hvalue.
      rewrite <- Z.mul_assoc, <- Z.pow_add_r by lia.
      do 2 f_equal. lia.
Qed.
End Representable.

(** ** Sums and products of fixed-point doubles *)

Lemma shl_align_value mx ex ez :
  ez <= ex -> Zpos (fst (shl_align mx ex ez)) = Zpos mx * 2 ^ (ex - ez).
Proof.
  intros Hle. unfold shl_align. destruct (ez - ex) as [| d | d] eqn:Hd; cbn [fst].
  - replace (ex - ez) with 0 by lia. cbn. lia.
  - lia.
  - rewrite pos_iter_xO. do 2 f_equal. lia.
Qed.

Lemma signed_value (sx : bool) (n : Z) (v : Z) :
  sx = (n <? 0) -> cond_Zopp sx (Z.abs n * v) = n * v.
Proof.
  intros ->. destruct (Z.ltb_spec n 0); cbn [cond_Zopp].
  - rewrite Z.abs_neq by lia. lia.
  - rewrite Z.abs_eq by lia. reflexivity.
Qed.

Lemma normalize_dyadic q n e M :
  M = n * 2 ^ (q - e) -> e <= q -> Z.abs n < 2 ^ 53 -> -1074 <= q <= 971 ->
  sf_dyadic q n (binary_normalize prec emax M e false).
Proof.
  intros HM He Hn Hq.
  assert (Hpow : 0 < 2 ^ (q - e)) by (apply Z.pow_pos_nonneg; lia).
  unfold binary_normalize. destruct M as [| p | p].
  - cbn [sf_dyadic]. nia.
  - assert (Hpos : 0 < n) by nia.
    replace n with (cond_Zopp false (Zpos (Z.to_pos n))) by (cbn; lia).
    apply round_dyadic; try assumption; rewrite Z2Pos.id by assumption; lia.
  - assert (Hneg : n < 0) by nia.
    replace n with (cond_Zopp true (Zpos (Z.to_pos (- n)))) by (cbn; lia).
    apply round_dyadic; try assumption; rewrite Z2Pos.id by lia; lia.
Qed.

Lemma SFadd_dyadic q a b x y :
  sf_dyadic q a x -> sf_dyadic q b y ->
  Z.abs (a + b) < 2 ^ 53 -> -1074 <= q <= 971 ->
  sf_dyadic q (a + b) (SFadd prec emax x y).
Proof.
  intros Hx Hy Hsum Hq.
  destruct x as [sx | sx | | sx mx ex]; destruct y as [sy | sy | | sy my ey];
    cbn [sf_dyadic] in Hx, Hy; try contradiction.
  - subst a b. cbn [SFadd]. destruct sx, sy; reflexivity.
  - subst a. cbn [SFadd]. exact Hy.
  - subst b. cbn [SFadd]. rewrite Z.add_0_r. exact Hx.
  - destruct Hx as [Hsx [Hex Hmx]], Hy as [Hsy [Hey Hmy]].
    cbn [SFadd]. cbv zeta.
    apply normalize_dyadic; try assumption; [| lia].
    rewrite !shl_align_value by lia. rewrite Hmx, Hmy.
    rewrite <- !Z.mul_assoc, <- !Z.pow_add_r by lia.
    rewrite (signed_value sx a _ Hsx), (signed_value sy b _ Hsy).
    replace (q - ex + (ex - Z.min ex ey)) with (q - Z.min ex ey) by lia.
    replace (q - ey + (ey - Z.min ex ey)) with (q - Z.min ex ey) by lia.
    lia.
Qed.

Lemma valid_finite s m e :
  valid_binary (S754_finite s m e) = true ->
  fexp prec emax (dig m + e) = e /\ e <= 971.
Proof.
  cbn [valid_binary]. unfold bounded, canonical_mantissa. intros Hb.
  apply andb_prop in Hb as [Hc Hm]. apply Z.eqb_eq in Hc. apply Z.leb_le in Hm.
  split; [exact Hc | exact Hm].
Qed.

Lemma SFmul_dyadic qa qb a b x y :
  valid_binary x = true -> valid_binary y = true ->
  sf_dyadic qa a x -> sf_dyadic qb b y ->
  Z.abs (a * b) < 2 ^ 53 -> -1074 <= qa + qb <= 971 ->
  sf_dyadic (qa + qb) (a * b) (SFmul prec emax x y).
Proof.
  intros Hvx Hvy Hx Hy Hprod Hq.
  destruct x as [sx | sx | | sx mx ex]; destruct y as [sy | sy | | sy my ey];
    cbn [sf_dyadic] in Hx, Hy; try contradiction.
  - subst a. cbn [SFmul sf_dyadic]. reflexivity.
  - subst a. cbn [SFmul sf_dyadic]. reflexivity.
  - subst b. cbn [SFmul sf_dyadic]. lia.
  - destruct Hx as [Hsx [Hex Hmx]], Hy as [Hsy [Hey Hmy]].
    destruct (valid_finite _ _ _ Hvx) as [Hcx _].
    destruct (valid_finite _ _ _ Hvy) as [Hcy _].
    assert (Hpa : 0 < 2 ^ (qa - ex)) by (apply Z.pow_pos_nonneg; lia).
    assert (Hpb : 0 < 2 ^ (qb - ey)) by (apply Z.pow_pos_nonneg; lia).
    assert (Ha : a <> 0) by (intros ->; cbn in Hmx; lia).
    assert (Hb : b <> 0) by (intros ->; cbn in Hmy; lia).
    assert (Hab : 0 < Z.abs (a * b)) by nia.
    cbn [SFmul].
    assert (Hsign : cond_Zopp (xorb sx sy) (Zpos (Z.to_pos (Z.abs (a * b)))) = a * b).
    { rewrite Z2Pos.id by assumption. rewrite Hsx, Hsy.
      destruct (Z.ltb_spec a 0); destruct (Z.ltb_spec b 0); cbn [xorb cond_Zopp];
        [rewrite Z.abs_eq by nia | rewrite Z.abs_neq by nia | rewrite Z.abs_neq by nia
         | rewrite Z.abs_eq by nia]; lia. }
    rewrite <- Hsign.
    apply round_aux_dyadic; try assumption; try lia.
    + rewrite Z2Pos.id by assumption. rewrite Pos2Z.inj_mul, Hmx, Hmy, Z.abs_mul.
      replace (qa + qb - (ex + ey)) with ((qa - ex) + (qb - ey)) by lia.
      rewrite Z.pow_add_r by lia. ring.
    + pose proof (dig_mul_lower mx my). pose proof (dig_pos mx). pose proof (dig_pos my).
      rewrite fexp_eq in *. lia.
Qed.

(** ** On doubles *)

Lemma add_dyadic q a b (x y : float) :
  dyadic q a x -> dyadic q b y ->
  Z.abs (a + b) < 2 ^ 53 -> -1074 <= q <= 971 ->
  dyadic q (a + b) (x + y)%float.
Proof.
  unfold dyadic. intros Hx Hy Hsum Hq. rewrite add_spec. now apply SFadd_dyadic.
Qed.

Lemma mul_dyadic qa qb a b (x y : float) :
  dyadic qa a x -> dyadic qb b y ->
  Z.abs (a * b) < 2 ^ 53 -> -1074 <= qa + qb <= 971 ->
  dyadic (qa + qb) (a * b) (x * y)%float.
Proof.
  unfold dyadic. intros Hx Hy Hprod Hq. rewrite mul_spec.
  apply SFmul_dyadic; auto using Prim2SF_valid.
Qed.

(** Two doubles that hold the same fixed-point number are the same double,
    or both are zeros. *)
Lemma dyadic_unique q n (x y : float) :
  dyadic q n x -> dyadic q n y ->
  x = y \/ (exists sx sy, Prim2SF x = S754_zero sx /\ Prim2SF y = S754_zero sy).
Proof.
  unfold dyadic. intros Hx Hy.
  pose proof (Prim2SF_valid x) as Hvx. pose proof (Prim2SF_valid y) as Hvy.
  destruct (Prim2SF x) as [sx | sx | | sx mx ex] eqn:Ex;
    destruct (Prim2SF y) as [sy | sy | | sy my ey] eqn:Ey;
    cbn [sf_dyadic] in Hx, Hy; try contradiction.
  - right. eauto.
  - subst n. destruct Hy as [_ [_ Hy]]. cbn in Hy. lia.
  - subst n. destruct Hx as [_ [_ Hx]]. cbn in Hx. lia.
  - left. apply Prim2SF_inj. rewrite Ex, Ey.
    destruct Hx as [Hsx [Hex Hmx]], Hy as [Hsy [Hey Hmy]].
    destruct (valid_finite _ _ _ Hvx) as [Hcx _].
    destruct (valid_finite _ _ _ Hvy) as [Hcy _].
    assert (Hn : 0 < Z.abs n).
    { assert (0 < 2 ^ (q - ex)) by (apply Z.pow_pos_nonneg; lia). nia. }
    assert (Hdx : dig mx = dig (Z.to_pos (Z.abs n)) + (q - ex))
      by (apply dig_shift; [lia | rewrite Z2Pos.id by lia; exact Hmx]).
    assert (Hdy : dig my = dig (Z.to_pos (Z.abs n)) + (q - ey))
      by (apply dig_shift; [lia | rewrite Z2Pos.id by lia; exact Hmy]).
    assert (He : ex = ey).
    { rewrite <- Hcx, <- Hcy. f_equal. lia. }
    subst ey. assert (mx = my) by lia. subst. reflexivity.
Qed.

Lemma fixed_point_dyadic q B x :
  fixed_point q B x = true ->
  dyadic q (numerator q x) x /\ Z.abs (numerator q x) <= B.
Proof.
  unfold fixed_point, dyadic, numerator.
  destruct (Prim2SF x) as [s | s | | s m e]; try discriminate.
  - intros HB. apply Z.leb_le in HB. cbn [sf_dyadic]. split; [reflexivity | cbn; lia].
  - intros Hfp. apply andb_prop in Hfp as [Hfp HB]. apply andb_prop in Hfp as [He Hmod].
    apply Z.leb_le in He, HB. apply Z.eqb_eq in Hmod.
    assert (Hpow : 0 < 2 ^ (q - e)) by (apply Z.pow_pos_nonneg; lia).
    pose proof (Z.div_mod (Zpos m) (2 ^ (q - e)) ltac:(lia)) as Hdm.
    rewrite Hmod, Z.add_0_r in Hdm.
    assert (Hquot : 0 < Zpos m / 2 ^ (q - e)) by nia.
    cbn [sf_dyadic]. split; [split; [| split] |].
    + destruct s; cbn [cond_Zopp]; symmetry; [apply Z.ltb_lt | apply Z.ltb_ge]; lia.
    + assumption.
    + destruct s; cbn [cond_Zopp]; rewrite ?Z.abs_opp, Z.abs_eq by lia; lia.
    + destruct s; cbn [cond_Zopp]; rewrite ?Z.abs_opp, Z.abs_eq by lia; assumption.
Qed.

Lemma dyadic_finite q n x :
  dyadic q n x ->
  (exists s, Prim2SF x = S754_zero s) \/ (exists s m e, Prim2SF x = S754_finite s m e).
Proof.
  unfold dyadic. destruct (Prim2SF x); cbn [sf_dyadic]; try contradiction; eauto.
Qed.

(** ** A finite double against itself *)

Lemma SFsub_diag x :
  (exists s, x = S754_zero s) \/ (exists s m e, x = S754_finite s m e) ->
  SFsub prec emax x x = S754_zero false.
Proof.
  intros [[s ->] | [s [m [e ->]]]].
  - destruct s; reflexivity.
  - unfold SFsub. cbv zeta. rewrite Z.sub_diag. reflexivity.
Qed.

Lemma isClose_refl_finite (x : float) :
  (exists s, Prim2SF x = S754_zero s) \/ (exists s m e, Prim2SF x = S754_finite s m e) ->
  isClose x x = true.
Proof.
  intros Hfin. unfold isClose. cbn [s_ltb s_abs s_sub s_eps double_scalar].
  rewrite ltb_spec, abs_spec, sub_spec. unfold SF64sub.
  rewrite (SFsub_diag _ Hfin). reflexivity.
Qed.

(** ** The sign of a rounded product *)

Lemma shr_1_nonneg mrs : 0 <= shr_m mrs -> 0 <= shr_m (shr_1 mrs).
Proof.
  destruct mrs as [m r s]. cbn [shr_m]. intros Hm.
  destruct m as [| p | p]; [| destruct p |]; cbn; lia.
Qed.

Lemma shr_nonneg mrs e n : 0 <= shr_m mrs -> 0 <= shr_m (fst (shr mrs e n)).
Proof.
  intros Hm. unfold shr. destruct n as [| p | p]; cbn [fst]; try assumption.
  rewrite iter_pos_nat. induction (Pos.to_nat p) as [| k IH]; [assumption |].
  rewrite Nat.iter_succ. now apply shr_1_nonneg.
Qed.

Lemma shr_record_of_loc_m m l : shr_m (shr_record_of_loc m l) = m.
Proof. destruct l as [| []]; reflexivity. Qed.

Lemma round_nearest_even_nonneg m l : 0 <= m -> 0 <= round_nearest_even m l.
Proof.
  intros Hm. destruct l as [| []]; cbn [round_nearest_even]; try lia.
  destruct (Z.even m); lia.
Qed.

Lemma binary_round_aux_sign s p e l :
  exists f, binary_round_aux prec emax s (Zpos p) e l = f /\
            match f with
            | S754_zero s' | S754_infinity s' | S754_finite s' _ _ => s' = s
            | S754_nan => False
            end.
Proof.
  eexists. split; [reflexivity |].
  unfold binary_round_aux, shr_fexp.
  destruct (shr (shr_record_of_loc (Zpos p) l) e
              (fexp prec emax (Zdigits2 (Zpos p) + e) - e)) as [mrs' e'] eqn:E1.
  assert (H1 : 0 <= shr_m mrs').
  { replace mrs' with (fst (shr (shr_record_of_loc (Zpos p) l) e
                              (fexp prec emax (Zdigits2 (Zpos p) + e) - e)))
      by (rewrite E1; reflexivity).
    apply shr_nonneg. rewrite shr_record_of_loc_m. lia. }
  set (m1 := round_nearest_even (shr_m mrs') (loc_of_shr_record mrs')).
  assert (Hm1 : 0 <= m1) by (apply round_nearest_even_nonneg; assumption).
  destruct (shr (shr_record_of_loc m1 loc_Exact) e'
              (fexp prec emax (Zdigits2 m1 + e') - e')) as [mrs'' e''] eqn:E2.
  assert (H2 : 0 <= shr_m mrs'').
  { replace mrs'' with (fst (shr (shr_record_of_loc m1 loc_Exact) e'
                               (fexp prec emax (Zdigits2 m1 + e') - e')))
      by (rewrite E2; reflexivity).
    apply shr_nonneg. rewrite shr_record_of_loc_m. assumption. }
  destruct (shr_m mrs'') as [| m | m]; [reflexivity | | lia].
  destruct (e'' <=? emax - prec); reflexivity.
Qed.

(** A finite double is within every relative tolerance of itself. *)
Lemma rel_close_refl_finite (x : float) :
  (exists s, Prim2SF x = S754_zero s) \/ (exists s m e, Prim2SF x = S754_finite s m e) ->
  rel_close tol_1e9 x x = true.
Proof.
  intros Hfin. unfold rel_close. rewrite if_same.
  rewrite leb_spec, abs_spec, sub_spec, mul_spec, abs_spec. unfold SF64sub, SF64mul.
  rewrite (SFsub_diag _ Hfin). cbn [SFabs].
  change (Prim2SF tol_1e9) with (S754_finite false 4835703278458517 (-82)).
  destruct Hfin as [[s ->] | [s [m [e ->]]]]; [reflexivity |].
  cbn [SFabs SFmul xorb].
  destruct (binary_round_aux_sign false (4835703278458517 * m) (-82 + e) loc_Exact)
    as [f [-> Hf]].
  destruct f as [s' | s' | | s' m' e']; try contradiction; subst s'; reflexivity.
Qed.

Lemma eqb_refl_finite (x : float) :
  (exists s, Prim2SF x = S754_zero s) \/ (exists s m e, Prim2SF x = S754_finite s m e) ->
  (x =? x)%float = true.
Proof.
  intros Hfin. rewrite eqb_spec.
  destruct Hfin as [[s ->] | [s [m [e ->]]]]; [reflexivity |].
  unfold SFeqb, SFcompare. rewrite Z.compare_refl, Pos.compare_refl.
  destruct s; reflexivity.
Qed.

(** Two doubles that hold the same fixed-point number agree as doubles and
    within the relative tolerance. *)
Lemma dyadic_close q n (x y : float) :
  dyadic q n x -> dyadic q n y ->
  rel_close tol_1e9 x y = true /\ (x =? y)%float = true.
Proof.
  intros Hx Hy. destruct (dyadic_unique q n x y Hx Hy) as [<- | [sx [sy [Ex Ey]]]].
  - split; [apply rel_close_refl_finite | apply eqb_refl_finite];
      exact (dyadic_finite q n x Hx).
  - rewrite <- (SF2Prim_Prim2SF x), <- (SF2Prim_Prim2SF y), Ex, Ey.
    destruct sx, sy; split; reflexivity.
Qed.

(** ** Multiplying by one *)

Lemma mul_one_r (x : float) : (x * 1)%float = x.
Proof.
  pose proof (Prim2SF_valid x) as Hv.
  destruct (Prim2SF x) as [s | s | | s m e] eqn:Ex.
  - apply Prim2SF_inj. rewrite mul_spec, Ex. destruct s; reflexivity.
  - apply Prim2SF_inj. rewrite mul_spec, Ex. destruct s; reflexivity.
  - apply Prim2SF_inj. rewrite mul_spec, Ex. reflexivity.
  - destruct (valid_finite s m e Hv) as [Hcanon Hmax].
    pose proof (dig_pos m) as Hd. rewrite fexp_eq in Hcanon.
    assert (Hm : Zpos m < 2 ^ 53).
    { pose proof (dig_bounds m) as [_ Hhi].
      assert (2 ^ dig m <= 2 ^ 53) by (apply Z.pow_le_mono_r; lia). lia. }
    assert (Hx : dyadic e (cond_Zopp s (Zpos m)) x).
    { unfold dyadic. rewrite Ex. cbn [sf_dyadic]. rewrite Z.sub_diag.
      destruct s; cbn; repeat split; lia. }
    assert (H1 : dyadic 0 1 1%float).
    { unfold dyadic. cbn. repeat split; lia. }
    pose proof (mul_dyadic e 0 _ 1 x 1%float Hx H1) as Hprod.
    rewrite Z.add_0_r, Z.mul_1_r in Hprod.
    assert (Habs : Z.abs (cond_Zopp s (Zpos m)) < 2 ^ 53)
      by (destruct s; cbn [cond_Zopp]; lia).
    specialize (Hprod Habs ltac:(lia)).
    destruct (dyadic_unique e _ _ _ Hprod Hx) as [Heq | [sx [sy [_ Ey]]]]; [exact Heq |].
    rewrite Ex in Ey. discriminate.
Qed.

(** ** Integer sums *)

Lemma int_steps_shift n i F A : int_steps n i F A = A + int_steps n i F 0.
Proof.
  revert i A. induction n as [| n IH]; intros i A; cbn [int_steps]; [lia |].
  rewrite (IH (i + 1) (A + F i)), (IH (i + 1) (0 + F i)). lia.
Qed.

Lemma int_steps_last n i F A :
  int_steps (Datatypes.S n) i F A = int_steps n i F A + F (i + Z.of_nat n).
Proof.
  revert i A. induction n as [| n IH]; intros i A.
  - cbn. now rewrite Z.add_0_r.
  - change (int_steps (Datatypes.S (Datatypes.S n)) i F A)
      with (int_steps (Datatypes.S n) (i + 1) F (A + F i)).
    rewrite IH. cbn [int_steps]. do 2 f_equal. lia.
Qed.

Lemma int_steps_ext n i F G A :
  (forall j, i <= j < i + Z.of_nat n -> F j = G j) ->
  int_steps n i F A = int_steps n i G A.
Proof.
  revert i A. induction n as [| n IH]; intros i A HFG; [reflexivity |].
  cbn [int_steps]. rewrite HFG by lia. apply IH. intros j Hj. apply HFG. lia.
Qed.

(** Summing a window of 2k+1 integers in index order is summing it from
    its centre outwards in pairs. *)
Lemma int_steps_paired (g : Z -> Z) (r : Z) (k : nat) :
  int_steps (2 * k + 1) (r - Z.of_nat k) g 0 =
  int_steps k 1 (fun i => g (r - i) + g (r + i)) (g r).
Proof.
  induction k as [| k IH].
  - cbn. rewrite Z.sub_0_r. reflexivity.
  - replace (2 * Datatypes.S k + 1)%nat with (Datatypes.S (Datatypes.S (2 * k + 1))) by lia.
    rewrite int_steps_last.
    change (int_steps (Datatypes.S (2 * k + 1)) (r - Z.of_nat (Datatypes.S k)) g 0)
      with (int_steps (2 * k + 1) (r - Z.of_nat (Datatypes.S k) + 1) g
              (0 + g (r - Z.of_nat (Datatypes.S k)))).
    replace (r - Z.of_nat (Datatypes.S k) + 1) with (r - Z.of_nat k) by lia.
    rewrite int_steps_shift, IH.
    rewrite (int_steps_last k 1).
    replace (r - Z.of_nat (Datatypes.S k) + Z.of_nat (Datatypes.S (2 * k + 1)))
      with (r + (1 + Z.of_nat k)) by lia.
    replace (r - Z.of_nat (Datatypes.S k)) with (r - (1 + Z.of_nat k)) by lia.
    lia.
Qed.

(** The running sum of fixed-point doubles is the fixed-point double of the
    running integer sum, as long as no partial sum needs more than 53
    bits. *)
Lemma acc_steps_dyadic q C (f : Z -> float) (F : Z -> Z) n i (a : float) A :
  (forall j, i <= j < i + Z.of_nat n -> dyadic q (F j) (f j) /\ Z.abs (F j) <= C) ->
  dyadic q A a ->
  Z.abs A + Z.of_nat n * C < 2 ^ 53 -> 0 <= C -> -1074 <= q <= 971 ->
  dyadic q (int_steps n i F A) (acc_steps n i f a).
Proof.
  revert i a A. induction n as [| n IH]; intros i a A Hterms Ha Hbound HC Hq;
    [exact Ha |].
  cbn [int_steps acc_steps]. destruct (Hterms i ltac:(lia)) as [Hfi HFi].
  apply IH; try assumption.
  - intros j Hj. apply Hterms. lia.
  - apply add_dyadic; try assumption. lia.
  - lia.
Qed.

(** ** The symmetry test on an exactly symmetric kernel *)

Section ExactlySymmetric.
Context {T : Type} `{Scalar T}.
Variables (weights : list T) (r : Z).
Hypothesis Hr : 0 <= r.
Hypothesis Hsize : vsize weights = 2 * r + 1.
Hypothesis Hsym : forall i, 1 <= i <= r -> vget weights (r + i) = vget weights (r - i).
Hypothesis Hself : forall i w, vget weights i = Ok w -> isClose w w = true.

(** A kernel whose taps mirror each other exactly, each tap close to
    itself, is classified as symmetric. *)
Lemma kernel_symmetry_mirror : exists anti, kernel_symmetry weights r = Ok (true, anti).
Proof.
  unfold kernel_symmetry.
  destruct (for_range_inv (fun _ (flags : bool * bool) => fst flags = true) 1 (r + 1)
              (fun i '(symmetric, anti_symmetric) =>
                 wp <- vget weights (r + i) ;;
                 wm <- vget weights (r - i) ;;
                 let symmetric := if negb (isClose wp wm) then false else symmetric in
                 let anti_symmetric :=
                   if negb (isClose wp (s_opp wm)) then false else anti_symmetric in
                 Ok (symmetric, anti_symmetric)) (true, true))
    as [[s a] [Hrun Hs]]; [lia | reflexivity | |].
  - intros i [s a] Hi Hs. simpl in Hs. subst s.
    destruct (vget_ok weights (r - i)) as [wm Hwm]; [lia |].
    rewrite Hsym by lia. rewrite Hwm. cbn [bind].
    rewrite (Hself _ _ Hwm). simpl. eexists. split; reflexivity.
  - simpl in Hs. subst s. exists a. exact Hrun.
Qed.
End ExactlySymmetric.

(** ** The two sums on fixed-point data *)

Lemma forallb3_get3 (P : float -> bool) (V : @Mat3D float) z i j v :
  forallb (forallb (forallb P)) V = true -> get3 V z i j = Ok v -> P v = true.
Proof.
  intros Hall Hg. unfold get3, get2 in Hg.
  destruct (vget V z) as [s | |] eqn:Hs; cbn [bind] in Hg; try discriminate.
  destruct (vget s i) as [row | |] eqn:Hrow; cbn [bind] in Hg; try discriminate.
  apply vget_nth_error in Hs as [_ Hs]. apply vget_nth_error in Hrow as [_ Hrow].
  apply vget_nth_error in Hg as [_ Hg].
  apply nth_error_In in Hs, Hrow, Hg.
  rewrite forallb_forall in Hall. specialize (Hall s Hs).
  rewrite forallb_forall in Hall. specialize (Hall row Hrow).
  rewrite forallb_forall in Hall. exact (Hall v Hg).
Qed.

Section FixedPointTaps.
Variables (weights : list float) (r : Z) (qs qw B Wm : Z).
Hypothesis Hr : 0 <= r.
Hypothesis Hsize : vsize weights = 2 * r + 1.
Hypothesis Hsym : forall i, 1 <= i <= r -> vget weights (r + i) = vget weights (r - i).
Hypothesis Hweights : forallb (fixed_point qw Wm) weights = true.
Hypothesis HB : 0 <= B.
Hypothesis HWm : 1 <= Wm.
Hypothesis Hbits : (2 * r + 2) * B * Wm < 2 ^ 53.
Hypothesis Hqs : -1074 <= qs <= 971.
Hypothesis Hq : -1074 <= qs + qw <= 971.

Let w (i : Z) : float := force 0%float (vget weights i).
Let W (i : Z) : Z := numerator qw (w i).

Lemma weight_fixed i :
  0 <= i <= 2 * r -> vget weights i = Ok (w i) /\ dyadic qw (W i) (w i) /\ Z.abs (W i) <= Wm.
Proof.
  intros Hi. destruct (vget_ok weights i) as [x Hx]; [lia |].
  unfold W, w. rewrite Hx. cbn [force]. split; [reflexivity |].
  apply fixed_point_dyadic. rewrite forallb_forall in Hweights. apply Hweights.
  apply vget_nth_error in Hx as [_ Hx]. eapply nth_error_In; eauto.
Qed.

Lemma weight_mirror i : 1 <= i <= r -> W (r + i) = W (r - i).
Proof. intros Hi. unfold W, w. now rewrite Hsym. Qed.

Lemma kernel_fixed_symmetric : exists anti, kernel_symmetry weights r = Ok (true, anti).
Proof.
  apply kernel_symmetry_mirror; try assumption.
  intros i x Hx. apply isClose_refl_finite.
  pose proof (vget_bounds _ _ _ Hx) as Hi.
  destruct (weight_fixed i ltac:(lia)) as [Hget [Hd _]].
  assert (x = w i) by congruence. subst x.
  exact (dyadic_finite _ _ _ Hd).
Qed.

Variables (line : Z -> outcome float) (center : Z).
Hypothesis Hline : forall t, center - r <= t <= center + r ->
  exists v, line t = Ok v /\ fixed_point qs B v = true.

Let p (t : Z) : float := force 0%float (line t).
Let P (t : Z) : Z := numerator qs (p t).

Lemma sample_fixed t :
  center - r <= t <= center + r ->
  line t = Ok (p t) /\ dyadic qs (P t) (p t) /\ Z.abs (P t) <= B.
Proof.
  intros Ht. destruct (Hline t Ht) as [v [Hv Hfp]].
  unfold P, p. rewrite Hv. cbn [force]. split; [reflexivity |].
  now apply fixed_point_dyadic.
Qed.

Lemma bound_product x y : Z.abs x <= B -> Z.abs y <= Wm -> Z.abs (x * y) <= B * Wm.
Proof. intros Hx Hy. rewrite Z.abs_mul. apply Z.mul_le_mono_nonneg; lia. Qed.

Lemma bits_product : B * Wm < 2 ^ 53 /\ 2 * B < 2 ^ 53 /\ 2 * (B * Wm) < 2 ^ 53.
Proof. nia. Qed.

(** The paired sum holds the integer it is meant to hold. *)
Lemma paired_sum_fixed anti :
  exists a,
    tap_sum true anti line weights r (2 * r + 1) center = Ok a /\
    dyadic (qs + qw)
      (int_steps (Z.to_nat r) 1 (fun i => (P (center - i) + P (center + i)) * W (r + i))
         (P center * W r)) a.
Proof.
  destruct bits_product as [Hb1 [Hb2 Hb3]].
  eexists. split.
  - apply (tap_sum_symmetric_ok line weights r center Hr Hsize).
    intros t Ht. apply sample_fixed. lia.
  - fold p w.
    destruct (sample_fixed center ltac:(lia)) as [_ [Hpc HPc]].
    destruct (weight_fixed r ltac:(lia)) as [_ [Hwr HWr]].
    apply (acc_steps_dyadic (qs + qw) (2 * (B * Wm))); try lia.
    + intros i Hi.
      destruct (sample_fixed (center - i) ltac:(lia)) as [_ [Hl HL]].
      destruct (sample_fixed (center + i) ltac:(lia)) as [_ [Hrr HR]].
      destruct (weight_fixed (r + i) ltac:(lia)) as [_ [Hwi HWi]].
      assert (Hsum : Z.abs (P (center - i) + P (center + i)) <= 2 * B) by lia.
      assert (Hprod : Z.abs ((P (center - i) + P (center + i)) * W (r + i)) <= 2 * (B * Wm)).
      { rewrite Z.abs_mul.
        replace (2 * (B * Wm)) with (2 * B * Wm) by lia.
        apply Z.mul_le_mono_nonneg; lia. }
      split; [| exact Hprod].
      apply mul_dyadic; try assumption; [| lia].
      apply add_dyadic; try assumption. lia.
    + apply mul_dyadic; try assumption.
      pose proof (bound_product _ _ HPc HWr). lia.
    + pose proof (bound_product _ _ HPc HWr). nia.
Qed.

(** So does the full weighted sum. *)
Lemma general_sum_fixed :
  exists g,
    tap_sum false false line weights r (2 * r + 1) center = Ok g /\
    dyadic (qs + qw)
      (int_steps (Z.to_nat (2 * r + 1)) 0 (fun i => P (center - r + i) * W i) 0) g.
Proof.
  destruct bits_product as [Hb1 [Hb2 Hb3]].
  eexists. split.
  - apply (tap_sum_general_ok line weights r center Hsize).
    intros t Ht. apply sample_fixed. lia.
  - fold p w.
    apply (acc_steps_dyadic (qs + qw) (B * Wm)); try nia.
    + intros i Hi.
      destruct (sample_fixed (center - r + i) ltac:(lia)) as [_ [Hpi HPi]].
      destruct (weight_fixed i ltac:(lia)) as [_ [Hwi HWi]].
      pose proof (bound_product _ _ HPi HWi) as Hprod.
      split; [| exact Hprod].
      apply mul_dyadic; try assumption. lia.
    + unfold dyadic. cbn. reflexivity.
Qed.

(** On fixed-point data the paired sum and the full weighted sum are the
    same double. *)
Lemma fixed_point_sums_agree anti :
  exists a g,
    tap_sum true anti line weights r (2 * r + 1) center = Ok a /\
    tap_sum false false line weights r (2 * r + 1) center = Ok g /\
    rel_close tol_1e9 a g = true /\ (a =? g)%float = true.
Proof.
  destruct (paired_sum_fixed anti) as [a [Ha Hda]].
  destruct general_sum_fixed as [g [Hg Hdg]].
  exists a, g. split; [assumption |]. split; [assumption |].
  apply (dyadic_close (qs + qw)
           (int_steps (Z.to_nat r) 1 (fun i => (P (center - i) + P (center + i)) * W (r + i))
              (P center * W r))); [assumption |].
  replace (int_steps (Z.to_nat r) 1
             (fun i => (P (center - i) + P (center + i)) * W (r + i)) (P center * W r))
    with (int_steps (Z.to_nat (2 * r + 1)) 0 (fun i => P (center - r + i) * W i) 0);
    [assumption |].
  pose proof (int_steps_paired (fun j => P (center - r + j) * W j) r (Z.to_nat r)) as Hpair.
  rewrite Z2Nat.id in Hpair by lia. rewrite Z.sub_diag in Hpair.
  replace (2 * Z.to_nat r + 1)%nat with (Z.to_nat (2 * r + 1)) in Hpair by lia.
  rewrite Hpair.
  replace (center - r + r) with center by lia.
  apply int_steps_ext. intros i Hi.
  replace (center - r + (r - i)) with (center - i) by lia.
  replace (center - r + (r + i)) with (center + i) by lia.
  rewrite <- (weight_mirror i) by lia. lia.
Qed.
End FixedPointTaps.

(** * The symmetric fast path *)

(** Padding keeps fixed-point data fixed-point: it only copies samples and
    the fill value. *)
Lemma pad3D_fixed_point (input padded : @Mat3D float) (borderType : Z) (cval : float)
    (depth rows cols pad_row pad_col pad_depth qs B : Z) :
  rect3 input depth rows cols -> 0 < depth -> 0 < rows -> 0 < cols ->
  0 <= pad_row -> 0 <= pad_col -> 0 <= pad_depth ->
  bounce_ok borderType pad_row rows -> bounce_ok borderType pad_col cols ->
  forallb (forallb (forallb (fixed_point qs B))) input = true ->
  (borderType = 0 -> fixed_point qs B cval = true) ->
  pad3D input [pad_row; pad_col; pad_depth] borderType cval = Ok padded ->
  forall z a b,
    0 <= z < depth + 2 * pad_depth -> 0 <= a < rows + 2 * pad_row ->
    0 <= b < cols + 2 * pad_col ->
    exists v, get3 padded z a b = Ok v /\ fixed_point qs B v = true.
Proof.
  intros Hrect Hd Hr Hc Hpr Hpc Hpd Hbr Hbc Hall Hfill Hpad z a b Hz Ha Hb.
  destruct (pad3D_spec input [pad_row; pad_col; pad_depth] borderType cval depth rows cols
              pad_row pad_col [pad_depth] Hrect Hd Hr Hc eq_refl Hpr Hpc Hpd Hbr Hbc)
    as [P [HP [_ Hcells]]].
  assert (P = padded) by congruence. subst P. cbn [pad_depth_of] in Hcells.
  eexists. split; [exact (Hcells z a b Hz Ha Hb) |].
  destruct (pad3D_cell_source input borderType cval depth rows cols pad_row pad_col pad_depth
              Hrect Hd Hr Hc Hbr Hbc z a b Ha Hb) as [[E Hcell] | [z' [i [j Hsrc]]]].
  - rewrite Hcell. auto.
  - exact (forallb3_get3 _ _ _ _ _ _ Hall Hsrc).
Qed.




(** * The antisymmetric fast path *)

(** ** Differences and negations of fixed-point doubles *)

Lemma SFsub_dyadic q a b x y :
  sf_dyadic q a x -> sf_dyadic q b y ->
  Z.abs (a - b) < 2 ^ 53 -> -1074 <= q <= 971 ->
  sf_dyadic q (a - b) (SFsub prec emax x y).
Proof.
  intros Hx Hy Hsum Hq.
  destruct x as [sx | sx | | sx mx ex]; destruct y as [sy | sy | | sy my ey];
    cbn [sf_dyadic] in Hx, Hy; try contradiction.
  - subst a b. cbn [SFsub]. destruct sx, sy; reflexivity.
  - subst a. cbn [SFsub sf_dyadic]. destruct Hy as [Hsy [Hey Hmy]].
    assert (Hb : b <> 0) by (intros ->; cbn in Hmy; lia).
    cbn [Z.sub Z.add]. rewrite Z.abs_opp. repeat split; try assumption.
    rewrite Hsy. destruct (Z.ltb_spec b 0); destruct (Z.ltb_spec (- b) 0); auto; lia.
  - subst b. cbn [SFsub]. rewrite Z.sub_0_r. exact Hx.
  - destruct Hx as [Hsx [Hex Hmx]], Hy as [Hsy [Hey Hmy]].
    cbn [SFsub]. cbv zeta.
    apply normalize_dyadic; try assumption; [| lia].
    rewrite !shl_align_value by lia. rewrite Hmx, Hmy.
    rewrite <- !Z.mul_assoc, <- !Z.pow_add_r by lia.
    rewrite (signed_value sx a _ Hsx), (signed_value sy b _ Hsy).
    replace (q - ex + (ex - Z.min ex ey)) with (q - Z.min ex ey) by lia.
    replace (q - ey + (ey - Z.min ex ey)) with (q - Z.min ex ey) by lia.
    lia.
Qed.

Lemma sub_dyadic q a b (x y : float) :
  dyadic q a x -> dyadic q b y ->
  Z.abs (a - b) < 2 ^ 53 -> -1074 <= q <= 971 ->
  dyadic q (a - b) (x - y)%float.
Proof.
  unfold dyadic. intros Hx Hy Hsum Hq. rewrite sub_spec. now apply SFsub_dyadic.
Qed.

Lemma numerator_opp q (x : float) : numerator q (- x)%float = - numerator q x.
Proof.
  unfold numerator. rewrite opp_spec.
  destruct (Prim2SF x) as [s | s | | s m e]; cbn [SFopp]; try reflexivity.
  destruct s; cbn [negb cond_Zopp]; lia.
Qed.

Lemma int_steps_cancel n i (F F' : Z -> Z) A A' :
  (forall j, i <= j < i + Z.of_nat n -> F j + F' j = 0) ->
  int_steps n i F A + int_steps n i F' A' = A + A'.
Proof.
  revert i A A'. induction n as [| n IH]; intros i A A' Hcancel; [reflexivity |].
  cbn [int_steps]. rewrite IH by (intros j Hj; apply Hcancel; lia).
  pose proof (Hcancel i ltac:(lia)). lia.
Qed.

(** ** The antisymmetric path on fixed-point data *)

Section FixedPointAntisymmetric.
Variables (weights : list float) (r : Z) (qs qw B Wm : Z).
Hypothesis Hr : 0 <= r.
Hypothesis Hsize : vsize weights = 2 * r + 1.
Hypothesis Hanti : forall i, 1 <= i <= r ->
  exists x, vget weights (r - i) = Ok x /\ vget weights (r + i) = Ok (- x)%float.
Hypothesis Hweights : forallb (fixed_point qw Wm) weights = true.
Hypothesis HB : 0 <= B.
Hypothesis HWm : 1 <= Wm.
Hypothesis Hbits : (2 * r + 2) * B * Wm < 2 ^ 53.
Hypothesis Hqs : -1074 <= qs <= 971.
Hypothesis Hq : -1074 <= qs + qw <= 971.
Variables (line : Z -> outcome float) (center : Z).
Hypothesis Hline : forall t, center - r <= t <= center + r ->
  exists v, line t = Ok v /\ fixed_point qs B v = true.

Let w (i : Z) : float := force 0%float (vget weights i).
Let W (i : Z) : Z := numerator qw (w i).
Let p (t : Z) : float := force 0%float (line t).
Let P (t : Z) : Z := numerator qs (p t).

Lemma weight_opposite i : 1 <= i <= r -> W (r + i) = - W (r - i).
Proof.
  intros Hi. destruct (Hanti i Hi) as [x [Hm Hp]].
  unfold W, w. rewrite Hm, Hp. cbn [force]. apply numerator_opp.
Qed.

(** The antisymmetric sum holds the integer it is meant to hold. *)
Lemma antisymmetric_sum_fixed :
  exists a,
    tap_sum false true line weights r (2 * r + 1) center = Ok a /\
    dyadic (qs + qw)
      (int_steps (Z.to_nat r) 1 (fun i => (P (center - i) - P (center + i)) * W (r + i))
         (P center * W r)) a.
Proof.
  destruct (bits_product r B Wm Hr HWm Hbits) as [Hb1 [Hb2 Hb3]].
  assert (Hwf : forall i, 0 <= i <= 2 * r ->
            vget weights i = Ok (w i) /\ dyadic qw (W i) (w i) /\ Z.abs (W i) <= Wm)
    by exact (weight_fixed weights r qw Wm Hsize Hweights).
  assert (Hsf : forall t, center - r <= t <= center + r ->
            line t = Ok (p t) /\ dyadic qs (P t) (p t) /\ Z.abs (P t) <= B)
    by exact (sample_fixed r qs B line center Hline).
  eexists. split.
  - apply (tap_sum_antisymmetric_ok line weights r center Hr Hsize).
    intros t Ht. destruct (Hline t Ht) as [v [Hv _]]. eauto.
  - fold p w.
    destruct (Hsf center ltac:(lia)) as [_ [Hpc HPc]].
    destruct (Hwf r ltac:(lia)) as [_ [Hwr HWr]].
    apply (acc_steps_dyadic (qs + qw) (2 * (B * Wm))); try lia.
    + intros i Hi.
      destruct (Hsf (center - i) ltac:(lia)) as [_ [Hl HL]].
      destruct (Hsf (center + i) ltac:(lia)) as [_ [Hrr HR]].
      destruct (Hwf (r + i) ltac:(lia)) as [_ [Hwi HWi]].
      assert (Hdiff : Z.abs (P (center - i) - P (center + i)) <= 2 * B) by lia.
      assert (Hprod : Z.abs ((P (center - i) - P (center + i)) * W (r + i)) <= 2 * (B * Wm)).
      { rewrite Z.abs_mul.
        replace (2 * (B * Wm)) with (2 * B * Wm) by lia.
        apply Z.mul_le_mono_nonneg; lia. }
      split; [| exact Hprod].
      apply mul_dyadic; try assumption; [| lia].
      apply sub_dyadic; try assumption. lia.
    + apply mul_dyadic; try assumption.
      pose proof (bound_product B Wm _ _ HPc HWr). lia.
    + pose proof (bound_product B Wm _ _ HPc HWr). nia.
Qed.

(** On fixed-point data with an exactly antisymmetric kernel, the
    antisymmetric sum and the full weighted sum add up to twice the centre
    term. *)
Lemma fixed_point_sums_cancel :
  exists a g,
    tap_sum false true line weights r (2 * r + 1) center = Ok a /\
    tap_sum false false line weights r (2 * r + 1) center = Ok g /\
    (a + g =? p center * w r + p center * w r)%float = true.
Proof.
  destruct (bits_product r B Wm Hr HWm Hbits) as [Hb1 [Hb2 Hb3]].
  destruct antisymmetric_sum_fixed as [a [Ha Hda]].
  destruct (general_sum_fixed weights r qs qw B Wm Hr Hsize Hweights HB HWm Hbits Hq
              line center Hline) as [g [Hg Hdg]].
  change (dyadic (qs + qw)
            (int_steps (Z.to_nat (2 * r + 1)) 0 (fun i => P (center - r + i) * W i) 0) g)
    in Hdg.
  exists a, g. split; [assumption |]. split; [assumption |].
  assert (Hcw : dyadic qs (P center) (p center) /\ Z.abs (P center) <= B)
    by exact (proj2 (sample_fixed r qs B line center Hline center ltac:(lia))).
  assert (Hrw : dyadic qw (W r) (w r) /\ Z.abs (W r) <= Wm)
    by exact (proj2 (weight_fixed weights r qw Wm Hsize Hweights r ltac:(lia))).
  destruct Hcw as [Hpc HPc], Hrw as [Hwr HWr].
  pose proof (bound_product B Wm _ _ HPc HWr) as Hcw.
  assert (Hsum : int_steps (Z.to_nat r) 1
                   (fun i => (P (center - i) - P (center + i)) * W (r + i)) (P center * W r) +
                 int_steps (Z.to_nat (2 * r + 1)) 0 (fun i => P (center - r + i) * W i) 0 =
                 P center * W r + P center * W r).
  { pose proof (int_steps_paired (fun j => P (center - r + j) * W j) r (Z.to_nat r)) as Hpair.
    rewrite Z2Nat.id in Hpair by lia. rewrite Z.sub_diag in Hpair.
    replace (2 * Z.to_nat r + 1)%nat with (Z.to_nat (2 * r + 1)) in Hpair by lia.
    rewrite Hpair. replace (center - r + r) with center by lia.
    apply int_steps_cancel. intros i Hi.
    replace (center - r + (r - i)) with (center - i) by lia.
    replace (center - r + (r + i)) with (center + i) by lia.
    rewrite (weight_opposite i) by lia. lia. }
  assert (Hcentre : dyadic (qs + qw) (P center * W r) (p center * w r)%float)
    by (apply mul_dyadic; try assumption; lia).
  apply (dyadic_close (qs + qw) (P center * W r + P center * W r)).
  - rewrite <- Hsum. apply add_dyadic; try assumption. rewrite Hsum. lia.
  - apply add_dyadic; try assumption. lia.
Qed.
End FixedPointAntisymmetric.

(** X5. On fixed-point data the antisymmetric path returns the negated
    weighted sum. Let the samples of a window be doubles n * 2^qs with
    |n| <= B, and let the taps of a kernel of odd length 2r+1 be doubles
    m * 2^qw with |m| <= Wm that are exactly antisymmetric
    (w[r+i] = -w[r-i] for i in 1..r), with (2r+2) * B * Wm < 2^53 and both
    scales within [-1074, 971]. Then the antisymmetric sum
    center*w[r] + sum_i (left_i - right_i)*w[r+i] and the full weighted sum
    add up, as doubles, to twice the centre term center*w[r]: with a zero
    centre tap the antisymmetric path returns the negation of the full
    weighted sum. *)
Theorem antisymmetric_path_negates (line : Z -> outcome float) (weights : list float)
    (r center qs qw B Wm : Z) (c0 w0 : float) :
  0 <= r ->
  vsize weights = 2 * r + 1 ->
  (forall i, 1 <= i <= r ->
     exists x, vget weights (r - i) = Ok x /\ vget weights (r + i) = Ok (- x)%float) ->
  forallb (fixed_point qw Wm) weights = true ->
  0 <= B -> 1 <= Wm -> (2 * r + 2) * B * Wm < 2 ^ 53 ->
  -1074 <= qs <= 971 -> -1074 <= qs + qw <= 971 ->
  (forall t, center - r <= t <= center + r ->
     exists v, line t = Ok v /\ fixed_point qs B v = true) ->
  line center = Ok c0 ->
  vget weights r = Ok w0 ->
  exists a g,
    tap_sum false true line weights r (2 * r + 1) center = Ok a /\
    tap_sum false false line weights r (2 * r + 1) center = Ok g /\
    (a + g =? c0 * w0 + c0 * w0)%float = true.
Proof.
  intros Hr Hsize Hanti Hweights HB HWm Hbits Hqs Hq Hline Hc0 Hw0.
  destruct (fixed_point_sums_cancel weights r qs qw B Wm Hr Hsize Hanti Hweights HB HWm
              Hbits Hqs Hq line center Hline) as [a [g [Ha [Hg Hsum]]]].
  exists a, g. split; [assumption |]. split; [assumption |].
  rewrite Hc0, Hw0 in Hsum. exact Hsum.
Qed.

(** X5, witness: the samples [3, 5, 10] and the gradient kernel {-1, 0, 1}
    of [sobel] at the middle coordinate. *)
Lemma antisymmetric_path_negates_witness :
  exists a g,
    tap_sum false true (fun t => vget [3; 5; 10]%float t) [-1; 0; 1]%float 1 (2 * 1 + 1) 1
      = Ok a /\
    tap_sum false false (fun t => vget [3; 5; 10]%float t) [-1; 0; 1]%float 1 (2 * 1 + 1) 1
      = Ok g /\
    (a + g =? 5 * 0 + 5 * 0)%float = true.
Proof.
  apply (antisymmetric_path_negates (fun t => vget [3; 5; 10]%float t) [-1; 0; 1]%float
           1 1 0 0 10 1 5%float 0%float).
  - lia.
  - reflexivity.
  - intros i Hi. assert (i = 1) by lia. subst i. exists (-1)%float. split; reflexivity.
  - reflexivity.
  - lia.
  - lia.
  - reflexivity.
  - lia.
  - lia.
  - intros t Ht. assert (Ecase : t = 0 \/ t = 1 \/ t = 2) by lia.
    destruct Ecase as [-> | [-> | ->]]; eexists; split; reflexivity.
  - reflexivity.
  - reflexivity.
Defined.

(** * The identity kernel, padding and slicing *)



(** Padding a flat volume gives a flat volume. *)
Lemma pad3D_flat3 {T : Type} `{Scalar T} (v cval : T) (borderType : Z)
    (depth rows cols pad_row pad_col : Z) (more : list Z) :
  0 < depth -> 0 < rows -> 0 < cols ->
  0 <= pad_row -> 0 <= pad_col -> 0 <= pad_depth_of (pad_row :: pad_col :: more) ->
  bounce_ok borderType pad_row rows -> bounce_ok borderType pad_col cols ->
  (borderType = 0 -> cval = v) ->
  pad3D (flat3 depth rows cols v) (pad_row :: pad_col :: more) borderType cval =
  Ok (flat3 (depth + 2 * pad_depth_of (pad_row :: pad_col :: more))
            (rows + 2 * pad_row) (cols + 2 * pad_col) v).
Proof.
  intros Hd Hr Hc Hpr Hpc Hpd Hbr Hbc Hfill.
  set (pads := pad_row :: pad_col :: more) in *.
  assert (Hrect : rect3 (flat3 depth rows cols v) depth rows cols)
    by (apply rect3_flat3; lia).
  destruct (pad3D_spec (flat3 depth rows cols v) pads borderType cval depth rows cols
              pad_row pad_col more Hrect Hd Hr Hc eq_refl Hpr Hpc Hpd Hbr Hbc)
    as [P [HP [HrectP Hcells]]].
  rewrite HP. f_equal.
  apply (get3_ext _ _ _ _ _ HrectP); [apply rect3_flat3; lia |].
  intros z a b Hz Ha Hb. rewrite (Hcells z a b Hz Ha Hb), get3_flat3 by assumption.
  f_equal.
  destruct (pad3D_cell_source (flat3 depth rows cols v) borderType cval depth rows cols
              pad_row pad_col (pad_depth_of pads) Hrect Hd Hr Hc Hbr Hbc z a b Ha Hb)
    as [[E Hcell] | [z' [i [j Hsrc]]]].
  - rewrite Hcell. auto.
  - destruct (get3_bounds _ _ _ _ _ _ _ _ Hrect Hsrc) as [Hz' [Hi Hj]].
    rewrite get3_flat3 in Hsrc by assumption. congruence.
Qed.

(** X7. [pad3D] never invents a sample: within the single-bounce regime,
    every cell of the padded volume of a non-empty rectangular volume is
    readable and holds the fill value (under Constant only) or a sample
    stored at some coordinate of the input. *)
Theorem pad3D_samples_from_input {T : Type} `{Scalar T} (V : @Mat3D T) (pads : list Z)
    (borderType : Z) (cval : T) (depth rows cols pad_row pad_col : Z) (more : list Z) :
  rect3 V depth rows cols -> 0 < depth -> 0 < rows -> 0 < cols ->
  pads = pad_row :: pad_col :: more ->
  Forall (fun p => 0 <= p) pads ->
  bounce_ok borderType pad_row rows -> bounce_ok borderType pad_col cols ->
  exists P,
    pad3D V pads borderType cval = Ok P /\
    forall z a b,
      0 <= z < depth + 2 * pad_depth_of pads ->
      0 <= a < rows + 2 * pad_row -> 0 <= b < cols + 2 * pad_col ->
      exists w, get3 P z a b = Ok w /\
                ((borderType = 0 /\ w = cval) \/
                 exists z' i j, 0 <= z' < depth /\ 0 <= i < rows /\ 0 <= j < cols /\
                                get3 V z' i j = Ok w).
Proof.
  intros Hrect Hd Hr Hc Hpads Hnn Hbr Hbc.
  rewrite Hpads in Hnn. destruct (Forall_pads_nonneg _ _ _ Hnn) as [Hpr [Hpc Hpd]].
  rewrite <- Hpads in Hpd.
  destruct (pad3D_spec V pads borderType cval depth rows cols pad_row pad_col more
              Hrect Hd Hr Hc Hpads Hpr Hpc Hpd Hbr Hbc) as [P [HP [_ Hcells]]].
  exists P. split; [assumption |].
  intros z a b Hz Ha Hb. eexists. split; [exact (Hcells z a b Hz Ha Hb) |].
  destruct (pad3D_cell_source V borderType cval depth rows cols pad_row pad_col
              (pad_depth_of pads) Hrect Hd Hr Hc Hbr Hbc z a b Ha Hb)
    as [Hfill | [z' [i [j Hsrc]]]].
  - left. exact Hfill.
  - right. exists z', i, j.
    destruct (get3_bounds _ _ _ _ _ _ _ _ Hrect Hsrc) as [Hz' [Hi Hj]]. auto.
Qed.

(** X7, witness: a 1 x 2 x 2 volume padded by (1, 1, 2) under Reflect101. *)
Lemma pad3D_samples_from_input_witness :
  exists P,
    pad3D [[[1; 2]; [3; 4]]]%float [1; 1; 2] 3 0%float = Ok P /\
    forall z a b,
      0 <= z < 1 + 2 * pad_depth_of [1; 1; 2] ->
      0 <= a < 2 + 2 * 1 -> 0 <= b < 2 + 2 * 1 ->
      exists w, get3 P z a b = Ok w /\
                ((3 = 0 /\ w = 0%float) \/
                 exists z' i j, 0 <= z' < 1 /\ 0 <= i < 2 /\ 0 <= j < 2 /\
                                get3 [[[1; 2]; [3; 4]]]%float z' i j = Ok w).
Proof.
  apply (pad3D_samples_from_input [[[1; 2]; [3; 4]]]%float [1; 1; 2] 3 0%float
           1 2 2 1 1 [2]).
  - split; [reflexivity |]. repeat constructor.
  - lia.
  - lia.
  - lia.
  - reflexivity.
  - repeat constructor; lia.
  - split; intros; lia.
  - split; intros; lia.
Defined.

(** X8. Padding a flat matrix gives a flat matrix: within the single-bounce
    regime, [pad2D] on [rows] by [cols] copies of [v] returns
    [rows + 2 pad_row] by [cols + 2 pad_col] copies of [v], under every
    mirror mode and, when the fill value is [v], under Constant. *)
Theorem pad2D_flat {T : Type} `{Scalar T} (v cval : T)
    (pad_row pad_col borderType rows cols : Z) :
  0 < rows -> 0 < cols -> 0 <= pad_row -> 0 <= pad_col ->
  bounce_ok borderType pad_row rows -> bounce_ok borderType pad_col cols ->
  (borderType = 0 -> cval = v) ->
  pad2D (flat2 rows cols v) pad_row pad_col borderType cval =
  Ok (flat2 (rows + 2 * pad_row) (cols + 2 * pad_col) v).
Proof.
  intros Hr Hc Hpr Hpc Hbr Hbc Hfill.
  assert (Hrect : rect (flat2 rows cols v) rows cols) by (apply rect_flat2; lia).
  destruct (pad2D_spec (flat2 rows cols v) pad_row pad_col borderType cval rows cols
              Hrect Hr Hc Hpr Hpc Hbr Hbc) as [R [HR [HrectR Hcells]]].
  rewrite HR. f_equal.
  apply (get2_ext _ _ _ _ HrectR); [apply rect_flat2; lia |].
  intros a b Ha Hb. rewrite (Hcells a b Ha Hb), get2_flat2 by assumption. f_equal.
  destruct (pad2D_cell_source (flat2 rows cols v) pad_row pad_col borderType cval rows cols
              Hrect Hr Hc Hbr Hbc a b Ha Hb) as [[E Hcell] | [i [j Hsrc]]].
  - rewrite Hcell. auto.
  - destruct (get2_bounds _ _ _ _ _ _ Hrect Hsrc) as [Hi Hj].
    rewrite get2_flat2 in Hsrc by assumption. congruence.
Qed.

(** X8, witness: a single sample padded by two columns under Replicate. *)
Lemma pad2D_flat_witness :
  pad2D (flat2 1 1 5%float) 0 2 1 0%float = Ok (flat2 (1 + 2 * 0) (1 + 2 * 2) 5%float).
Proof.
  apply (pad2D_flat 5%float 0%float 0 2 1 1 1).
  - lia.
  - lia.
  - lia.
  - lia.
  - split; intros; lia.
  - split; intros; lia.
  - intros; lia.
Defined.

(** X9. Padding by nothing is the identity: [pad2D] with pad amounts 0 and 0
    returns its non-empty rectangular input, in every mode and for every
    fill value. *)
Theorem pad2D_zero_pads {T : Type} `{Scalar T} (input : @Mat2D T) (borderType : Z) (cval : T)
    (rows cols : Z) :
  rect input rows cols -> 0 < rows -> 0 < cols ->
  pad2D input 0 0 borderType cval = Ok input.
Proof.
  intros Hrect Hr Hc.
  destruct (pad2D_spec input 0 0 borderType cval rows cols Hrect Hr Hc)
    as [R [HR [HrectR Hcells]]]; try lia; try (split; intros; lia).
  rewrite HR. f_equal.
  replace (rows + 2 * 0) with rows in * by lia.
  replace (cols + 2 * 0) with cols in * by lia.
  apply (get2_ext _ _ rows cols); auto.
  intros i j Hi Hj. rewrite Hcells by assumption. symmetry.
  exact (cell_center input 0 0 borderType cval rows cols Hrect Hr i j Hi Hj).
Qed.

(** X9, witness: a 2 x 2 slice under Reflect101. *)
Lemma pad2D_zero_pads_witness :
  pad2D [[1; 2]; [3; 4]]%float 0 0 3 7%float = Ok [[1; 2]; [3; 4]]%float.
Proof.
  apply (pad2D_zero_pads [[1; 2]; [3; 4]]%float 3 7%float 2 2).
  - split; [reflexivity |]. repeat constructor.
  - lia.
  - lia.
Defined.

(** X10. [extractSlice] is bounds-checked: on an empty volume it throws
    [invalid_argument], on an index outside [0, depth) it throws
    [out_of_range], on an index inside it returns the slice stored there,
    and it never has undefined behaviour. *)
Theorem extractSlice_checked {T : Type} `{Scalar T} (mat3d : @Mat3D T) (z : Z) :
  (vsize mat3d = 0 ->
   extractSlice mat3d z = Throw (invalid_argument "Input 3D matrix is empty")) /\
  (0 < vsize mat3d -> z < 0 \/ vsize mat3d <= z ->
   extractSlice mat3d z = Throw (out_of_range "Z index out of range")) /\
  (0 <= z < vsize mat3d ->
   exists s, extractSlice mat3d z = Ok s /\ nth_error mat3d (Z.to_nat z) = Some s) /\
  extractSlice mat3d z <> Undefined.
Proof.
  unfold extractSlice.
  destruct mat3d as [| s0 rest].
  - repeat split; try (unfold vsize; simpl; lia); try reflexivity. discriminate.
  - cbn [vempty]. set (m := s0 :: rest). rewrite Z.geb_leb.
    assert (Hpos : 0 < vsize m) by (unfold vsize, m; simpl; lia).
    repeat split.
    + lia.
    + intros _ Hout. destruct (Z.ltb_spec z 0); [reflexivity |].
      destruct (Z.leb_spec (vsize m) z); [reflexivity | lia].
    + intros Hin. destruct (Z.ltb_spec z 0); [lia |].
      destruct (Z.leb_spec (vsize m) z); [lia |]. cbn [orb].
      destruct (vget_ok m z Hin) as [s Hs]. exists s. split; [assumption |].
      now apply vget_nth_error in Hs.
    + destruct (Z.ltb_spec z 0); [discriminate |].
      destruct (Z.leb_spec (vsize m) z); [discriminate |]. cbn [orb].
      destruct (vget_ok m z) as [s Hs]; [lia |]. rewrite Hs. discriminate.
Qed.

(** X10, witness: the empty volume, and a volume of two slices read at
    indices 2 and 1. *)
Lemma extractSlice_checked_witness :
  extractSlice ([] : @Mat3D float) 0 = Throw (invalid_argument "Input 3D matrix is empty") /\
  extractSlice [[[1]]; [[2]]]%float 2 = Throw (out_of_range "Z index out of range") /\
  exists s, extractSlice [[[1]]; [[2]]]%float 1 = Ok s /\
            nth_error [[[1]]; [[2]]]%float (Z.to_nat 1) = Some s.
Proof.
  split; [| split].
  - apply (proj1 (extractSlice_checked ([] : @Mat3D float) 0)). reflexivity.
  - apply (proj1 (proj2 (extractSlice_checked [[[1]]; [[2]]]%float 2))).
    + reflexivity.
    + right. unfold vsize. simpl. lia.
  - apply (proj1 (proj2 (proj2 (extractSlice_checked [[[1]]; [[2]]]%float 1)))).
    unfold vsize. simpl. lia.
Defined.

(** X11. [pad3D] pads slice by slice: within the single-bounce regime, the
    slice of the padded volume at depth [pad_depth + z] is what [pad2D]
    returns on the slice [z] of the input, for every slice of the input. *)
Theorem extractSlice_pad3D {T : Type} `{Scalar T} (V : @Mat3D T) (pads : list Z)
    (borderType : Z) (cval : T) (depth rows cols pad_row pad_col : Z) (more : list Z) :
  rect3 V depth rows cols -> 0 < depth -> 0 < rows -> 0 < cols ->
  pads = pad_row :: pad_col :: more ->
  Forall (fun p => 0 <= p) pads ->
  bounce_ok borderType pad_row rows -> bounce_ok borderType pad_col cols ->
  exists P,
    pad3D V pads borderType cval = Ok P /\
    forall z s, extractSlice V z = Ok s ->
      extractSlice P (pad_depth_of pads + z) = pad2D s pad_row pad_col borderType cval.
Proof.
  intros Hrect Hd Hr Hc Hpads Hnn Hbr Hbc.
  rewrite Hpads in Hnn. destruct (Forall_pads_nonneg _ _ _ Hnn) as [Hpr [Hpc Hpd]].
  rewrite <- Hpads in Hpd.
  destruct (pad3D_spec V pads borderType cval depth rows cols pad_row pad_col more
              Hrect Hd Hr Hc Hpads Hpr Hpc Hpd Hbr Hbc) as [P [HP [HrectP Hcells]]].
  exists P. split; [assumption |].
  intros z s Hs.
  assert (Hlen : vsize V = depth) by apply Hrect.
  assert (HlenP : vsize P = depth + 2 * pad_depth_of pads) by apply HrectP.
  unfold extractSlice in Hs. rewrite (vempty_false V) in Hs by lia.
  rewrite Z.geb_leb in Hs.
  destruct (Z.ltb_spec z 0); [discriminate |].
  destruct (Z.leb_spec (vsize V) z); [discriminate |]. cbn [orb] in Hs.
  assert (Hz : 0 <= z < depth) by lia.
  destruct (slice_get V depth rows cols z Hrect Hz) as [Hget Hrs].
  assert (Hs' : s = nth (Z.to_nat z) V []) by congruence.
  destruct (padded_slice_spec V borderType cval depth rows cols pad_row pad_col
              Hrect Hr Hc Hpr Hpc Hbr Hbc z Hz) as [Hpad [Hrp Hpcells]].
  rewrite Hs'. rewrite Hpad.
  unfold extractSlice. rewrite (vempty_false P) by lia. rewrite Z.geb_leb.
  destruct (Z.ltb_spec (pad_depth_of pads + z) 0); [lia |].
  destruct (Z.leb_spec (vsize P) (pad_depth_of pads + z)); [lia |]. cbn [orb].
  destruct (slice_get P _ _ _ (pad_depth_of pads + z) HrectP ltac:(lia)) as [HgetP HrsP].
  rewrite HgetP. f_equal.
  apply (get2_ext _ _ _ _ HrsP Hrp).
  intros a b Ha Hb. rewrite (Hpcells a b Ha Hb).
  pose proof (Hcells (pad_depth_of pads + z) a b ltac:(lia) Ha Hb) as Hcell.
  unfold get3 in Hcell. rewrite HgetP in Hcell. cbn [bind] in Hcell.
  rewrite Hcell. f_equal. unfold pad3D_cell. rewrite Hlen.
  destruct (Z.leb_spec (pad_depth_of pads) (pad_depth_of pads + z)); [| lia].
  destruct (Z.ltb_spec (pad_depth_of pads + z) (pad_depth_of pads + depth)); [| lia].
  cbn [andb]. now replace (pad_depth_of pads + z - pad_depth_of pads) with z by lia.
Qed.

(** X11, witness: a 2 x 2 x 2 volume padded by (1, 0, 1) under Reflect. *)
Lemma extractSlice_pad3D_witness :
  exists P,
    pad3D [[[1; 2]; [3; 4]]; [[5; 6]; [7; 8]]]%float [1; 0; 1] 2 0%float = Ok P /\
    forall z s, extractSlice [[[1; 2]; [3; 4]]; [[5; 6]; [7; 8]]]%float z = Ok s ->
      extractSlice P (pad_depth_of [1; 0; 1] + z) = pad2D s 1 0 2 0%float.
Proof.
  apply (extractSlice_pad3D [[[1; 2]; [3; 4]]; [[5; 6]; [7; 8]]]%float [1; 0; 1] 2 0%float
           2 2 2 1 0 [1]).
  - split; [reflexivity |]. repeat constructor.
  - lia.
  - lia.
  - lia.
  - reflexivity.
  - repeat constructor; lia.
  - split; intros; lia.
  - split; intros; lia.
Defined.

(** X12. The depth borders of [pad3D]: within the single-bounce regime of
    rows and columns, a slice of the padded volume outside the source depth
    range holds the fill value everywhere under Constant and, under the
    mirror modes, equals the padded slice whose source index is
    [getMirrorIndex] of its offset, clamped into [0, depth - 1]: along
    depth the resolver is followed by a clamp, so no depth pad is outside
    the regime. *)
Theorem pad3D_depth_borders {T : Type} `{Scalar T} (V : @Mat3D T) (pads : list Z)
    (borderType : Z) (cval : T) (depth rows cols pad_row pad_col : Z) (more : list Z) :
  rect3 V depth rows cols -> 0 < depth -> 0 < rows -> 0 < cols ->
  pads = pad_row :: pad_col :: more ->
  Forall (fun p => 0 <= p) pads ->
  bounce_ok borderType pad_row rows -> bounce_ok borderType pad_col cols ->
  exists P,
    pad3D V pads borderType cval = Ok P /\
    forall z a b,
      0 <= z < pad_depth_of pads \/
      pad_depth_of pads + depth <= z < depth + 2 * pad_depth_of pads ->
      0 <= a < rows + 2 * pad_row -> 0 <= b < cols + 2 * pad_col ->
      (borderType = 0 -> get3 P z a b = Ok cval) /\
      (borderType <> 0 ->
       let src := clamp (getMirrorIndex (z - pad_depth_of pads) depth borderType)
                    0 (depth - 1) in
       0 <= src < depth /\
       get3 P z a b = get3 P (pad_depth_of pads + src) a b).
Proof.
  intros Hrect Hd Hr Hc Hpads Hnn Hbr Hbc.
  rewrite Hpads in Hnn. destruct (Forall_pads_nonneg _ _ _ Hnn) as [Hpr [Hpc Hpd]].
  rewrite <- Hpads in Hpd.
  destruct (pad3D_spec V pads borderType cval depth rows cols pad_row pad_col more
              Hrect Hd Hr Hc Hpads Hpr Hpc Hpd Hbr Hbc) as [P [HP [HrectP Hcells]]].
  exists P. split; [assumption |].
  intros z a b Hz Ha Hb.
  assert (Hlen : vsize V = depth) by apply Hrect.
  assert (Hout : (pad_depth_of pads <=? z) && (z <? pad_depth_of pads + depth) = false).
  { destruct (Z.leb_spec (pad_depth_of pads) z); destruct (Z.ltb_spec z (pad_depth_of pads + depth));
      try reflexivity; lia. }
  split.
  - intros E. rewrite Hcells by (assumption || lia).
    unfold pad3D_cell. rewrite Hlen, Hout, E. reflexivity.
  - intros N. cbv zeta.
    pose proof (clamp_in_range (getMirrorIndex (z - pad_depth_of pads) depth borderType)
                  0 (depth - 1) ltac:(lia)) as Hsrc.
    split; [lia |].
    rewrite !Hcells by (assumption || lia).
    f_equal. unfold pad3D_cell. rewrite Hlen, Hout.
    destruct (Z.eqb_spec borderType 0) as [E | _]; [contradiction |].
    set (src := clamp (getMirrorIndex (z - pad_depth_of pads) depth borderType) 0 (depth - 1))
      in *.
    destruct (Z.leb_spec (pad_depth_of pads) (pad_depth_of pads + src)); [| lia].
    destruct (Z.ltb_spec (pad_depth_of pads + src) (pad_depth_of pads + depth)); [| lia].
    cbn [andb]. now replace (pad_depth_of pads + src - pad_depth_of pads) with src by lia.
Qed.

(** X12, witness: three 1 x 1 slices padded by two slices on each side
    under Reflect. *)
Lemma pad3D_depth_borders_witness :
  exists P,
    pad3D [[[1]]; [[2]]; [[3]]]%float [0; 0; 2] 2 0%float = Ok P /\
    forall z a b,
      0 <= z < pad_depth_of [0; 0; 2] \/
      pad_depth_of [0; 0; 2] + 3 <= z < 3 + 2 * pad_depth_of [0; 0; 2] ->
      0 <= a < 1 + 2 * 0 -> 0 <= b < 1 + 2 * 0 ->
      (2 = 0 -> get3 P z a b = Ok 0%float) /\
      (2 <> 0 ->
       let src := clamp (getMirrorIndex (z - pad_depth_of [0; 0; 2]) 3 2) 0 (3 - 1) in
       0 <= src < 3 /\
       get3 P z a b = get3 P (pad_depth_of [0; 0; 2] + src) a b).
Proof.
  apply (pad3D_depth_borders [[[1]]; [[2]]; [[3]]]%float [0; 0; 2] 2 0%float 3 1 1 0 0 [2]).
  - split; [reflexivity |]. repeat constructor.
  - lia.
  - lia.
  - lia.
  - reflexivity.
  - repeat constructor; lia.
  - split; intros; lia.
  - split; intros; lia.
Defined.

(** ** Kernels of even length, and interior cells *)

Lemma bounce_ok_dec borderType pad size :
  bounce_ok borderType pad size \/ ~ bounce_ok borderType pad size.
Proof.
  unfold bounce_ok.
  destruct (Z.eq_dec borderType 2) as [E2 | N2]; destruct (Z.eq_dec borderType 3) as [E3 | N3];
    destruct (Z_le_gt_dec pad size); destruct (Z_lt_le_dec pad size);
    try (left; split; intros; lia); right; intros [H2 H3]; try specialize (H2 E2);
    try specialize (H3 E3); lia.
Qed.

Lemma vget_past_end {A : Type} (v : list A) i : vsize v <= i -> vget v i = Undefined.
Proof.
  intros Hi. unfold vget. destruct (Z.ltb_spec i 0); [reflexivity |].
  destruct (nth_error v (Z.to_nat i)) eqn:E; [| reflexivity].
  assert (Z.to_nat i < length v)%nat by (apply nth_error_Some; congruence).
  unfold vsize in Hi. lia.
Qed.

(** The symmetry test on a kernel of even length 2m reads [weights[2m]]. *)
Lemma kernel_symmetry_even {T : Type} `{Scalar T} (weights : list T) (m : Z) :
  1 <= m -> vsize weights = 2 * m -> kernel_symmetry weights m = Undefined.
Proof.
  intros Hm Hsize. unfold kernel_symmetry.
  apply (for_range_undefined 1 (m + 1) _ m).
  - intros i [s a] e Hi.
    destruct (vget weights (m + i)) eqn:Ep; cbn [bind]; try discriminate.
    + destruct (vget weights (m - i)) eqn:Em; cbn [bind]; try discriminate.
      exfalso. eapply vget_not_throw; eauto.
    + exfalso. eapply vget_not_throw; eauto.
  - lia.
  - intros [s a]. rewrite vget_past_end by lia. reflexivity.
Qed.

(** X13. Kernels of even length: for every non-empty rectangular volume,
    every axis in {0,1,2} and every border mode, [correlate1d] with a
    kernel of even length 2m >= 2 has undefined behaviour: the symmetry
    test reads [weights[k_half + k_half]], one past the end of the
    kernel (or the padding has already left the single-bounce regime). *)
Theorem correlate1d_even_kernel_undefined {T : Type} `{Scalar T} (input output : @Mat3D T)
    (weights : list T) (axis borderType : Z) (cval : T) (m depth rows cols : Z) :
  rect3 input depth rows cols -> 0 < depth -> 0 < rows -> 0 < cols ->
  0 <= axis <= 2 ->
  1 <= m -> vsize weights = 2 * m ->
  correlate1d input weights axis output borderType cval = Undefined.
Proof.
  intros Hrect Hd Hr Hc Haxis Hm Hsize.
  assert (Hlen : vsize input = depth) by apply Hrect.
  assert (Hhalf : vsize weights / 2 = m).
  { rewrite Hsize. symmetry. apply (Z.div_unique_pos (2 * m) 2 m 0); lia. }
  unfold correlate1d, correlate1d_with.
  rewrite (vempty_false input) by lia. rewrite (vempty_false weights) by lia.
  cbn [orb]. rewrite Z.gtb_ltb.
  destruct (Z.ltb_spec axis 0); [lia |]. destruct (Z.ltb_spec 2 axis); [lia |].
  cbn [orb]. cbv zeta. rewrite Hhalf, Hlen.
  rewrite (axis_pads_set m axis Haxis). cbn [bind].
  set (p0 := axis_pad axis 0 m). set (p1 := axis_pad axis 1 m). set (p2 := axis_pad axis 2 m).
  assert (Hp0 : 0 <= p0) by (apply axis_pad_nonneg; lia).
  assert (Hp1 : 0 <= p1) by (apply axis_pad_nonneg; lia).
  assert (Hp2 : 0 <= p2) by (apply axis_pad_nonneg; lia).
  destruct (bounce_ok_dec borderType p0 rows) as [Hbr | Hnbr];
    [destruct (bounce_ok_dec borderType p1 cols) as [Hbc | Hnbc] |].
  - destruct (pad3D_spec input [p0; p1; p2] borderType cval depth rows cols p0 p1 [p2])
      as [padded [Hpad _]]; auto.
    rewrite Hpad. cbn [bind].
    destruct (slice_get input depth rows cols 0 Hrect ltac:(lia)) as [Hs0 [Hs0r Hs0c]].
    destruct (vget_ok (nth (Z.to_nat 0) input []) 0) as [r0 Hr0]; [lia |].
    assert (Hr0c : vsize r0 = cols) by exact (vget_Forall _ _ _ _ Hs0c Hr0).
    destruct (new3_ok depth rows cols s_zero) as [out0 [Hout0 _]]; try lia.
    rewrite Hs0. cbn [bind]. rewrite Hr0. cbn [bind].
    rewrite Hs0r, Hr0c, Hout0. cbn [bind].
    now rewrite (kernel_symmetry_even weights m Hm Hsize).
  - rewrite (pad3D_undefined input borderType cval depth rows cols p0 p1 [p2]); auto.
    tauto.
  - rewrite (pad3D_undefined input borderType cval depth rows cols p0 p1 [p2]); auto.
    tauto.
Qed.

(** X13, witness: the two-tap kernel {0.5, 0.5} under Replicate. *)
Lemma correlate1d_even_kernel_undefined_witness :
  correlate1d [[[1; 2]; [3; 4]]]%float [0.5; 0.5]%float 1 [] 1 0%float = Undefined.
Proof.
  apply (correlate1d_even_kernel_undefined [[[1; 2]; [3; 4]]]%float [] [0.5; 0.5]%float
           1 1 0%float 1 1 2 2).
  - split; [reflexivity |]. repeat constructor.
  - lia.
  - lia.
  - lia.
  - lia.
  - lia.
  - reflexivity.
Defined.

(** X14. Interior cells do not depend on the border: within the
    single-bounce regime, at every coordinate at least k away from both
    ends of the filtered axis, the result of [correlate1d] is the sum of
    the chosen path taken over the samples of the input itself, whatever
    the border mode and the fill value. *)
Theorem correlate1d_interior {T : Type} `{Scalar T} (input output : @Mat3D T)
    (weights : list T) (axis borderType : Z) (cval : T) (k depth rows cols : Z) :
  0 <= k -> vsize weights = 2 * k + 1 ->
  rect3 input depth rows cols -> 0 < depth -> 0 < rows -> 0 < cols ->
  0 <= axis <= 2 ->
  (axis = 0 -> bounce_ok borderType k rows) ->
  (axis = 1 -> bounce_ok borderType k cols) ->
  exists out symmetric anti_symmetric,
    kernel_symmetry weights k = Ok (symmetric, anti_symmetric) /\
    correlate1d input weights axis output borderType cval = Ok out /\
    forall z r c, 0 <= z < depth -> 0 <= r < rows -> 0 <= c < cols ->
      k <= along axis z r c < extent axis depth rows cols - k ->
      get3 out z r c =
      tap_sum symmetric anti_symmetric (input_line input axis z r c) weights k (2 * k + 1)
        (along axis z r c).
Proof.
  intros Hk Hsize Hrect Hd Hr Hc Haxis Hb0 Hb1.
  destruct (kernel_symmetry_total weights k Hsize) as [[symmetric anti_symmetric] Hflags].
  destruct (correlate1d_with_cells weights k Hk Hsize kernel_symmetry input output axis
              borderType cval depth rows cols symmetric anti_symmetric
              Hflags Hrect Hd Hr Hc Haxis Hb0 Hb1)
    as [padded [out [Hpad [Hrun [_ Hcells]]]]].
  exists out, symmetric, anti_symmetric.
  split; [exact Hflags |]. split; [exact Hrun |].
  intros z r c Hz Hrr Hcc Hin.
  destruct (Hcells z r c Hz Hrr Hcc) as [v [Htap Hget]].
  rewrite Hget, <- Htap. clear v Htap Hget Hcells Hrun.
  set (p0 := axis_pad axis 0 k) in *. set (p1 := axis_pad axis 1 k) in *.
  set (p2 := axis_pad axis 2 k) in *.
  assert (Hp0 : 0 <= p0) by (apply axis_pad_nonneg; lia).
  assert (Hp1 : 0 <= p1) by (apply axis_pad_nonneg; lia).
  assert (Hp2 : 0 <= p2) by (apply axis_pad_nonneg; lia).
  destruct (pad3D_spec input [p0; p1; p2] borderType cval depth rows cols p0 p1 [p2])
    as [P [HP [_ HPcells]]]; auto; try (now apply axis_pad_bounce).
  assert (P = padded) by congruence. subst P. cbn [pad_depth_of] in HPcells.
  assert (Hcentre : forall z' a b, 0 <= z' < depth -> 0 <= a < rows -> 0 <= b < cols ->
            get3 padded (z' + p2) (a + p0) (b + p1) = get3 input z' a b).
  { intros z' a b Hz' Ha Hb. rewrite HPcells by lia.
    rewrite (Z.add_comm z'), (Z.add_comm a), (Z.add_comm b). symmetry.
    apply (pad3D_cell_center input borderType cval depth rows cols); assumption. }
  assert (Hpv : (axis = 0 -> p0 = k /\ p1 = 0 /\ p2 = 0) /\
                (axis = 1 -> p0 = 0 /\ p1 = k /\ p2 = 0) /\
                (axis = 2 -> p0 = 0 /\ p1 = 0 /\ p2 = k)).
  { split; [| split]; intros E; unfold p0, p1, p2; rewrite E; repeat split. }
  destruct Hpv as [Hv0 [Hv1 Hv2]].
  unfold tap_at, input_line, along, extent in *.
  destruct (Z.eqb_spec axis 0) as [E0 | N0]; [| destruct (Z.eqb_spec axis 1) as [E1 | N1]].
  - destruct (Hv0 E0) as [Ep0 [Ep1 Ep2]].
    apply (tap_sum_window weights k Hk). intros d Hwin.
    replace (k + r + d) with (r + d + p0) by lia. apply Hcentre; lia.
  - destruct (Hv1 E1) as [Ep0 [Ep1 Ep2]].
    apply (tap_sum_window weights k Hk). intros d Hwin.
    replace (k + c + d) with (c + d + p1) by lia. apply Hcentre; lia.
  - assert (E2 : axis = 2) by lia. destruct (Hv2 E2) as [Ep0 [Ep1 Ep2]].
    apply (tap_sum_window weights k Hk). intros d Hwin.
    replace (k + z + d) with (z + d + p2) by lia. apply Hcentre; lia.
Qed.

(** X14, witness: the row [1, 2, 3, 4] and the kernel {1, 2, 4} along the
    column axis under Reflect101. *)
Lemma correlate1d_interior_witness :
  exists out symmetric anti_symmetric,
    kernel_symmetry [1; 2; 4]%float 1 = Ok (symmetric, anti_symmetric) /\
    correlate1d [[[1; 2; 3; 4]]]%float [1; 2; 4]%float 1 [] 3 0%float = Ok out /\
    forall z r c, 0 <= z < 1 -> 0 <= r < 1 -> 0 <= c < 4 ->
      1 <= along 1 z r c < extent 1 1 1 4 - 1 ->
      get3 out z r c =
      tap_sum symmetric anti_symmetric (input_line [[[1; 2; 3; 4]]]%float 1 z r c)
        [1; 2; 4]%float 1 (2 * 1 + 1) (along 1 z r c).
Proof.
  apply (correlate1d_interior [[[1; 2; 3; 4]]]%float [] [1; 2; 4]%float 1 3 0%float 1 1 1 4).
  - lia.
  - reflexivity.
  - split; [reflexivity |]. repeat constructor.
  - lia.
  - lia.
  - lia.
  - lia.
  - intros; discriminate.
  - intros _. split; intros; lia.
Defined.

(** * The Gaussian kernel *)

(** ** Sign symmetry of the binary64 product *)

Lemma SFopp_binary_round_aux prec emax s m e l :
  SFopp (binary_round_aux prec emax s m e l) = binary_round_aux prec emax (negb s) m e l.
Proof.
  unfold binary_round_aux.
  destruct (shr_fexp prec emax m e l) as [mrs' e'].
  destruct (shr_fexp prec emax (round_nearest_even (shr_m mrs') (loc_of_shr_record mrs')) e'
              loc_Exact) as [mrs'' e''].
  destruct (shr_m mrs''); try reflexivity.
  destruct (e'' <=? emax - prec); reflexivity.
Qed.

Lemma SFmul_opp_r prec emax x y :
  SFmul prec emax x (SFopp y) = SFopp (SFmul prec emax x y).
Proof.
  destruct x as [sx | sx | | sx mx ex]; destruct y as [sy | sy | | sy my ey];
    cbn [SFmul SFopp]; rewrite <- ?negb_xorb_r; try reflexivity.
  now rewrite SFopp_binary_round_aux.
Qed.

Lemma SFmul_opp_l prec emax x y :
  SFmul prec emax (SFopp x) y = SFopp (SFmul prec emax x y).
Proof.
  destruct x as [sx | sx | | sx mx ex]; destruct y as [sy | sy | | sy my ey];
    cbn [SFmul SFopp]; rewrite <- ?negb_xorb_l; try reflexivity.
  now rewrite SFopp_binary_round_aux.
Qed.

Lemma SFopp_involutive x : SFopp (SFopp x) = x.
Proof. destruct x; cbn [SFopp]; now rewrite ?negb_involutive. Qed.

Lemma mul_opp_opp (x y : float) : (- x * - y = x * y)%float.
Proof.
  apply Prim2SF_inj. rewrite !mul_spec, !opp_spec. unfold SF64mul.
  now rewrite SFmul_opp_r, SFmul_opp_l, SFopp_involutive.
Qed.

Lemma mul_opp_r (x y : float) : (x * - y = - (x * y))%float.
Proof.
  apply Prim2SF_inj. rewrite opp_spec, !mul_spec, opp_spec. apply SFmul_opp_r.
Qed.

Lemma opp_involutive (x : float) : (- - x = x)%float.
Proof. apply Prim2SF_inj. rewrite !opp_spec. apply SFopp_involutive. Qed.

Lemma int_to_double_opp (x : Z) :
  x <> 0 -> int_to_double (- x) = (- int_to_double x)%float.
Proof.
  intros Hx. unfold int_to_double.
  destruct (Z.ltb_spec (- x) 0); destruct (Z.ltb_spec x 0); try lia.
  - now rewrite Z.opp_involutive.
  - now rewrite opp_involutive.
Qed.

(** The Gaussian profile is even. *)
Lemma gauss_tap_even exp sigma x : gauss_tap exp sigma (- x) = gauss_tap exp sigma x.
Proof.
  destruct (Z.eq_dec x 0) as [-> | Hx]; [reflexivity |].
  unfold gauss_tap. f_equal. rewrite (int_to_double_opp x Hx).
  rewrite (mul_opp_r (-0.5 / (sigma * sigma)) (int_to_double x)).
  now rewrite mul_opp_opp.
Qed.

Section GaussianKernel.
Variable exp : float -> float.
Variables (sigma : float) (radius : Z).
Hypothesis Hradius : 0 <= radius.

(** The loop of [gaussian_kernel1d] stores the profile tap by tap. *)
Lemma gaussian_kernel1d_taps :
  exists kernel sum,
    gaussian_kernel1d exp sigma radius = Ok (map (fun val => val / sum)%float kernel) /\
    vsize kernel = 2 * radius + 1 /\
    forall i, 0 <= i < 2 * radius + 1 -> vget kernel i = Ok (gauss_tap exp sigma (i - radius)).
Proof.
  unfold gaussian_kernel1d. cbv zeta.
  rewrite vnew_ok by lia. cbn [bind]. rewrite vsize_repeat by lia.
  match goal with
  | |- context [for_range 0 (2 * radius + 1) ?body ?init] =>
      destruct (for_range_inv
                  (fun i (st : list float * float) =>
                     vsize (fst st) = 2 * radius + 1 /\
                     forall j, 0 <= j < i -> vget (fst st) j = Ok (gauss_tap exp sigma (j - radius)))
                  0 (2 * radius + 1) body init) as [[kernel sum] [Hrun [Hlen Htaps]]]
  end.
  - lia.
  - cbn [fst]. split; [apply vsize_repeat; lia |]. intros j Hj. lia.
  - intros i [kernel sum] Hi [Hlen Htaps]. cbn [fst] in *.
    rewrite vset_ok by lia. cbn [bind]. rewrite vget_upd_eq by lia. cbn [bind].
    eexists. split; [reflexivity |]. cbn [fst]. split.
    + now rewrite vsize_upd.
    + intros j Hj. destruct (Z.eq_dec j i) as [-> | Hne].
      * rewrite vget_upd_eq by lia. reflexivity.
      * rewrite vget_upd_ne by lia. apply Htaps. lia.
  - rewrite Hrun. cbn [bind]. cbn [fst] in *. exists kernel, sum. auto.
Qed.
End GaussianKernel.

Lemma vget_rev {A : Type} (v : list A) i :
  0 <= i < vsize v -> vget (rev v) i = vget v (vsize v - 1 - i).
Proof.
  intros Hi. unfold vget, vsize in *.
  destruct (Z.ltb_spec i 0); [lia |].
  destruct (Z.ltb_spec (Z.of_nat (length v) - 1 - i) 0); [lia |].
  rewrite nth_error_rev.
  destruct (Nat.ltb_spec (Z.to_nat i) (length v)); [| lia].
  now replace (Z.to_nat (Z.of_nat (length v) - 1 - i))
    with (length v - Datatypes.S (Z.to_nat i))%nat by lia.
Qed.

(** The Gaussian kernel has 2 radius + 1 taps and reads the same in both
    directions. *)
Lemma gaussian_kernel1d_ok (exp : float -> float) (sigma : float) (radius : Z) :
  0 <= radius ->
  exists kernel,
    gaussian_kernel1d exp sigma radius = Ok kernel /\
    vsize kernel = 2 * radius + 1 /\
    rev kernel = kernel.
Proof.
  intros Hradius.
  destruct (gaussian_kernel1d_taps exp sigma radius Hradius)
    as [taps [sum [Hrun [Hlen Htaps]]]].
  eexists. split; [exact Hrun |]. split.
  - now rewrite vsize_map.
  - rewrite <- map_rev. f_equal.
    apply vget_ext.
    + unfold vsize. now rewrite length_rev.
    + intros i Hi.
      assert (Hi' : 0 <= i < vsize taps) by (unfold vsize in *; rewrite length_rev in Hi; lia).
      rewrite vget_rev by assumption. rewrite !Htaps by lia.
      f_equal. rewrite <- (gauss_tap_even exp sigma (i - radius)). f_equal. lia.
Qed.



(** * The pipelines inside and outside the regime *)

Section CorrelateRegime.
Context {T : Type} `{Scalar T}.
Variables (weights : list T) (k : Z).
Hypothesis Hk : 0 <= k.
Hypothesis Hsize : vsize weights = 2 * k + 1.
Variables (input : @Mat3D T) (depth rows cols : Z).
Hypothesis Hrect : rect3 input depth rows cols.
Hypothesis Hdepth : 0 < depth.
Hypothesis Hrows : 0 < rows.
Hypothesis Hcols : 0 < cols.

Lemma correlate1d_returns axis output borderType cval :
  0 <= axis <= 2 ->
  (axis = 0 -> bounce_ok borderType k rows) ->
  (axis = 1 -> bounce_ok borderType k cols) ->
  exists out,
    correlate1d input weights axis output borderType cval = Ok out /\
    rect3 out depth rows cols.
Proof.
  intros Haxis Hb0 Hb1. unfold correlate1d.
  apply (correlate1d_with_total weights k Hk Hsize); auto.
  now apply kernel_symmetry_total.
Qed.

Lemma correlate1d_escapes axis output borderType cval :
  0 <= axis <= 1 ->
  (axis = 0 -> ~ bounce_ok borderType k rows) ->
  (axis = 1 -> ~ bounce_ok borderType k cols) ->
  correlate1d input weights axis output borderType cval = Undefined.
Proof.
  intros Haxis Hb0 Hb1.
  assert (Hlen : vsize input = depth) by apply Hrect.
  assert (Hhalf : vsize weights / 2 = k).
  { rewrite Hsize. symmetry. apply (Z.div_unique_pos (2 * k + 1) 2 k 1); lia. }
  unfold correlate1d, correlate1d_with.
  rewrite (vempty_false input) by lia. rewrite (vempty_false weights) by lia.
  cbn [orb]. rewrite Z.gtb_ltb.
  destruct (Z.ltb_spec axis 0); [lia |]. destruct (Z.ltb_spec 2 axis); [lia |].
  cbn [orb]. cbv zeta. rewrite Hhalf.
  rewrite (axis_pads_set k axis) by lia. cbn [bind].
  rewrite (pad3D_undefined input borderType cval depth rows cols
             (axis_pad axis 0 k) (axis_pad axis 1 k) [axis_pad axis 2 k]);
    auto; try (apply axis_pad_nonneg; lia).
  unfold axis_pad. intros [Hr Hc].
  assert (Hcases : axis = 0 \/ axis = 1) by lia.
  destruct Hcases as [E | E]; rewrite E in Hr, Hc; cbn in Hr, Hc.
  - exact (Hb0 E Hr).
  - exact (Hb1 E Hc).
Qed.
End CorrelateRegime.





(** [sobel] on a non-empty volume and a valid axis: the gradient pass along
    [axis], then the smoothing pass along each other axis in index order. *)
Lemma sobel_unfold (V : Mat3D) (axis borderType : Z) (cval : float) :
  vempty V = false -> 0 <= axis <= 2 ->
  sobel V axis borderType cval =
  (g <- correlate1d V [-1; 0; 1]%float axis [] borderType cval ;;
   a <- (if negb (0 =? axis) then correlate1d g [1; 2; 1]%float 0 [] borderType cval
         else Ok g) ;;
   b <- (if negb (1 =? axis) then correlate1d a [1; 2; 1]%float 1 [] borderType cval
         else Ok a) ;;
   if negb (2 =? axis) then correlate1d b [1; 2; 1]%float 2 [] borderType cval
   else Ok b).
Proof.
  intros Hne Haxis. unfold sobel. rewrite Hne. rewrite Z.gtb_ltb.
  destruct (Z.ltb_spec axis 0); [lia |]. destruct (Z.ltb_spec 2 axis); [lia |].
  cbn [orb]. cbv zeta.
  destruct (correlate1d V [-1; 0; 1]%float axis [] borderType cval) as [g | |];
    cbn [bind]; auto.
  unfold for_range. change (Z.to_nat (3 - 0)) with 3%nat. cbn [for_steps].
  change (0 + 1) with 1. change (1 + 1) with 2.
  destruct (negb (0 =? axis)).
  - destruct (correlate1d g [1; 2; 1]%float 0 [] borderType cval) as [a | |];
      cbn [bind]; auto.
    destruct (negb (1 =? axis)).
    + destruct (correlate1d a [1; 2; 1]%float 1 [] borderType cval) as [b | |];
        cbn [bind]; auto.
      destruct (negb (2 =? axis)); [| reflexivity].
      destruct (correlate1d b [1; 2; 1]%float 2 [] borderType cval); reflexivity.
    + cbn [bind]. destruct (negb (2 =? axis)); [| reflexivity].
      destruct (correlate1d a [1; 2; 1]%float 2 [] borderType cval); reflexivity.
  - cbn [bind]. destruct (negb (1 =? axis)).
    + destruct (correlate1d g [1; 2; 1]%float 1 [] borderType cval) as [b | |];
        cbn [bind]; auto.
      destruct (negb (2 =? axis)); [| reflexivity].
      destruct (correlate1d b [1; 2; 1]%float 2 [] borderType cval); reflexivity.
    + cbn [bind]. destruct (negb (2 =? axis)); [| reflexivity].
      destruct (correlate1d g [1; 2; 1]%float 2 [] borderType cval); reflexivity.
Qed.

(** X18. [sobel] on a non-empty rectangular volume: an axis outside {0,1,2}
    throws [invalid_argument]; with a valid axis the call returns a volume
    of the input's shape when a pad of 1 is within the single-bounce regime
    of the border mode along rows and columns, and has undefined behaviour
    otherwise (Reflect101 on a volume with a single row or column). *)
Theorem sobel_regime (V : Mat3D) (axis borderType : Z) (cval : float) (depth rows cols : Z) :
  rect3 V depth rows cols -> 0 < depth -> 0 < rows -> 0 < cols ->
  (axis < 0 \/ 2 < axis ->
   sobel V axis borderType cval = Throw (invalid_argument "Invalid axis (0-2)")) /\
  (0 <= axis <= 2 ->
   bounce_ok borderType 1 rows /\ bounce_ok borderType 1 cols ->
   exists out, sobel V axis borderType cval = Ok out /\ rect3 out depth rows cols) /\
  (0 <= axis <= 2 ->
   ~ (bounce_ok borderType 1 rows /\ bounce_ok borderType 1 cols) ->
   sobel V axis borderType cval = Undefined).
Proof.
  intros Hrect Hd Hr Hc.
  assert (Hne : vempty V = false) by (apply vempty_false; destruct Hrect; lia).
  assert (Hgrad : vsize [-1; 0; 1]%float = 2 * 1 + 1) by reflexivity.
  assert (Hsmooth : vsize [1; 2; 1]%float = 2 * 1 + 1) by reflexivity.
  assert (H01 : 0 <= 1) by lia.
  pose proof (sobel_unfold V axis borderType cval Hne) as Hrun.
  split; [| split].
  - intros Hbad. unfold sobel. rewrite Hne. rewrite Z.gtb_ltb.
    destruct (Z.ltb_spec axis 0); [reflexivity |].
    destruct (Z.ltb_spec 2 axis); [reflexivity | lia].
  - intros Haxis [Hbr Hbc]. rewrite (Hrun Haxis).
    destruct (correlate1d_returns [-1; 0; 1]%float 1 H01 Hgrad V depth rows cols
                Hrect Hd Hr Hc axis [] borderType cval) as [g [-> Hg]]; auto.
    cbn [bind].
    assert (Ha : exists a,
              (if negb (0 =? axis) then correlate1d g [1; 2; 1]%float 0 [] borderType cval
               else Ok g) = Ok a /\ rect3 a depth rows cols).
    { destruct (negb (0 =? axis)); [| eauto].
      apply (correlate1d_returns [1; 2; 1]%float 1 H01 Hsmooth g depth rows cols Hg Hd Hr Hc);
        auto; lia. }
    destruct Ha as [a [-> Ha]]. cbn [bind].
    assert (Hb : exists b,
              (if negb (1 =? axis) then correlate1d a [1; 2; 1]%float 1 [] borderType cval
               else Ok a) = Ok b /\ rect3 b depth rows cols).
    { destruct (negb (1 =? axis)); [| eauto].
      apply (correlate1d_returns [1; 2; 1]%float 1 H01 Hsmooth a depth rows cols Ha Hd Hr Hc);
        auto; lia. }
    destruct Hb as [b [-> Hb]]. cbn [bind].
    destruct (negb (2 =? axis)); [| eauto].
    apply (correlate1d_returns [1; 2; 1]%float 1 H01 Hsmooth b depth rows cols Hb Hd Hr Hc);
      intros; lia.
  - intros Haxis Hout. rewrite (Hrun Haxis).
    assert (Hcases : axis = 0 \/ axis = 1 \/ axis = 2) by lia.
    destruct (bounce_ok_dec borderType 1 rows) as [Hbr | Hnbr].
    + assert (Hnbc : ~ bounce_ok borderType 1 cols) by tauto.
      destruct Hcases as [-> | [-> | ->]]; cbn [Z.eqb negb Pos.eqb].
      * destruct (correlate1d_returns [-1; 0; 1]%float 1 H01 Hgrad V depth rows cols
                    Hrect Hd Hr Hc 0 [] borderType cval) as [g [-> Hg]]; auto; try lia.
        cbn [bind].
        now rewrite (correlate1d_escapes [1; 2; 1]%float 1 H01 Hsmooth g depth rows cols
                       Hg Hd Hr Hc 1 [] borderType cval) by (intros; lia || auto).
      * now rewrite (correlate1d_escapes [-1; 0; 1]%float 1 H01 Hgrad V depth rows cols
                       Hrect Hd Hr Hc 1 [] borderType cval) by (intros; lia || auto).
      * destruct (correlate1d_returns [-1; 0; 1]%float 1 H01 Hgrad V depth rows cols
                    Hrect Hd Hr Hc 2 [] borderType cval) as [g [-> Hg]]; auto; try lia.
        cbn [bind].
        destruct (correlate1d_returns [1; 2; 1]%float 1 H01 Hsmooth g depth rows cols
                    Hg Hd Hr Hc 0 [] borderType cval) as [a [-> Ha]]; auto; try lia.
        cbn [bind].
        now rewrite (correlate1d_escapes [1; 2; 1]%float 1 H01 Hsmooth a depth rows cols
                       Ha Hd Hr Hc 1 [] borderType cval) by (intros; lia || auto).
    + destruct Hcases as [-> | [-> | ->]]; cbn [Z.eqb negb Pos.eqb].
      * now rewrite (correlate1d_escapes [-1; 0; 1]%float 1 H01 Hgrad V depth rows cols
                       Hrect Hd Hr Hc 0 [] borderType cval) by (intros; lia || auto).
      * destruct (bounce_ok_dec borderType 1 cols) as [Hbc | Hnbc].
        -- destruct (correlate1d_returns [-1; 0; 1]%float 1 H01 Hgrad V depth rows cols
                       Hrect Hd Hr Hc 1 [] borderType cval) as [g [-> Hg]]; auto; try lia.
           cbn [bind].
           now rewrite (correlate1d_escapes [1; 2; 1]%float 1 H01 Hsmooth g depth rows cols
                          Hg Hd Hr Hc 0 [] borderType cval) by (intros; lia || auto).
        -- now rewrite (correlate1d_escapes [-1; 0; 1]%float 1 H01 Hgrad V depth rows cols
                          Hrect Hd Hr Hc 1 [] borderType cval) by (intros; lia || auto).
      * destruct (correlate1d_returns [-1; 0; 1]%float 1 H01 Hgrad V depth rows cols
                    Hrect Hd Hr Hc 2 [] borderType cval) as [g [-> Hg]]; auto; try lia.
        cbn [bind].
        now rewrite (correlate1d_escapes [1; 2; 1]%float 1 H01 Hsmooth g depth rows cols
                       Hg Hd Hr Hc 0 [] borderType cval) by (intros; lia || auto).
Qed.

(** X18, witness: axis 5; a 1 x 2 x 2 volume under Reflect101; a single row
    under Reflect101. *)
Lemma sobel_regime_witness :
  sobel [[[1; 2]; [3; 4]]]%float 5 1 0%float = Throw (invalid_argument "Invalid axis (0-2)") /\
  (exists out, sobel [[[1; 2]; [3; 4]]]%float 1 3 0%float = Ok out /\ rect3 out 1 2 2) /\
  sobel [[[1; 2]]]%float 2 3 0%float = Undefined.
Proof.
  split; [| split].
  - apply (proj1 (sobel_regime [[[1; 2]; [3; 4]]]%float 5 1 0%float 1 2 2
                    ltac:(split; [reflexivity | repeat constructor])
                    ltac:(lia) ltac:(lia) ltac:(lia))).
    lia.
  - apply (proj1 (proj2 (sobel_regime [[[1; 2]; [3; 4]]]%float 1 3 0%float 1 2 2
                           ltac:(split; [reflexivity | repeat constructor])
                           ltac:(lia) ltac:(lia) ltac:(lia)))).
    + lia.
    + split; split; intros; lia.
  - apply (proj2 (proj2 (sobel_regime [[[1; 2]]]%float 2 3 0%float 1 1 2
                           ltac:(split; [reflexivity | repeat constructor])
                           ltac:(lia) ltac:(lia) ltac:(lia)))).
    + lia.
    + intros [[_ Hrow] _]. specialize (Hrow eq_refl). lia.
Defined.

(** ** Flat volumes through [correlate1d] *)

Section CorrelateFlat.
Context {T : Type} `{Scalar T}.
Variables (weights : list T) (k : Z).
Hypothesis Hk : 0 <= k.
Hypothesis Hsize : vsize weights = 2 * k + 1.

(** On a flat volume every window reads the same sample [v], so every cell
    of the result holds the sum over a constant line. *)
Lemma correlate1d_with_flat (paths : list T -> Z -> outcome (bool * bool))
    (output : @Mat3D T) (v w cval : T) axis borderType depth rows cols
    symmetric anti_symmetric :
  paths weights k = Ok (symmetric, anti_symmetric) ->
  tap_sum symmetric anti_symmetric (fun _ => Ok v) weights k (2 * k + 1) 0 = Ok w ->
  0 < depth -> 0 < rows -> 0 < cols ->
  0 <= axis <= 2 ->
  (axis = 0 -> bounce_ok borderType k rows) ->
  (axis = 1 -> bounce_ok borderType k cols) ->
  (borderType = 0 -> cval = v) ->
  correlate1d_with paths (flat3 depth rows cols v) weights axis output borderType cval =
  Ok (flat3 depth rows cols w).
Proof.
  intros Hflags Htap Hd Hr Hc Haxis Hb0 Hb1 Hfill.
  assert (Hrect : rect3 (flat3 depth rows cols v) depth rows cols)
    by (apply rect3_flat3; lia).
  destruct (correlate1d_with_cells weights k Hk Hsize paths (flat3 depth rows cols v) output
              axis borderType cval depth rows cols symmetric anti_symmetric
              Hflags Hrect Hd Hr Hc Haxis Hb0 Hb1)
    as [padded [out [Hpad [Hrun [Hrect' Hcells]]]]].
  rewrite Hrun. f_equal.
  set (p0 := axis_pad axis 0 k) in *. set (p1 := axis_pad axis 1 k) in *.
  set (p2 := axis_pad axis 2 k) in *.
  assert (Hp0 : 0 <= p0) by (apply axis_pad_nonneg; lia).
  assert (Hp1 : 0 <= p1) by (apply axis_pad_nonneg; lia).
  assert (Hp2 : 0 <= p2) by (apply axis_pad_nonneg; lia).
  rewrite (pad3D_flat3 v cval borderType depth rows cols p0 p1 [p2]) in Hpad;
    auto; try (now apply axis_pad_bounce).
  cbn [pad_depth_of] in Hpad.
  assert (Hpadded : padded = flat3 (depth + 2 * p2) (rows + 2 * p0) (cols + 2 * p1) v)
    by congruence.
  assert (Hpv : (axis = 0 -> p0 = k /\ p1 = 0 /\ p2 = 0) /\
                (axis = 1 -> p0 = 0 /\ p1 = k /\ p2 = 0) /\
                (axis = 2 -> p0 = 0 /\ p1 = 0 /\ p2 = k)).
  { split; [| split]; intros E; unfold p0, p1, p2; rewrite E; repeat split. }
  destruct Hpv as [Hv0 [Hv1 Hv2]].
  apply (get3_ext _ _ depth rows cols Hrect'); [apply rect3_flat3; lia |].
  intros z r c Hz Hrr Hcc. rewrite get3_flat3 by assumption.
  destruct (Hcells z r c Hz Hrr Hcc) as [x [Hx ->]]. rewrite <- Hx, <- Htap.
  rewrite Hpadded. unfold tap_at.
  destruct (Z.eqb_spec axis 0) as [E0 | N0]; [| destruct (Z.eqb_spec axis 1) as [E1 | N1]].
  - destruct (Hv0 E0) as [Ep0 [Ep1 Ep2]].
    apply (tap_sum_window weights k Hk). intros d Hwin. apply get3_flat3; lia.
  - destruct (Hv1 E1) as [Ep0 [Ep1 Ep2]].
    apply (tap_sum_window weights k Hk). intros d Hwin. apply get3_flat3; lia.
  - assert (E2 : axis = 2) by lia. destruct (Hv2 E2) as [Ep0 [Ep1 Ep2]].
    apply (tap_sum_window weights k Hk). intros d Hwin. apply get3_flat3; lia.
Qed.
End CorrelateFlat.

(** ** The Sobel kernels on a flat volume of doubles *)

(** A finite double is a zero or a normal or subnormal number. *)
Lemma is_finite_SF (v : float) :
  PrimFloat.is_finite v = true ->
  (exists s, Prim2SF v = S754_zero s) \/ (exists s m e, Prim2SF v = S754_finite s m e).
Proof.
  unfold PrimFloat.is_finite, PrimFloat.is_nan, PrimFloat.is_infinity.
  rewrite !eqb_spec, abs_spec. change (Prim2SF infinity) with (S754_infinity false).
  destruct (Prim2SF v) as [s | s | | s m e]; cbn; try discriminate; eauto.
  rewrite orb_true_r. discriminate.
Qed.

(** The gradient kernel {-1, 0, 1} on three equal finite samples:
    v * 0 + (v - v) * 1 is +0. *)
Lemma gradient_of_equal_samples (v : float) :
  PrimFloat.is_finite v = true -> (v * 0 + (v - v) * 1 = 0)%float.
Proof.
  intros Hfin. apply Prim2SF_inj.
  rewrite add_spec, !mul_spec, sub_spec.
  change (Prim2SF 0) with (S754_zero false).
  change (Prim2SF 1) with (S754_finite false 4503599627370496 (-52)).
  destruct (is_finite_SF v Hfin) as [[s ->] | [s [m [e ->]]]].
  - destruct s; reflexivity.
  - unfold SF64sub, SFsub. cbv zeta. rewrite Z.sub_diag.
    destruct s; reflexivity.
Qed.

Section SobelFlat.
Variables (borderType depth rows cols : Z) (cval : float).
Hypothesis Hd : 0 < depth.
Hypothesis Hr : 0 < rows.
Hypothesis Hc : 0 < cols.
Hypothesis Hmode : borderType <> 0.
Hypothesis Hbr : bounce_ok borderType 1 rows.
Hypothesis Hbc : bounce_ok borderType 1 cols.

Lemma gradient_flat (v : float) axis output :
  PrimFloat.is_finite v = true -> 0 <= axis <= 2 ->
  correlate1d (flat3 depth rows cols v) [-1; 0; 1]%float axis output borderType cval =
  Ok (flat3 depth rows cols 0%float).
Proof.
  intros Hfin Haxis. unfold correlate1d.
  assert (Hflags : kernel_symmetry [-1; 0; 1]%float 1 = Ok (false, true)) by reflexivity.
  assert (Htap : tap_sum false true (fun _ => Ok v) [-1; 0; 1]%float 1 (2 * 1 + 1) 0 =
                 Ok (v * 0 + (v - v) * 1)%float) by reflexivity.
  rewrite (correlate1d_with_flat [-1; 0; 1]%float 1 ltac:(lia) eq_refl kernel_symmetry output
             v (v * 0 + (v - v) * 1)%float cval axis borderType depth rows cols false true
             Hflags Htap Hd Hr Hc Haxis (fun _ => Hbr) (fun _ => Hbc)
             (fun E => False_ind _ (Hmode E))).
  now rewrite (gradient_of_equal_samples v Hfin).
Qed.

Lemma smoothing_flat_zero axis output :
  0 <= axis <= 2 ->
  correlate1d (flat3 depth rows cols 0%float) [1; 2; 1]%float axis output borderType cval =
  Ok (flat3 depth rows cols 0%float).
Proof.
  intros Haxis. unfold correlate1d.
  assert (Hflags : kernel_symmetry [1; 2; 1]%float 1 = Ok (true, false)) by reflexivity.
  assert (Htap : tap_sum true false (fun _ => Ok 0%float) [1; 2; 1]%float 1 (2 * 1 + 1) 0 =
                 Ok 0%float) by reflexivity.
  exact (correlate1d_with_flat [1; 2; 1]%float 1 ltac:(lia) eq_refl kernel_symmetry output
           0%float 0%float cval axis borderType depth rows cols true false
           Hflags Htap Hd Hr Hc Haxis (fun _ => Hbr) (fun _ => Hbc)
           (fun E => False_ind _ (Hmode E))).
Qed.
End SobelFlat.

(** X19. The Sobel response of a flat volume is zero: for every finite
    double v, [sobel] on a non-empty volume whose samples all equal v
    returns the volume of the same shape whose samples are all +0, along
    every axis in {0,1,2} and under every mirror mode within the
    single-bounce regime. *)
Theorem sobel_flat_zero (v cval : float) (axis borderType depth rows cols : Z) :
  PrimFloat.is_finite v = true ->
  0 < depth -> 0 < rows -> 0 < cols ->
  0 <= axis <= 2 ->
  borderType <> 0 ->
  bounce_ok borderType 1 rows -> bounce_ok borderType 1 cols ->
  sobel (flat3 depth rows cols v) axis borderType cval = Ok (flat3 depth rows cols 0%float).
Proof.
  intros Hfin Hd Hr Hc Haxis Hmode Hbr Hbc.
  rewrite sobel_unfold; [| apply vempty_false; unfold flat3; rewrite vsize_repeat; lia
                         | assumption].
  rewrite (gradient_flat borderType depth rows cols cval Hd Hr Hc Hmode Hbr Hbc v axis []
             Hfin Haxis).
  cbn [bind].
  assert (Hsmooth : forall ax, 0 <= ax <= 2 ->
            correlate1d (flat3 depth rows cols 0%float) [1; 2; 1]%float ax [] borderType cval =
            Ok (flat3 depth rows cols 0%float))
    by (intros ax Hax; now apply smoothing_flat_zero).
  destruct (negb (0 =? axis)); [rewrite Hsmooth by lia |]; cbn [bind];
    (destruct (negb (1 =? axis)); [rewrite Hsmooth by lia |]); cbn [bind];
    (destruct (negb (2 =? axis)); [rewrite Hsmooth by lia |]); reflexivity.
Qed.

(** X19, witness: a 2 x 3 x 3 volume of sevens, axis 1, Replicate. *)
Lemma sobel_flat_zero_witness :
  sobel (flat3 2 3 3 7%float) 1 1 0%float = Ok (flat3 2 3 3 0%float).
Proof.
  apply (sobel_flat_zero 7%float 0%float 1 1 2 3 3).
  - reflexivity.
  - lia.
  - lia.
  - lia.
  - lia.
  - lia.
  - split; intros; lia.
  - split; intros; lia.
Defined.
